(** * Toro: cooperative synchronization primitives on an event loop

    A shallow embedding of [toro/__init__.py] (AsyncResult, Condition,
    Event, Queue and its subclasses, Semaphore, BoundedSemaphore) and the
    properties of its specification.

    Python objects that the primitives share (the [_Waiter] instances, the
    IOLoop) live in a [World]; every method is a computation in a state and
    exception monad over the receiver object and the world.

    Client callbacks are opaque to the library.  Here a client function
    records the arguments it is called with in [trace] and may raise; it
    does not call back into the primitive that runs it. *)

From Stdlib Require Import ZArith Lia Bool.
From stdpp Require Import base decidable list sorting.

(** ** Python values *)

(** The values that flow through the primitives: items, flags, the class
    [Queue.Empty] used as a timeout marker, and callables.  The two closures
    that the library itself builds are constructors of their own. *)
Inductive pyval : Type :=
| VNone
| VBool (b : bool)
| VInt (z : Z)
| VEmpty
| VUser (n : nat) (raises : bool)
| VPutDefer (cb : pyval)
| VAcquire (cb : pyval).

#[global] Instance pyval_eq_dec : EqDecision pyval.
Proof. solve_decision. Defined.

#[global] Instance pyval_inhabited : Inhabited pyval := populate VNone.

(** [callable(v)].  A class is callable. *)
Definition callable (v : pyval) : bool :=
  match v with
  | VNone | VBool _ | VInt _ => false
  | VEmpty | VUser _ _ | VPutDefer _ | VAcquire _ => true
  end.

(** Truth value of [v], as tested by [if v:] and [not v]. *)
Definition truthy (v : pyval) : bool :=
  match v with
  | VNone => false
  | VBool b => b
  | VInt z => negb (z =? 0)%Z
  | VEmpty | VUser _ _ | VPutDefer _ | VAcquire _ => true
  end.

(** [v is Empty]. *)
Definition is_Empty (v : pyval) : bool :=
  match v with VEmpty => true | _ => false end.

(** Python 2 ordering of these values, as used by [heapq]: [None] is below
    everything, numbers (booleans are numbers) compare by value and come
    before every other object.  The order among the other objects depends
    on their addresses and is left open: none of them is below another. *)
Definition py_class (v : pyval) : Z :=
  match v with
  | VNone => 0
  | VBool _ | VInt _ => 1
  | _ => 2
  end.

Definition py_num (v : pyval) : Z :=
  match v with
  | VBool b => if b then 1 else 0
  | VInt z => z
  | _ => 0
  end.

Definition py_lt (a b : pyval) : bool :=
  (py_class a <? py_class b)%Z
  || ((py_class a =? py_class b)%Z && (py_num a <? py_num b)%Z).

(** ** Exceptions and outcomes *)

Inductive exn : Type :=
| TypeError | ValueError | AssertionError | IndexError
| Full | Empty | NotReady | AlreadySet
| CallbackError.

#[global] Instance exn_eq_dec : EqDecision exn.
Proof. solve_decision. Defined.

Inductive outcome (A : Type) : Type :=
| Return (a : A)
| Raise (e : exn).
Arguments Return {A} a.
Arguments Raise {A} e.

(** ** The world: waiters, the IOLoop, and what clients observe *)

(** What the IOLoop holds: [partial(f, *args)] or [partial(waiter.run, *args)]. *)
Inductive thunk : Type :=
| Partial (f : pyval) (args : list pyval)
| WaiterRun (w : nat) (args : list pyval).

Record World : Type := mkWorld {
  (** [_Waiter.callback] of every waiter created so far, by identity;
      [VNone] once the waiter has run. *)
  waiter_callback : list pyval;
  (** [IOLoop.add_callback]: continuations for the next turn, FIFO. *)
  loop_callbacks : list thunk;
  (** [IOLoop.add_timeout]: armed timers. *)
  loop_timeouts : list thunk;
  (** Calls received by client functions, oldest first. *)
  trace : list (nat * list pyval);
  (** Callables reported by [handle_callback_exception]. *)
  error_log : list pyval
}.

Definition new_world : World := mkWorld [] [] [] [] [].

Definition set_waiter_callback (f : list pyval -> list pyval) (w : World) : World :=
  mkWorld (f (waiter_callback w)) (loop_callbacks w) (loop_timeouts w)
          (trace w) (error_log w).

Definition set_loop_callbacks (f : list thunk -> list thunk) (w : World) : World :=
  mkWorld (waiter_callback w) (f (loop_callbacks w)) (loop_timeouts w)
          (trace w) (error_log w).

Definition set_loop_timeouts (f : list thunk -> list thunk) (w : World) : World :=
  mkWorld (waiter_callback w) (loop_callbacks w) (f (loop_timeouts w))
          (trace w) (error_log w).

Definition set_trace (f : list (nat * list pyval) -> list (nat * list pyval))
    (w : World) : World :=
  mkWorld (waiter_callback w) (loop_callbacks w) (loop_timeouts w)
          (f (trace w)) (error_log w).

Definition set_error_log (f : list pyval -> list pyval) (w : World) : World :=
  mkWorld (waiter_callback w) (loop_callbacks w) (loop_timeouts w)
          (trace w) (f (error_log w)).

(** ** The method monad *)

(** A method of an object with state [S]: it reads and writes the receiver
    and the world, and returns or raises.  State changes made before a
    raise are kept, as in Python. *)
Definition M (S A : Type) : Type := S -> World -> outcome A * S * World.

#[global] Instance M_ret {S} : MRet (M S) :=
  fun A a s w => (Return a, s, w).

#[global] Instance M_bind {S} : MBind (M S) :=
  fun A B f m s w =>
    match m s w with
    | (Return a, s', w') => f a s' w'
    | (Raise e, s', w') => (Raise e, s', w')
    end.

Definition raise {S A} (e : exn) : M S A := fun s w => (Raise e, s, w).

(** [try: m except e: h] for the exceptions [handles] selects. *)
Definition try_except {S A} (m : M S A) (handles : exn -> bool) (h : M S A) : M S A :=
  fun s w =>
    match m s w with
    | (Raise e, s', w') => if handles e then h s' w' else (Raise e, s', w')
    | r => r
    end.

Definition self {S} : M S S := fun s w => (Return s, s, w).
Definition modify {S} (f : S -> S) : M S unit := fun s w => (Return tt, f s, w).
Definition world {S} : M S World := fun s w => (Return w, s, w).
Definition modify_world {S} (f : World -> World) : M S unit :=
  fun s w => (Return tt, s, f w).

(** Run a method of the attribute read by [proj] and written by [inj]. *)
Definition on {S T A} (proj : S -> T) (inj : T -> S -> S) (m : M T A) : M S A :=
  fun s w =>
    match m (proj s) w with
    | (r, t', w') => (r, inj t' s, w')
    end.

Definition when {S} (b : bool) (m : M S unit) : M S unit :=
  if b then m else mret tt.

Definition assert {S} (b : bool) : M S unit :=
  if b then mret tt else raise AssertionError.

(** ** _check_callback, ToroBase *)

Definition _check_callback {S} (callback : pyval) : M S unit :=
  if callable callback then mret tt else raise TypeError.

(** Calling the value [f] with [args].  A client function records the call;
    [_callback] of [Queue.put] schedules [callback(success)];
    the lambda of [Semaphore.acquire] calls [callback(value is not Empty)];
    calling an object that is not callable raises [TypeError]. *)
Fixpoint call (f : pyval) (args : list pyval) (w : World) : outcome unit * World :=
  match f with
  | VUser n raises =>
      let w' := set_trace (fun t => t ++ [(n, args)]) w in
      if raises then (Raise CallbackError, w') else (Return tt, w')
  | VPutDefer callback =>
      match args with
      | [success] =>
          (Return tt, set_loop_callbacks (fun l => l ++ [Partial callback [success]]) w)
      | _ => (Raise TypeError, w)
      end
  | VAcquire callback =>
      match args with
      | [value] => call callback [VBool (negb (is_Empty value))] w
      | _ => (Raise TypeError, w)
      end
  | VEmpty => (Return tt, w)
  | VNone | VBool _ | VInt _ => (Raise TypeError, w)
  end.

(** [ToroBase.handle_callback_exception]: log the callable. *)
Definition handle_callback_exception (callback : pyval) (w : World) : World :=
  set_error_log (fun l => l ++ [callback]) w.

(** [ToroBase._run_callback]: exceptions of the callback are caught. *)
Definition run_callback (callback : pyval) (args : list pyval) (w : World) : World :=
  match call callback args w with
  | (Return _, w') => w'
  | (Raise _, w') => handle_callback_exception callback w'
  end.

Definition _run_callback {S} (callback : pyval) (args : list pyval) : M S unit :=
  modify_world (run_callback callback args).

(** [IOLoop.add_callback]. *)
Definition add_callback {S} (t : thunk) : M S unit :=
  modify_world (set_loop_callbacks (fun l => l ++ [t])).

(** [IOLoop.add_timeout]; the deadline is not kept: an armed timer may fire
    at any later moment. *)
Definition add_timeout {S} (t : thunk) : M S unit :=
  modify_world (set_loop_timeouts (fun l => l ++ [t])).

(** [ToroBase._next_tick]. *)
Definition _next_tick {S} (callback : pyval) (args : list pyval) : M S unit :=
  if truthy callback then
    _check_callback callback ;;
    add_callback (Partial callback args)
  else mret tt.

(** ** _Waiter *)

(** [_Waiter.expired]: [not self.callback]. *)
Definition expired (w : World) (waiter : nat) : bool :=
  negb (truthy (waiter_callback w !!! waiter)).

(** [_Waiter.__init__]; the new waiter's identity is returned. *)
Definition new_Waiter {S} (timeout : option Z) (timeout_args : list pyval)
    (callback : pyval) : M S nat :=
  _check_callback callback ;;
  w ← world ;
  let waiter := length (waiter_callback w) in
  when (bool_decide (timeout <> None)) (add_timeout (WaiterRun waiter timeout_args)) ;;
  modify_world (set_waiter_callback (fun l => l ++ [callback])) ;;
  mret waiter.

(** [_Waiter.run]. *)
Definition waiter_run (waiter : nat) (args : list pyval) (w : World) : World :=
  let callback := waiter_callback w !!! waiter in
  if truthy callback then
    run_callback callback args (set_waiter_callback (fun l => <[waiter := VNone]> l) w)
  else w.

Definition Waiter_run {S} (waiter : nat) (args : list pyval) : M S unit :=
  modify_world (waiter_run waiter args).

(** ** The IOLoop, as far as the primitives rely on it *)

(** Modelled from the spec: the scheduler is an external collaborator;
    [schedule(fn)] enqueues [fn] for the next turn, FIFO, and one turn runs
    the continuations that were ready when it started.  An exception of a
    continuation is logged by the loop. *)
Definition run_thunk (t : thunk) (w : World) : World :=
  match t with
  | Partial f args => run_callback f args w
  | WaiterRun waiter args => waiter_run waiter args w
  end.

Definition run_turn (w : World) : World :=
  fold_left (fun w t => run_thunk t w) (loop_callbacks w)
            (set_loop_callbacks (fun _ => []) w).

(** Modelled from the spec: [arm_timer] fires its function once, some time
    after it was armed.  [fire_timeout i] is the expiry of the [i]-th armed
    timer. *)
Definition fire_timeout (i : nat) (w : World) : World :=
  match loop_timeouts w !! i with
  | Some t => run_thunk t (set_loop_timeouts (delete i) w)
  | None => w
  end.

(** ** AsyncResult *)

Module AsyncResult.

Record t : Type := mk {
  _ready : bool;
  value : pyval;
  waiters : list nat
}.

Definition __init__ : t := mk false VNone [].

Definition ready : M t bool := r ← self ; mret (_ready r).

(** [for waiter in waiters: waiter.run(value)] *)
Definition run_all (waiters : list nat) (args : list pyval) (w : World) : World :=
  fold_left (fun w waiter => waiter_run waiter args w) waiters w.

Definition set (v : pyval) : M t unit :=
  r ← self ;
  (if _ready r then raise AlreadySet else mret tt) ;;
  modify (fun r => mk (_ready r) v (waiters r)) ;;
  modify (fun r => mk true (value r) (waiters r)) ;;
  modify (fun r => mk (_ready r) (value r) []) ;;
  modify_world (run_all (waiters r) [v]).

Definition get (callback : pyval) (timeout : option Z) : M t pyval :=
  r ← self ;
  if _ready r then
    if negb (truthy callback) then mret (value r)
    else _next_tick callback [value r] ;; mret VNone
  else
    if negb (truthy callback) then raise NotReady
    else
      waiter ← new_Waiter timeout [VNone] callback ;
      modify (fun r => mk (_ready r) (value r) (waiters r ++ [waiter])) ;;
      mret VNone.

End AsyncResult.

(** ** Condition *)

(** [while waiters and waiters[0].expired: waiters.popleft()] *)
Fixpoint drop_expired (w : World) (waiters : list nat) : list nat :=
  match waiters with
  | [] => []
  | waiter :: rest => if expired w waiter then drop_expired w rest else waiters
  end.

Module Condition.

Record t : Type := mk { waiters : list nat }.

Definition __init__ : t := mk [].

Definition _consume_timed_out_waiters : M t unit :=
  w ← world ;
  modify (fun c => mk (drop_expired w (waiters c))).

Definition wait (callback : pyval) (timeout : option Z) : M t unit :=
  waiter ← new_Waiter timeout [] callback ;
  modify (fun c => mk (waiters c ++ [waiter])).

(** The selection loop of [notify]: [while n and self.waiters].  Every
    iteration pops a waiter, so [fuel] iterations empty a deque of [fuel]
    waiters.  Returns the waiters to run and the waiters left. *)
Fixpoint notify_loop (fuel : nat) (w : World) (n : Z) (waiters : list nat)
    : list nat * list nat :=
  match fuel with
  | O => ([], waiters)
  | S fuel' =>
      match waiters with
      | [] => ([], waiters)
      | waiter :: rest =>
          if (n =? 0)%Z then ([], waiters)
          else
            let (picked, left) := notify_loop fuel' w (n - 1) (drop_expired w rest) in
            (waiter :: picked, left)
      end
  end.

Definition notify (n : Z) : M t unit :=
  _consume_timed_out_waiters ;;
  c ← self ;
  w ← world ;
  let (picked, left) := notify_loop (length (waiters c)) w n (waiters c) in
  modify (fun _ => mk left) ;;
  modify_world (AsyncResult.run_all picked []).

Definition notify_all : M t unit :=
  c ← self ;
  notify (Z.of_nat (length (waiters c))).

End Condition.

(** ** Event *)

Module Event.

Record t : Type := mk {
  condition : Condition.t;
  _flag : bool
}.

Definition __init__ : t := mk Condition.__init__ false.

Definition on_condition {A} (m : M Condition.t A) : M t A :=
  on condition (fun c e => mk c (_flag e)) m.

Definition is_set : M t bool := e ← self ; mret (_flag e).

Definition set : M t unit :=
  modify (fun e => mk (condition e) true) ;;
  on_condition Condition.notify_all.

Definition clear : M t unit :=
  modify (fun e => mk (condition e) false).

Definition wait (callback : pyval) (timeout : option Z) : M t unit :=
  e ← self ;
  if _flag e then _next_tick callback []
  else on_condition (Condition.wait callback timeout).

End Event.

(** ** heapq *)

(** Modelled from the spec: the min-heap of [PriorityQueue]
    ([_put] = heap-push, [_get] = heap-pop, smallest wins), which the source
    takes from Python's [heapq].  The heap is an array whose entry [k] is not
    above its children [2k+1] and [2k+2]; the definitions follow the array
    algorithm of that module. *)
Module heapq.

(** [(pos - 1) >> 1] *)
Definition parent_pos (pos : nat) : nat := Nat.shiftr (pos - 1) 1.

(** The loop of [_siftdown]: [pos] moves to its parent in every iteration,
    so [pos] iterations are enough. *)
Fixpoint _siftdown_loop (fuel : nat) (heap : list pyval) (startpos pos : nat)
    (newitem : pyval) : list pyval :=
  match fuel with
  | O => <[pos := newitem]> heap
  | S fuel' =>
      if bool_decide (startpos < pos) then
        let parentpos := parent_pos pos in
        let parent := heap !!! parentpos in
        if py_lt newitem parent then
          _siftdown_loop fuel' (<[pos := parent]> heap) startpos parentpos newitem
        else <[pos := newitem]> heap
      else <[pos := newitem]> heap
  end.

Definition _siftdown (heap : list pyval) (startpos pos : nat) : list pyval :=
  _siftdown_loop pos heap startpos pos (heap !!! pos).

(** The loop of [_siftup]: the smaller child moves up until [pos] is a leaf;
    [pos] grows in every iteration, so [endpos] iterations are enough.
    Returns the array and the leaf reached. *)
Fixpoint _siftup_loop (fuel : nat) (heap : list pyval) (endpos pos : nat)
    : list pyval * nat :=
  match fuel with
  | O => (heap, pos)
  | S fuel' =>
      let childpos := 2 * pos + 1 in
      if bool_decide (childpos < endpos) then
        let rightpos := childpos + 1 in
        let childpos :=
          if bool_decide (rightpos < endpos)
             && negb (py_lt (heap !!! childpos) (heap !!! rightpos))
          then rightpos else childpos in
        _siftup_loop fuel' (<[pos := heap !!! childpos]> heap) endpos childpos
      else (heap, pos)
  end.

Definition _siftup (heap : list pyval) (pos : nat) : list pyval :=
  let endpos := length heap in
  let startpos := pos in
  let newitem := heap !!! pos in
  let (heap, pos) := _siftup_loop endpos heap endpos pos in
  _siftdown (<[pos := newitem]> heap) startpos pos.

Definition heappush (heap : list pyval) (item : pyval) : list pyval :=
  let heap := heap ++ [item] in
  _siftdown heap 0 (length heap - 1).

(** [None] stands for the [IndexError] of popping an empty list. *)
Definition heappop (heap : list pyval) : option (pyval * list pyval) :=
  match last heap with
  | None => None
  | Some lastelt =>
      match removelast heap with
      | [] => Some (lastelt, [])
      | returnitem :: rest =>
          Some (returnitem, _siftup (<[0 := lastelt]> (returnitem :: rest)) 0)
      end
  end.

End heapq.

(** ** Queue, PriorityQueue, LifoQueue, JoinableQueue *)

(** [for i in range(n): m] *)
Fixpoint for_range {S} (n : nat) (m : M S unit) : M S unit :=
  match n with
  | O => mret tt
  | S n' => m ;; for_range n' m
  end.

(** Build an object: run the body of [__init__] on the attributes set so far. *)
Definition construct {S} (init : S) (body : M S unit) (w : World) : outcome S * World :=
  match body init w with
  | (Return _, s, w') => (Return s, w')
  | (Raise e, _, w') => (Raise e, w')
  end.

Module Queue.

(** The class of the receiver decides which [_put] and [_get] run. *)
Inductive class : Type :=
| ClsQueue | ClsPriorityQueue | ClsLifoQueue | ClsJoinableQueue.

Record t : Type := mk {
  cls : class;
  maxsize : option Z;
  (** waiters *)
  getters : list nat;
  (** pairs of (item, waiter) *)
  putters : list (pyval * nat);
  (** the storage *)
  queue : list pyval;
  (** attributes of [JoinableQueue] *)
  unfinished_tasks : Z;
  _finished : Event.t
}.

Definition set_getters (f : list nat -> list nat) (q : t) : t :=
  mk (cls q) (maxsize q) (f (getters q)) (putters q) (queue q)
     (unfinished_tasks q) (_finished q).

Definition set_putters (f : list (pyval * nat) -> list (pyval * nat)) (q : t) : t :=
  mk (cls q) (maxsize q) (getters q) (f (putters q)) (queue q)
     (unfinished_tasks q) (_finished q).

Definition set_queue (f : list pyval -> list pyval) (q : t) : t :=
  mk (cls q) (maxsize q) (getters q) (putters q) (f (queue q))
     (unfinished_tasks q) (_finished q).

Definition set_unfinished_tasks (f : Z -> Z) (q : t) : t :=
  mk (cls q) (maxsize q) (getters q) (putters q) (queue q)
     (f (unfinished_tasks q)) (_finished q).

Definition set_finished (e : Event.t) (q : t) : t :=
  mk (cls q) (maxsize q) (getters q) (putters q) (queue q)
     (unfinished_tasks q) e.

Definition on_finished {A} (m : M Event.t A) : M t A :=
  on _finished set_finished m.

(** [Queue.__init__] and [JoinableQueue.__init__]. *)
Definition __init__ (c : class) (maxsize : option Z) (w : World) : outcome t * World :=
  construct (mk c maxsize [] [] [] 0 Event.__init__)
    ((match maxsize with
      | Some m => if (m <? 0)%Z then raise ValueError else mret tt
      | None => mret tt
      end) ;;
     (match c with
      | ClsJoinableQueue => on_finished Event.set
      | _ => mret tt
      end)) w.

Definition _put (item : pyval) : M t unit :=
  q ← self ;
  match cls q with
  | ClsQueue => modify (set_queue (fun l => l ++ [item]))
  | ClsPriorityQueue => modify (set_queue (fun l => heapq.heappush l item))
  | ClsLifoQueue => modify (set_queue (fun l => l ++ [item]))
  | ClsJoinableQueue =>
      modify (set_queue (fun l => l ++ [item])) ;;
      modify (set_unfinished_tasks (fun n => n + 1)%Z) ;;
      on_finished Event.clear
  end.

Definition _get : M t pyval :=
  q ← self ;
  match cls q with
  | ClsQueue | ClsJoinableQueue =>
      match queue q with
      | [] => raise IndexError
      | item :: rest => modify (set_queue (fun _ => rest)) ;; mret item
      end
  | ClsPriorityQueue =>
      match heapq.heappop (queue q) with
      | None => raise IndexError
      | Some (item, heap) => modify (set_queue (fun _ => heap)) ;; mret item
      end
  | ClsLifoQueue =>
      match last (queue q) with
      | None => raise IndexError
      | Some item => modify (set_queue (fun l => removelast l)) ;; mret item
      end
  end.

Definition _consume_expired_getters : M t unit :=
  w ← world ;
  modify (set_getters (drop_expired w)).

(** [while putters and putters[0][1].expired: putters.popleft()] *)
Fixpoint drop_expired_putters (w : World) (putters : list (pyval * nat))
    : list (pyval * nat) :=
  match putters with
  | [] => []
  | (item, waiter) :: rest =>
      if expired w waiter then drop_expired_putters w rest else putters
  end.

Definition _consume_expired_putters : M t unit :=
  w ← world ;
  modify (set_putters (drop_expired_putters w)).

Definition qsize_of (q : t) : Z := Z.of_nat (length (queue q)).

Definition qsize : M t Z := q ← self ; mret (qsize_of q).

Definition empty : M t bool := q ← self ; mret (bool_decide (queue q = [])).

Definition full_of (q : t) : bool :=
  match maxsize q with
  | None => false
  | Some m => if (m =? 0)%Z then true else (qsize_of q =? m)%Z
  end.

Definition full : M t bool := q ← self ; mret (full_of q).

(** [self.maxsize == self.qsize()] *)
Definition maxsize_is_qsize (q : t) : bool :=
  match maxsize q with
  | None => false
  | Some m => (m =? qsize_of q)%Z
  end.

Definition put (item callback : pyval) (timeout : option Z) : M t unit :=
  _consume_expired_getters ;;
  q ← self ;
  match getters q with
  | getter :: rest =>
      assert (bool_decide (queue q = [])) ;;
      modify (set_getters (fun _ => rest)) ;;
      _put item ;;
      v ← _get ;
      Waiter_run getter [v] ;;
      _next_tick callback [VBool true]
  | [] =>
      if maxsize_is_qsize q && truthy callback then
        _check_callback callback ;;
        waiter ← new_Waiter timeout [VBool false] (VPutDefer callback) ;
        modify (set_putters (fun l => l ++ [(item, waiter)]))
      else if maxsize_is_qsize q then raise Full
      else
        _put item ;;
        _next_tick callback [VBool true]
  end.

Definition get (callback : pyval) (timeout : option Z) : M t pyval :=
  _consume_expired_putters ;;
  q ← self ;
  match putters q with
  | (item, putter) :: rest =>
      assert (full_of q) ;;
      modify (set_putters (fun _ => rest)) ;;
      _put item ;;
      if truthy callback then
        v ← _get ;
        _run_callback callback [v] ;;
        Waiter_run putter [VBool true] ;;
        mret VNone
      else
        add_callback (WaiterRun putter [VBool true]) ;;
        _get
  | [] =>
      if negb (qsize_of q =? 0)%Z then
        if truthy callback then
          v ← _get ;
          _run_callback callback [v] ;;
          mret VNone
        else _get
      else if truthy callback then
        waiter ← new_Waiter timeout [VEmpty] callback ;
        modify (set_getters (fun l => l ++ [waiter])) ;;
        mret VNone
      else raise Empty
  end.

(** [JoinableQueue.task_done] *)
Definition task_done : M t unit :=
  q ← self ;
  (if (unfinished_tasks q <=? 0)%Z then raise ValueError else mret tt) ;;
  modify (set_unfinished_tasks (fun n => n - 1)%Z) ;;
  q ← self ;
  if (unfinished_tasks q =? 0)%Z then on_finished Event.set else mret tt.

(** [JoinableQueue.join] *)
Definition join (callback : pyval) (timeout : option Z) : M t unit :=
  q ← self ;
  if (unfinished_tasks q =? 0)%Z then _next_tick callback []
  else on_finished (Event.wait callback timeout).

End Queue.

(** ** Semaphore, BoundedSemaphore *)

Module Semaphore.

Record t : Type := mk {
  q : Queue.t;
  _unlocked : Event.t
}.

Definition on_q {A} (m : M Queue.t A) : M t A :=
  on q (fun q' s => mk q' (_unlocked s)) m.

Definition on_unlocked {A} (m : M Event.t A) : M t A :=
  on _unlocked (fun e s => mk (q s) e) m.

Definition __init__ (value : Z) (w : World) : outcome t * World :=
  if (value <? 0)%Z then (Raise ValueError, w)
  else
    match Queue.__init__ Queue.ClsQueue None w with
    | (Raise e, w') => (Raise e, w')
    | (Return q0, w') =>
        construct (mk q0 Event.__init__)
          (for_range (Z.to_nat value) (on_q (Queue.put VNone VNone None)) ;;
           when (negb (value =? 0)%Z) (on_unlocked Event.set)) w'
    end.

Definition counter : M t Z := on_q Queue.qsize.

Definition locked : M t bool := on_q Queue.empty.

Definition release : M t unit :=
  on_q (Queue.put VNone VNone None) ;;
  on_unlocked Event.set.

Definition wait (callback : pyval) (timeout : option Z) : M t unit :=
  on_unlocked (Event.wait callback timeout).

Definition acquire (callback : pyval) (timeout : option Z) : M t pyval :=
  if truthy callback then
    _check_callback callback ;;
    on_q (Queue.get (VAcquire callback) timeout) ;;
    mret VNone
  else
    try_except
      (on_q (Queue.get VNone None) ;; mret (VBool true))
      (fun e => bool_decide (e = Empty))
      (mret (VBool false)).

End Semaphore.

Module BoundedSemaphore.

Record t : Type := mk {
  sem : Semaphore.t;
  _initial_value : Z
}.

Definition on_sem {A} (m : M Semaphore.t A) : M t A :=
  on sem (fun s' b => mk s' (_initial_value b)) m.

Definition __init__ (value : Z) (w : World) : outcome t * World :=
  match Semaphore.__init__ value w with
  | (Return s, w') => (Return (mk s value), w')
  | (Raise e, w') => (Raise e, w')
  end.

Definition counter : M t Z := on_sem Semaphore.counter.

Definition release : M t unit :=
  c ← counter ;
  b ← self ;
  (if (_initial_value b <=? c)%Z then raise ValueError else mret tt) ;;
  on_sem Semaphore.release.

Definition acquire (callback : pyval) (timeout : option Z) : M t pyval :=
  on_sem (Semaphore.acquire callback timeout).

Definition wait (callback : pyval) (timeout : option Z) : M t unit :=
  on_sem (Semaphore.wait callback timeout).

End BoundedSemaphore.


(** ** Lock *)

Module Lock.

Record t : Type := mk { _block : Semaphore.t }.

Definition on_block {A} (m : M Semaphore.t A) : M t A :=
  on _block (fun s _ => mk s) m.

Definition __init__ (w : World) : outcome t * World :=
  match Semaphore.__init__ 1 w with
  | (Return s, w') => (Return (mk s), w')
  | (Raise e, w') => (Raise e, w')
  end.

Definition acquire (callback : pyval) (timeout : option Z) : M t pyval :=
  on_block (Semaphore.acquire callback timeout).

Definition release : M t unit := on_block Semaphore.release.

Definition locked : M t bool := on_block Semaphore.locked.

End Lock.
(** * Specification-level definitions *)

(** ** Running a method on an object in a world *)

Definition result {S A} (m : M S A) (st : S * World) : outcome A :=
  (m st.1 st.2).1.1.

Definition after {S A} (m : M S A) (st : S * World) : S * World :=
  ((m st.1 st.2).1.2, (m st.1 st.2).2).

(** What happens between two calls of the client: a timer expires, or the
    loop runs one turn. *)
Inductive loop_event : Type :=
| Timeout (i : nat)
| Turn.

Definition loop_step (ev : loop_event) (w : World) : World :=
  match ev with
  | Timeout i => fire_timeout i w
  | Turn => run_turn w
  end.

(** The calls that client functions receive when [f] is called with [args]. *)
Fixpoint calls_of (f : pyval) (args : list pyval) : list (nat * list pyval) :=
  match f with
  | VUser n _ => [(n, args)]
  | VAcquire callback =>
      match args with
      | [value] => calls_of callback [VBool (negb (is_Empty value))]
      | _ => []
      end
  | _ => []
  end.

(** The callbacks of the waiters in [waiters] that have not run yet. *)
Definition pending (w : World) (waiters : list nat) : list pyval :=
  filter (fun f => truthy f = true) (map (fun i => waiter_callback w !!! i) waiters).

(** ** Queues: histories and invariants *)

Inductive queue_action : Type :=
| QPut (item callback : pyval) (timeout : option Z)
| QGet (callback : pyval) (timeout : option Z)
| QTaskDone
| QJoin (callback : pyval) (timeout : option Z)
| QLoop (ev : loop_event).

Definition is_joinable (q : Queue.t) : bool :=
  match Queue.cls q with Queue.ClsJoinableQueue => true | _ => false end.

(** One step of a history.  [task_done] and [join] exist on a
    [JoinableQueue] only. *)
Definition queue_step (a : queue_action) (st : Queue.t * World) : Queue.t * World :=
  match a with
  | QPut item callback timeout => after (Queue.put item callback timeout) st
  | QGet callback timeout => after (Queue.get callback timeout) st
  | QTaskDone => if is_joinable st.1 then after Queue.task_done st else st
  | QJoin callback timeout =>
      if is_joinable st.1 then after (Queue.join callback timeout) st else st
  | QLoop ev => (st.1, loop_step ev st.2)
  end.

(** The states a queue of any class and any [maxsize] goes through. *)
Inductive queue_reachable : Queue.t * World -> Prop :=
| queue_reach_init c maxsize w q w' :
    Queue.__init__ c maxsize w = (Return q, w') ->
    queue_reachable (q, w')
| queue_reach_step a st :
    queue_reachable st ->
    queue_reachable (queue_step a st).

(** A waiter of the list has not run yet. *)
Definition some_live (w : World) (waiters : list nat) : bool :=
  existsb (fun waiter => negb (expired w waiter)) waiters.

(** Room for one more item in the storage. *)
Definition has_room (q : Queue.t) : bool :=
  match Queue.maxsize q with
  | None => true
  | Some m => (Queue.qsize_of q <? m)%Z
  end.

(** The attributes that [_put] and [_get] leave alone. *)
Definition same_waiters (q q' : Queue.t) : Prop :=
  Queue.cls q' = Queue.cls q /\ Queue.maxsize q' = Queue.maxsize q /\
  Queue.getters q' = Queue.getters q /\ Queue.putters q' = Queue.putters q.

(** The invariant of a queue: no getter waits while items are stored, no
    putter waits while a slot is free, and the storage holds at most
    [maxsize] items. *)
Definition queue_inv (q : Queue.t) : Prop :=
  (Queue.getters q <> [] -> Queue.queue q = []) /\
  (Queue.putters q <> [] -> Queue.maxsize q = Some (Queue.qsize_of q)) /\
  (forall m, Queue.maxsize q = Some m -> (0 <= m /\ Queue.qsize_of q <= m)%Z).

(** ** AsyncResult histories *)

Inductive result_action : Type :=
| RGet (callback : pyval) (timeout : option Z)
| RSet (v : pyval)
| RLoop (ev : loop_event).

Definition result_step (a : result_action) (st : AsyncResult.t * World)
    : AsyncResult.t * World :=
  match a with
  | RGet callback timeout => after (AsyncResult.get callback timeout) st
  | RSet v => after (AsyncResult.set v) st
  | RLoop ev => (st.1, loop_step ev st.2)
  end.

Inductive result_reachable : AsyncResult.t * World -> Prop :=
| result_reach_init w : result_reachable (AsyncResult.__init__, w)
| result_reach_step a st :
    result_reachable st -> result_reachable (result_step a st).

(** ** Semaphore histories *)

Inductive sem_action : Type :=
| SAcquire (callback : pyval) (timeout : option Z)
| SRelease
| SWait (callback : pyval) (timeout : option Z)
| SLoop (ev : loop_event).

Definition bsem_step (a : sem_action) (st : BoundedSemaphore.t * World)
    : BoundedSemaphore.t * World :=
  match a with
  | SAcquire callback timeout => after (BoundedSemaphore.acquire callback timeout) st
  | SRelease => after BoundedSemaphore.release st
  | SWait callback timeout => after (BoundedSemaphore.wait callback timeout) st
  | SLoop ev => (st.1, loop_step ev st.2)
  end.

Inductive bsem_reachable : BoundedSemaphore.t * World -> Prop :=
| bsem_reach_init value w b w' :
    BoundedSemaphore.__init__ value w = (Return b, w') ->
    bsem_reachable (b, w')
| bsem_reach_step a st :
    bsem_reachable st -> bsem_reachable (bsem_step a st).

Definition counter_of (b : BoundedSemaphore.t) : Z :=
  Queue.qsize_of (Semaphore.q (BoundedSemaphore.sem b)).

(** ** Heaps *)

(** [a <= b] in the order of [py_lt]. *)
Definition py_le (a b : pyval) : Prop := py_lt b a = false.

(** The heap invariant of [heapq]: every entry is at least its parent. *)
Definition is_heap (heap : list pyval) : Prop :=
  forall k, 0 < k < length heap ->
    py_le (heap !!! heapq.parent_pos k) (heap !!! k).

(** Put every item, then drain the queue with non-blocking [get]s. *)
Fixpoint put_all (items : list pyval) (st : Queue.t * World) : Queue.t * World :=
  match items with
  | [] => st
  | item :: rest => put_all rest (after (Queue.put item VNone None) st)
  end.

Fixpoint drain (n : nat) (st : Queue.t * World) : list (outcome pyval) :=
  match n with
  | O => []
  | S n' => result (Queue.get VNone None) st
            :: drain n' (after (Queue.get VNone None) st)
  end.

(** Reference sort on integers: insertion sort. *)
Fixpoint insert_sorted (x : Z) (l : list Z) : list Z :=
  match l with
  | [] => [x]
  | y :: l' => if (x <=? y)%Z then x :: l else y :: insert_sorted x l'
  end.

Fixpoint sort_ints (l : list Z) : list Z :=
  match l with
  | [] => []
  | x :: l' => insert_sorted x (sort_ints l')
  end.

(** ** States used as examples *)

(** [q = Queue(maxsize=1); q.put(1); q.put(2, cb)]: the second put parks. *)
Definition parked_putter_state : Queue.t * World :=
  queue_step (QPut (VInt 2) (VUser 0 false) None)
    (queue_step (QPut (VInt 1) VNone None)
       (Queue.mk Queue.ClsQueue (Some 1%Z) [] [] [] 0 Event.__init__, new_world)).

(** [q = Queue(); q.put(1)] *)
Definition one_item_state : Queue.t * World :=
  queue_step (QPut (VInt 1) VNone None)
    (Queue.mk Queue.ClsQueue None [] [] [] 0 Event.__init__, new_world).

(** The waiters of an [AsyncResult] are distinct objects that exist, and
    none is left once the result is set. *)
Definition result_inv (st : AsyncResult.t * World) : Prop :=
  NoDup (AsyncResult.waiters st.1) /\
  Forall (fun x => x < length (waiter_callback st.2)) (AsyncResult.waiters st.1) /\
  (AsyncResult._ready st.1 = true -> AsyncResult.waiters st.1 = []).

(** [r = AsyncResult(); r.get(cb, timeout=1)], and the timer fires. *)
Definition timed_out_state : AsyncResult.t * World :=
  result_step (RLoop (Timeout 0))
    (result_step (RGet (VUser 0 false) (Some 1%Z))
       (AsyncResult.__init__, new_world)).

(** The invariant of a bounded semaphore: its queue is unbounded and keeps
    the queue invariant, and the counter never exceeds the initial value. *)
Definition bsem_inv (b : BoundedSemaphore.t) : Prop :=
  queue_inv (Semaphore.q (BoundedSemaphore.sem b)) /\
  Queue.maxsize (Semaphore.q (BoundedSemaphore.sem b)) = None /\
  (counter_of b <= BoundedSemaphore._initial_value b)%Z.


(** [b = BoundedSemaphore(1); b.acquire()] *)
Definition acquired_bsem_state : BoundedSemaphore.t * World :=
  bsem_step (SAcquire VNone None)
    (BoundedSemaphore.mk
       (Semaphore.mk (Queue.mk Queue.ClsQueue None [] [] [VNone] 0 Event.__init__)
          (Event.mk (Condition.mk []) true)) 1, new_world).

(** ** Invariants of the loops of [heapq] *)

(** The heap order holds everywhere except that entry [pos] may be below
    its parent; the children of [pos] are not below that parent. *)
Definition heap_except (h : list pyval) (pos : nat) : Prop :=
  (forall k, 0 < k < length h -> k <> pos ->
     py_le (h !!! heapq.parent_pos k) (h !!! k)) /\
  (forall k, 0 < k < length h -> heapq.parent_pos k = pos -> 0 < pos ->
     py_le (h !!! heapq.parent_pos pos) (h !!! k)).

(** The heap order holds between the entries other than the hole [pos]; the
    children of the hole are not below its parent. *)
Definition heap_hole (h : list pyval) (pos : nat) : Prop :=
  (forall k, 0 < k < length h -> k <> pos -> heapq.parent_pos k <> pos ->
     py_le (h !!! heapq.parent_pos k) (h !!! k)) /\
  (forall k, 0 < k < length h -> heapq.parent_pos k = pos -> 0 < pos ->
     py_le (h !!! heapq.parent_pos pos) (h !!! k)).

(** [Queue()], [PriorityQueue()], [LifoQueue()]: unbounded and empty. *)
Definition new_queue (c : Queue.class) : Queue.t :=
  Queue.mk c None [] [] [] 0 Event.__init__.

(** Drain the queue with [n] callback-bearing [get]s. *)
Fixpoint get_all (n : nat) (callback : pyval) (st : Queue.t * World)
    : Queue.t * World :=
  match n with
  | O => st
  | S n' => get_all n' callback (after (Queue.get callback None) st)
  end.

(** The items that [n] successive [_get]s take from the storage. *)
Fixpoint take_all (n : nat) (q : Queue.t) (w : World) : list pyval :=
  match n with
  | O => []
  | S n' =>
      match Queue._get q w with
      | (Return item, q', _) => item :: take_all n' q' w
      | (Raise _, _, _) => []
      end
  end.

(** * Further histories and invariants *)

(** The waiters of [waiters] that have not run yet. *)
Definition live_waiters (w : World) (waiters : list nat) : list nat :=
  filter (fun x => expired w x = false) waiters.

(** The waiters held by a primitive are distinct objects that exist. *)
Definition waiters_ok (w : World) (waiters : list nat) : Prop :=
  NoDup waiters /\ Forall (fun x => x < length (waiter_callback w)) waiters.

(** ** Condition *)

Inductive cond_action : Type :=
| CWait (callback : pyval) (timeout : option Z)
| CNotify (n : Z)
| CNotifyAll
| CLoop (ev : loop_event).

Definition cond_step (a : cond_action) (st : Condition.t * World)
    : Condition.t * World :=
  match a with
  | CWait callback timeout => after (Condition.wait callback timeout) st
  | CNotify n => after (Condition.notify n) st
  | CNotifyAll => after Condition.notify_all st
  | CLoop ev => (st.1, loop_step ev st.2)
  end.

Inductive cond_reachable : Condition.t * World -> Prop :=
| cond_reach_init w : cond_reachable (Condition.__init__, w)
| cond_reach_step a st : cond_reachable st -> cond_reachable (cond_step a st).

(** ** Event *)

Inductive event_action : Type :=
| ESet
| EClear
| EWait (callback : pyval) (timeout : option Z)
| ELoop (ev : loop_event).

Definition event_step (a : event_action) (st : Event.t * World)
    : Event.t * World :=
  match a with
  | ESet => after Event.set st
  | EClear => after Event.clear st
  | EWait callback timeout => after (Event.wait callback timeout) st
  | ELoop ev => (st.1, loop_step ev st.2)
  end.

Inductive event_reachable : Event.t * World -> Prop :=
| event_reach_init w : event_reachable (Event.__init__, w)
| event_reach_step a st : event_reachable st -> event_reachable (event_step a st).

(** A set event holds no waiter. *)
Definition event_inv (st : Event.t * World) : Prop :=
  waiters_ok st.2 (Condition.waiters (Event.condition st.1)) /\
  (Event._flag st.1 = true -> Condition.waiters (Event.condition st.1) = []).

(** The world once a waiter for [callback] has been created in [w]: the
    timer is armed when a timeout is given, and the waiter holds the
    callback. *)
Definition registered (timeout : option Z) (timeout_args : list pyval)
    (callback : pyval) (w : World) : World :=
  set_waiter_callback (fun l => l ++ [callback])
    (if bool_decide (timeout <> None)
     then set_loop_timeouts
            (fun l => l ++ [WaiterRun (length (waiter_callback w)) timeout_args]) w
     else w).

(** [c = Condition(); c.wait(cb0); c.wait(cb1)] *)
Definition two_waiters_state : Condition.t * World :=
  cond_step (CWait (VUser 1 false) None)
    (cond_step (CWait (VUser 0 false) None) (Condition.__init__, new_world)).

(** [e = Event(); e.wait(cb0); e.wait(cb1, timeout=1)] *)
Definition waiting_event_state : Event.t * World :=
  event_step (EWait (VUser 1 false) (Some 1%Z))
    (event_step (EWait (VUser 0 false) None) (Event.__init__, new_world)).

(** ** Queues: accounting and waiters *)

(** What [_put] does to the attributes of a [JoinableQueue]: one more
    unfinished task, and [_finished] is cleared. *)
Definition counted (q q' : Queue.t) : Prop :=
  if is_joinable q
  then Queue.unfinished_tasks q' = (Queue.unfinished_tasks q + 1)%Z /\
       Queue._finished q' = Event.mk (Event.condition (Queue._finished q)) false
  else Queue.unfinished_tasks q' = Queue.unfinished_tasks q /\
       Queue._finished q' = Queue._finished q.

(** What [_put] does to the storage. *)
Definition stored (item : pyval) (q q' : Queue.t) : Prop :=
  match Queue.cls q with
  | Queue.ClsPriorityQueue => Queue.queue q' = heapq.heappush (Queue.queue q) item
  | _ => Queue.queue q' = Queue.queue q ++ [item]
  end.

(** What [_get] does to the storage when it returns [item]. *)
Definition taken (item : pyval) (q q' : Queue.t) : Prop :=
  match Queue.cls q with
  | Queue.ClsPriorityQueue => heapq.heappop (Queue.queue q) = Some (item, Queue.queue q')
  | Queue.ClsLifoQueue =>
      last (Queue.queue q) = Some item /\ Queue.queue q' = removelast (Queue.queue q)
  | _ => Queue.queue q = item :: Queue.queue q'
  end.

(** The attributes of a [JoinableQueue] that [_get] leaves alone. *)
Definition same_tasks (q q' : Queue.t) : Prop :=
  Queue.unfinished_tasks q' = Queue.unfinished_tasks q /\
  Queue._finished q' = Queue._finished q.

(** The waiters parked on [_finished] by [join]. *)
Definition joiners (q : Queue.t) : list nat :=
  Condition.waiters (Event.condition (Queue._finished q)).

(** The getters, the putters and the waiters of [join] are distinct objects
    that exist. *)
Definition queue_waiters_ok (st : Queue.t * World) : Prop :=
  waiters_ok st.2 (Queue.getters st.1) /\
  waiters_ok st.2 (map snd (Queue.putters st.1)) /\
  waiters_ok st.2 (joiners st.1).

(** The accounting of a [JoinableQueue]: the counter is not negative, the
    event [_finished] is set exactly when it is zero, and then nobody waits
    on it. *)
Definition joinable_inv (q : Queue.t) : Prop :=
  (0 <= Queue.unfinished_tasks q)%Z /\
  (Event._flag (Queue._finished q) = true <-> Queue.unfinished_tasks q = 0%Z) /\
  (Event._flag (Queue._finished q) = true -> joiners q = []).

(** [JoinableQueue()] *)
Definition joinable_queue : Queue.t :=
  Queue.mk Queue.ClsJoinableQueue None [] [] [] 0 (Event.mk Condition.__init__ true).

(** [q = JoinableQueue(); q.put(1); q.join(cb)]: the join waits. *)
Definition pending_join_state : Queue.t * World :=
  queue_step (QJoin (VUser 0 false) None)
    (queue_step (QPut (VInt 1) VNone None) (joinable_queue, new_world)).

(** [q = JoinableQueue(); q.put(1)] *)
Definition one_task_state : Queue.t * World :=
  queue_step (QPut (VInt 1) VNone None) (joinable_queue, new_world).

(** The item of the oldest live putter, which [get] admits to the storage. *)
Definition admitted (w : World) (q : Queue.t) : list pyval :=
  match Queue.drop_expired_putters w (Queue.putters q) with
  | (item, _) :: _ => [item]
  | [] => []
  end.

(** [q = PriorityQueue(); q.put(3); q.put(1); q.put(2)] *)
Definition priority_state : Queue.t * World :=
  queue_step (QPut (VInt 2) VNone None)
    (queue_step (QPut (VInt 1) VNone None)
       (queue_step (QPut (VInt 3) VNone None)
          (new_queue Queue.ClsPriorityQueue, new_world))).

(** [_next_tick(callback, True)] after the item has been passed on. *)
Definition acknowledged (callback : pyval) (w : World) : World :=
  if truthy callback
  then set_loop_callbacks (fun l => l ++ [Partial callback [VBool true]]) w
  else w.


(** [q = Queue(maxsize=1); q.put(1)]: a full queue. *)
Definition full_queue_state : Queue.t * World :=
  queue_step (QPut (VInt 1) VNone None)
    (Queue.mk Queue.ClsQueue (Some 1%Z) [] [] [] 0 Event.__init__, new_world).

(** ** Semaphore and Lock *)

(** One step of the history of a semaphore. *)
Definition sem_step (a : sem_action) (st : Semaphore.t * World)
    : Semaphore.t * World :=
  match a with
  | SAcquire callback timeout => after (Semaphore.acquire callback timeout) st
  | SRelease => after Semaphore.release st
  | SWait callback timeout => after (Semaphore.wait callback timeout) st
  | SLoop ev => (st.1, loop_step ev st.2)
  end.

(** The states a semaphore goes through. *)
Inductive sem_reachable : Semaphore.t * World -> Prop :=
| sem_reach_init value w s w' :
    Semaphore.__init__ value w = (Return s, w') ->
    sem_reachable (s, w')
| sem_reach_step a st :
    sem_reachable st -> sem_reachable (sem_step a st).

(** The tokens held by the semaphore. *)
Definition tokens (s : Semaphore.t) : list pyval := Queue.queue (Semaphore.q s).

(** The acquirers that wait. *)
Definition acquirers (s : Semaphore.t) : list nat := Queue.getters (Semaphore.q s).

(** The invariant of a semaphore: its queue is a plain unbounded queue of
    [None] tokens on which nobody waits to put, acquirers wait only while
    there is no token, and the waiters are distinct objects that exist. *)
Definition sem_inv (st : Semaphore.t * World) : Prop :=
  Queue.cls (Semaphore.q st.1) = Queue.ClsQueue /\
  Queue.maxsize (Semaphore.q st.1) = None /\
  Queue.putters (Semaphore.q st.1) = [] /\
  Forall (fun v => v = VNone) (tokens st.1) /\
  (acquirers st.1 <> [] -> tokens st.1 = []) /\
  waiters_ok st.2 (acquirers st.1) /\
  event_inv (Semaphore._unlocked st.1, st.2).

(** The waiters of [wait]. *)
Definition unlock_waiters (s : Semaphore.t) : list nat :=
  Condition.waiters (Event.condition (Semaphore._unlocked s)).

(** A semaphore that holds [n] tokens and on which nobody waits. *)
Definition fresh_semaphore (n : nat) : Semaphore.t :=
  Semaphore.mk
    (Queue.mk Queue.ClsQueue None [] [] (replicate n VNone) 0 Event.__init__)
    (Event.mk (Condition.mk []) (negb (n =? 0))).

(** The value of [counter]. *)
Definition sem_counter (s : Semaphore.t) : Z := Queue.qsize_of (Semaphore.q s).

(** [s = Semaphore(2)] *)
Definition two_tokens_state : Semaphore.t * World := (fresh_semaphore 2, new_world).

(** [s = Semaphore(0)] *)
Definition no_token_state : Semaphore.t * World := (fresh_semaphore 0, new_world).

(** A history of calls and loop events, oldest first. *)
Definition sem_run (actions : list sem_action) (st : Semaphore.t * World)
    : Semaphore.t * World :=
  fold_left (fun st a => sem_step a st) actions st.

(** *** Lock histories *)

Inductive lock_action : Type :=
| LAcquire (callback : pyval) (timeout : option Z)
| LRelease
| LLoop (ev : loop_event).

Definition lock_step (a : lock_action) (st : Lock.t * World) : Lock.t * World :=
  match a with
  | LAcquire callback timeout => after (Lock.acquire callback timeout) st
  | LRelease => after Lock.release st
  | LLoop ev => (st.1, loop_step ev st.2)
  end.

Inductive lock_reachable : Lock.t * World -> Prop :=
| lock_reach_init w l w' :
    Lock.__init__ w = (Return l, w') -> lock_reachable (l, w')
| lock_reach_step a st :
    lock_reachable st -> lock_reachable (lock_step a st).

(** The semaphore action that a lock action is. *)
Definition block_action (a : lock_action) : sem_action :=
  match a with
  | LAcquire callback timeout => SAcquire callback timeout
  | LRelease => SRelease
  | LLoop ev => SLoop ev
  end.

(** [l = Lock(); l.acquire()] *)
Definition held_lock_state : Lock.t * World :=
  lock_step (LAcquire VNone None) (Lock.mk (fresh_semaphore 1), new_world).



(** * Proofs *)

(** Symbolic execution of a method: expose the monad and the operations on
    the world that never touch the receiver. *)
Ltac unfold_M :=
  cbv [mbind M_bind mret M_ret raise self modify world modify_world when assert
       _check_callback _next_tick add_callback add_timeout new_Waiter
       Waiter_run _run_callback on try_except
       Queue._consume_expired_getters Queue._consume_expired_putters
       Queue.on_finished Event.on_condition
       Semaphore.on_q Semaphore.on_unlocked BoundedSemaphore.on_sem] in *.

(** ** Lists *)

Lemma nil_iff_length {A} (l : list A) : l = [] <-> length l = 0.
Proof. by destruct l. Qed.

Lemma removelast_length {A} (l : list A) :
  l <> [] -> S (length (removelast l)) = length l.
Proof.
  intros H. destruct (exists_last H) as (l' & a & ->).
  rewrite removelast_last, length_app. simpl. lia.
Qed.

Lemma drop_expired_length w l : length (drop_expired w l) <= length l.
Proof. induction l as [|x l IH]; simpl; [done|]. case_match; simpl; lia. Qed.

Lemma drop_expired_putters_length w l :
  length (Queue.drop_expired_putters w l) <= length l.
Proof. induction l as [|[i x] l IH]; simpl; [done|]. case_match; simpl; lia. Qed.

(** Pruning leaves nothing exactly when no waiter of the deque is live. *)
Lemma drop_expired_nil w l : drop_expired w l = [] <-> some_live w l = false.
Proof.
  induction l as [|x l IH]; simpl; [done|].
  destruct (expired w x); simpl; [done|]. split; intros; discriminate.
Qed.

Lemma drop_expired_putters_nil w l :
  Queue.drop_expired_putters w l = [] <-> some_live w (map snd l) = false.
Proof.
  induction l as [|[i x] l IH]; simpl; [done|].
  destruct (expired w x); simpl; [done|]. split; intros; discriminate.
Qed.

(** The selection loop of [notify] never needs more iterations than there
    are waiters. *)
Lemma notify_loop_fuel w fuel : forall fuel' n waiters,
  length waiters <= fuel -> length waiters <= fuel' ->
  Condition.notify_loop fuel w n waiters = Condition.notify_loop fuel' w n waiters.
Proof.
  induction fuel as [|fuel IH]; intros fuel' n waiters H H'.
  - destruct waiters; [|simpl in H; lia]. by destruct fuel'.
  - destruct waiters as [|x l]; [by destruct fuel'|].
    destruct fuel' as [|fuel']; [simpl in H'; lia|]. simpl.
    destruct (n =? 0)%Z; [done|].
    pose proof (drop_expired_length w l). simpl in *.
    rewrite (IH fuel'); [done|lia..].
Qed.

(** ** Lengths of heaps *)

Lemma siftdown_loop_length fuel : forall heap startpos pos newitem,
  length (heapq._siftdown_loop fuel heap startpos pos newitem) = length heap.
Proof.
  induction fuel as [|fuel IH]; intros; simpl.
  - by rewrite length_insert.
  - repeat case_match; rewrite ?IH, ?length_insert; done.
Qed.

Lemma heappush_length heap item :
  length (heapq.heappush heap item) = S (length heap).
Proof.
  unfold heapq.heappush, heapq._siftdown.
  rewrite siftdown_loop_length, length_app. simpl. lia.
Qed.

Lemma siftup_loop_length fuel : forall heap endpos pos,
  length (heapq._siftup_loop fuel heap endpos pos).1 = length heap.
Proof.
  induction fuel as [|fuel IH]; intros; simpl; [done|].
  case_match; [|done]. rewrite IH, length_insert. done.
Qed.

Lemma siftup_length heap pos : length (heapq._siftup heap pos) = length heap.
Proof.
  unfold heapq._siftup.
  pose proof (siftup_loop_length (length heap) heap (length heap) pos) as H.
  destruct (heapq._siftup_loop _ _ _ _) as [h p]. simpl in H.
  unfold heapq._siftdown. by rewrite siftdown_loop_length, length_insert.
Qed.

Lemma heappop_length heap : heap <> [] ->
  exists item heap',
    heapq.heappop heap = Some (item, heap') /\ S (length heap') = length heap.
Proof.
  intros H. unfold heapq.heappop.
  destruct (last heap) eqn:Hl; [|by apply last_None in Hl].
  pose proof (removelast_length heap H) as Hlen.
  destruct (removelast heap) as [|x rest] eqn:Hr.
  - by eexists _, _.
  - eexists _, _. split; [done|]. rewrite siftup_length. simpl in *. lia.
Qed.

(** ** [_put] and [_get] of the four classes *)

Lemma put_spec item q w :
  exists q', Queue._put item q w = (Return tt, q', w) /\ same_waiters q q' /\
     length (Queue.queue q') = S (length (Queue.queue q)).
Proof.
  unfold Queue._put. destruct q as [c m g p s u f]; destruct c; simpl.
  all: cbv [mbind M_bind self modify Queue.set_queue]; simpl.
  all: eexists; split; [reflexivity|]; split; [done|]; simpl.
  all: rewrite ?heappush_length, ?length_app; simpl; lia.
Qed.

Lemma get_spec q w : Queue.queue q <> [] ->
  exists item q', Queue._get q w = (Return item, q', w) /\ same_waiters q q' /\
     S (length (Queue.queue q')) = length (Queue.queue q).
Proof.
  intros H. unfold Queue._get. destruct q as [c m g p s u f]; simpl in *.
  destruct c; cbv [mbind M_bind self modify Queue.set_queue]; simpl.
  - destruct s; [done|]. eexists _, _. split; [done|]. by split.
  - destruct (heappop_length s H) as (i & h & -> & Hl).
    eexists _, _. split; [done|]. by split.
  - destruct (last s) eqn:Hl; [|by apply last_None in Hl].
    eexists _, _. split; [done|]. split; [done|]. simpl.
    by apply removelast_length.
  - destruct s; [done|]. eexists _, _. split; [done|]. by split.
Qed.

Lemma get_empty q w :
  Queue.queue q = [] -> Queue._get q w = (Raise IndexError, q, w).
Proof.
  intros H. unfold Queue._get. destruct q as [c m g p s u f]; simpl in *.
  subst s. by destruct c.
Qed.

(** Whatever the state, [_get] returns an item or raises [IndexError]. *)
Lemma get_cases q w :
  (exists item q', Queue._get q w = (Return item, q', w) /\ same_waiters q q' /\
     S (length (Queue.queue q')) = length (Queue.queue q))
  \/ (Queue.queue q = [] /\ Queue._get q w = (Raise IndexError, q, w)).
Proof.
  destruct (decide (Queue.queue q = [])) as [H|H].
  - right. split; [done|]. by apply get_empty.
  - left. by apply get_spec.
Qed.

(** Replace the calls of [_put] and [_get] by what is known of them. *)
Ltac use_specs :=
  repeat match goal with
  | H : Queue._put ?i ?q ?w = _ |- _ =>
      let E := fresh "Eput" in
      destruct (put_spec i q w) as (? & E & ? & ?); rewrite E in H; clear E;
      simplify_eq
  | H : Queue._get ?q ?w = _ |- _ =>
      let E := fresh "Eget" in
      destruct (get_cases q w) as [(? & ? & E & ? & ?)|[? E]];
      rewrite E in H; clear E; simplify_eq
  | |- context [Queue._get ?q ?w] =>
      let E := fresh "Eget" in
      destruct (get_cases q w) as [(? & ? & E & ? & ?)|[? E]];
      rewrite E; clear E; simpl
  | |- context [Queue._put ?i ?q ?w] =>
      let E := fresh "Eput" in
      destruct (put_spec i q w) as (? & E & ? & ?); rewrite E; clear E; simpl
  end.

(** Turn what is known of the attributes into arithmetic on lengths. *)
Ltac finish_inv :=
  unfold queue_inv, same_waiters, Queue.maxsize_is_qsize, Queue.full_of,
    has_room, Queue.qsize_of in *; simpl in *;
  destruct_and?;
  repeat match goal with
  | H : Queue.maxsize ?t = Queue.maxsize _ |- _ => rewrite H in *; clear H
  | H : Queue.getters ?t = _ |- _ => is_var t; rewrite H in *; clear H
  | H : Queue.putters ?t = _ |- _ => is_var t; rewrite H in *; clear H
  | H : Queue.cls ?t = _ |- _ => is_var t; clear H
  end;
  rewrite ?nil_iff_length in *;
  repeat match goal with
  | H : drop_expired ?w ?l = _ |- _ =>
      apply (f_equal length) in H; pose proof (drop_expired_length w l)
  | H : Queue.drop_expired_putters ?w ?l = _ |- _ =>
      apply (f_equal length) in H; pose proof (drop_expired_putters_length w l)
  end;
  repeat match goal with
  | H : bool_decide _ = true |- _ => apply bool_decide_eq_true in H
  | H : bool_decide _ = false |- _ => apply bool_decide_eq_false in H
  | H : _ && _ = true |- _ => apply andb_true_iff in H; destruct H
  | H : negb _ = true |- _ => apply negb_true_iff in H
  | H : negb _ = false |- _ => apply negb_false_iff in H
  end;
  rewrite ?nil_iff_length in *;
  match goal with
  | Hm : forall m, Queue.maxsize ?q = Some m -> _ |- _ =>
      destruct (Queue.maxsize q) as [?m|] eqn:?Hmax;
      [specialize (Hm _ eq_refl)|clear Hm]
  | _ => idtac
  end;
  simpl in *; rewrite ?length_app in *; simpl in *;
  repeat match goal with
  | H : (_ =? _)%Z = true |- _ => apply Z.eqb_eq in H
  | H : (_ =? _)%Z = false |- _ => apply Z.eqb_neq in H
  | H : (_ <? _)%Z = true |- _ => apply Z.ltb_lt in H
  | H : (_ <? _)%Z = false |- _ => apply Z.ltb_ge in H
  end;
  try solve [intuition (simplify_eq; try f_equal; try lia; try done)].

(** ** The queue invariant is kept by every step *)

Lemma put_inv item callback timeout q w :
  queue_inv q -> queue_inv (Queue.put item callback timeout q w).1.2.
Proof.
  intros (Hg & Hp & Hm). unfold Queue.put. unfold_M. simpl.
  repeat case_match; simplify_eq/=.
  all: use_specs; try done; finish_inv.
Qed.

Lemma get_inv callback timeout q w :
  queue_inv q -> queue_inv (Queue.get callback timeout q w).1.2.
Proof.
  intros (Hg & Hp & Hm). unfold Queue.get. unfold_M. simpl.
  repeat case_match; simplify_eq/=.
  all: use_specs; try done; finish_inv.
Qed.

Lemma task_done_inv q w : queue_inv q -> queue_inv (Queue.task_done q w).1.2.
Proof.
  intros H. unfold Queue.task_done. unfold_M. simpl.
  repeat case_match; simplify_eq/=; done.
Qed.

Lemma join_inv callback timeout q w :
  queue_inv q -> queue_inv (Queue.join callback timeout q w).1.2.
Proof.
  intros H. unfold Queue.join. unfold_M. simpl.
  repeat case_match; simplify_eq/=; done.
Qed.

Lemma init_inv c maxsize w q w' :
  Queue.__init__ c maxsize w = (Return q, w') -> queue_inv q.
Proof.
  unfold Queue.__init__, construct. unfold_M. simpl.
  destruct maxsize as [m|]; simpl.
  - destruct (m <? 0)%Z eqn:Hm; simpl; [done|]. apply Z.ltb_ge in Hm.
    destruct c; simpl; repeat case_match; intros; simplify_eq/=.
    all: split_and!; simpl; try done; intros; simplify_eq;
      unfold Queue.qsize_of; simpl; lia.
  - destruct c; simpl; repeat case_match; intros; simplify_eq/=.
    all: split_and!; simpl; try done.
Qed.

Lemma queue_step_inv a st : queue_inv st.1 -> queue_inv (queue_step a st).1.
Proof.
  destruct st as [q w]. destruct a; simpl; intros H.
  - by apply put_inv.
  - by apply get_inv.
  - destruct (is_joinable q); [by apply task_done_inv|done].
  - destruct (is_joinable q); [by apply join_inv|done].
  - done.
Qed.

Lemma queue_reachable_inv st : queue_reachable st -> queue_inv st.1.
Proof.
  induction 1 as [c maxsize w q w' Hinit|a st _ IH].
  - by eapply init_inv.
  - by apply queue_step_inv.
Qed.

Lemma parked_putter_reachable : queue_reachable parked_putter_state.
Proof.
  unfold parked_putter_state. do 2 apply queue_reach_step.
  by apply (queue_reach_init Queue.ClsQueue (Some 1%Z) new_world).
Qed.

(** The assertions of [put] and [get] hold in every reachable state, and
    [_get] is never called on an empty storage. *)
Lemma reachable_assertions_hold st item callback timeout :
  queue_reachable st ->
  result (Queue.put item callback timeout) st <> Raise AssertionError /\
  result (Queue.put item callback timeout) st <> Raise IndexError /\
  result (Queue.get callback timeout) st <> Raise AssertionError /\
  result (Queue.get callback timeout) st <> Raise IndexError.
Proof.
  intros Hreach. pose proof (queue_reachable_inv st Hreach) as Hinv.
  destruct st as [q w]. simpl in *.
  unfold result, Queue.put, Queue.get. unfold_M. simpl. split_and!.
  all: repeat case_match; simplify_eq/=.
  all: use_specs; simplify_eq/=; try done.
  all: finish_inv.
  all: match goal with
       | H : (if (?m =? 0)%Z then true else _) = false |- _ =>
           destruct (Z.eqb_spec m 0); [done|apply Z.eqb_neq in H]
       end; intuition (simplify_eq; lia).
Qed.

(** C1. For a queue of any class and any [maxsize], in every state reached
    by calls of [put] and [get] (and [task_done], [join]), timer expiries
    and loop turns: waiting getters imply an empty storage, waiting putters
    imply a storage of exactly [maxsize] items, and a finite [maxsize] bounds
    [qsize()]. *)
Theorem queue_invariants (st : Queue.t * World) :
  queue_reachable st ->
  (Queue.getters st.1 <> [] -> Queue.queue st.1 = []) /\
  (Queue.putters st.1 <> [] -> Queue.maxsize st.1 = Some (Queue.qsize_of st.1)) /\
  (forall m, Queue.maxsize st.1 = Some m ->
     result Queue.qsize st = Return (Queue.qsize_of st.1) /\
     (Queue.qsize_of st.1 <= m)%Z).
Proof.
  intros H. destruct (queue_reachable_inv st H) as (Hg & Hp & Hm).
  split_and!; [done..|]. intros m Hmax. split; [done|]. by apply Hm.
Qed.

Lemma queue_invariants_witness :
  queue_reachable parked_putter_state /\
  Queue.maxsize parked_putter_state.1 = Some (Queue.qsize_of parked_putter_state.1).
Proof.
  split.
  - exact parked_putter_reachable.
  - apply (queue_invariants parked_putter_state parked_putter_reachable).
    discriminate.
Defined.

(** C3, as the code has it.  In every reachable state of a queue, waiting
    putters and a storage that is not full (its size differs from [maxsize])
    exclude each other, and so do waiting getters and a non-empty storage. *)
Theorem queue_exclusions (st : Queue.t * World) :
  queue_reachable st ->
  ~ (Queue.putters st.1 <> [] /\ Queue.maxsize st.1 <> Some (Queue.qsize_of st.1)) /\
  ~ (Queue.getters st.1 <> [] /\ Queue.queue st.1 <> []).
Proof.
  intros H. destruct (queue_reachable_inv st H) as (Hg & Hp & Hm).
  split; intros [H1 H2]; apply H2; auto.
Qed.

Lemma queue_exclusions_witness :
  queue_reachable parked_putter_state /\
  ~ (Queue.getters parked_putter_state.1 <> [] /\
     Queue.queue parked_putter_state.1 <> []).
Proof.
  split.
  - exact parked_putter_reachable.
  - apply (queue_exclusions parked_putter_state parked_putter_reachable).
Defined.

(** C3, as stated, fails: after [Queue(maxsize=1)], [put(1)], [put(2, cb)]
    the storage holds [1] while the putter of [2] waits. *)
Lemma storage_and_putters_coexist :
  queue_reachable parked_putter_state /\
  Queue.queue parked_putter_state.1 = [VInt 1] /\
  Queue.putters parked_putter_state.1 = [(VInt 2, 0)] /\
  ~ (forall st, queue_reachable st ->
       ~ (Queue.queue st.1 <> [] /\ Queue.putters st.1 <> [])).
Proof.
  split_and!; [exact parked_putter_reachable|done..|].
  intros H. apply (H parked_putter_state parked_putter_reachable).
  split; discriminate.
Qed.

(** ** Flow-control errors *)

Lemma get_raises_Empty q w callback timeout :
  truthy callback = false ->
  result (Queue.get callback timeout) (q, w) = Raise Empty <->
  Queue.queue q = [] /\ some_live w (map snd (Queue.putters q)) = false.
Proof.
  intros Hc. rewrite <- drop_expired_putters_nil.
  unfold result, Queue.get. unfold_M. simpl. rewrite Hc. simpl.
  repeat case_match; simplify_eq/=.
  all: use_specs; simplify_eq/=.
  all: try (split; [done|intros [? ?]; done]).
  all: split; [intros ?; simplify_eq|intros [? ?]]; finish_inv.
Qed.

Lemma put_raises_Full q w item callback timeout :
  queue_inv q ->
  truthy callback = false ->
  result (Queue.put item callback timeout) (q, w) = Raise Full <->
  has_room q = false /\ some_live w (Queue.getters q) = false.
Proof.
  intros Hinv Hc. rewrite <- drop_expired_nil.
  unfold result, Queue.put. unfold_M. simpl. rewrite Hc. simpl.
  repeat case_match; simplify_eq/=.
  all: use_specs; simplify_eq/=.
  all: try (split; [done|intros [? ?]; done]).
  all: split; [intros ?; simplify_eq|intros [? ?]]; finish_inv.
Qed.

Lemma get_callback_never_Empty q w callback timeout :
  truthy callback = true ->
  result (Queue.get callback timeout) (q, w) <> Raise Empty.
Proof.
  intros Hc.
  unfold result, Queue.get. unfold_M. simpl. rewrite Hc. simpl.
  repeat case_match; simplify_eq/=.
  all: use_specs; simplify_eq/=; done.
Qed.

Lemma put_callback_never_Full q w item callback timeout :
  truthy callback = true ->
  result (Queue.put item callback timeout) (q, w) <> Raise Full.
Proof.
  intros Hc.
  unfold result, Queue.put. unfold_M. simpl. rewrite Hc. simpl.
  repeat case_match; simplify_eq/=.
  all: use_specs; simplify_eq/=; try done.
  all: finish_inv.
Qed.

Lemma put_unbounded_never_Full q w item callback timeout :
  Queue.maxsize q = None ->
  result (Queue.put item callback timeout) (q, w) <> Raise Full.
Proof.
  intros Hc.
  unfold result, Queue.put. unfold_M. simpl.
  unfold Queue.maxsize_is_qsize. simpl. rewrite Hc. simpl.
  repeat case_match; simplify_eq/=.
  all: use_specs; simplify_eq/=; try done.
Qed.

Lemma result_get_NotReady r w callback timeout :
  truthy callback = false ->
  result (AsyncResult.get callback timeout) (r, w) = Raise NotReady <->
  AsyncResult._ready r = false.
Proof.
  intros Hc. unfold result, AsyncResult.get. unfold_M. simpl. rewrite Hc. simpl.
  destruct (AsyncResult._ready r); simpl; split; done.
Qed.

Lemma result_get_callback_never_NotReady r w callback timeout :
  truthy callback = true ->
  result (AsyncResult.get callback timeout) (r, w) <> Raise NotReady.
Proof.
  intros Hc. unfold result, AsyncResult.get. unfold_M. simpl. rewrite Hc. simpl.
  repeat case_match; simplify_eq/=; done.
Qed.

(** C4. Without a callback, [Queue.get] raises [Empty] exactly when the
    storage is empty and no live putter waits, [Queue.put] raises [Full]
    exactly when there is no room and no live getter waits, and
    [AsyncResult.get] raises [NotReady] exactly when the result is unset.
    With a callback none of the three is raised.  A queue whose [maxsize] is
    [None] is never full and never raises [Full]. *)
Theorem flow_control_errors (st : Queue.t * World) (r : AsyncResult.t)
    (item callback : pyval) (timeout : option Z) :
  queue_reachable st ->
  (truthy callback = false ->
     (result (Queue.get callback timeout) st = Raise Empty <->
        Queue.queue st.1 = [] /\
        some_live st.2 (map snd (Queue.putters st.1)) = false) /\
     (result (Queue.put item callback timeout) st = Raise Full <->
        has_room st.1 = false /\ some_live st.2 (Queue.getters st.1) = false) /\
     (result (AsyncResult.get callback timeout) (r, st.2) = Raise NotReady <->
        AsyncResult._ready r = false)) /\
  (truthy callback = true ->
     result (Queue.get callback timeout) st <> Raise Empty /\
     result (Queue.put item callback timeout) st <> Raise Full /\
     result (AsyncResult.get callback timeout) (r, st.2) <> Raise NotReady) /\
  (Queue.maxsize st.1 = None ->
     result Queue.full st = Return false /\
     result (Queue.put item callback timeout) st <> Raise Full).
Proof.
  intros Hreach. pose proof (queue_reachable_inv st Hreach) as Hinv.
  destruct st as [q w]. simpl in *. split_and!.
  - intros Hc. split_and!.
    + by apply get_raises_Empty.
    + by apply put_raises_Full.
    + by apply result_get_NotReady.
  - intros Hc. split_and!.
    + by apply get_callback_never_Empty.
    + by apply put_callback_never_Full.
    + by apply result_get_callback_never_NotReady.
  - intros Hmax. split.
    + unfold result, Queue.full, Queue.full_of. unfold_M. simpl. by rewrite Hmax.
    + by apply put_unbounded_never_Full.
Qed.

Lemma flow_control_errors_witness :
  queue_reachable parked_putter_state /\
  result (Queue.put (VInt 3) VNone None) parked_putter_state = Raise Full.
Proof.
  split.
  - exact parked_putter_reachable.
  - apply (flow_control_errors parked_putter_state AsyncResult.__init__
             (VInt 3) VNone None parked_putter_reachable);
      [reflexivity | split; reflexivity].
Defined.

(** ** Scenarios *)

(** C2. [q = Queue(maxsize=1); q.put(1)], then a getter [cb_g] and a blocking
    putter [q.put(2, cb_p)] are registered, in either order.  [cb_g] receives
    [1] at once; [cb_p] receives [True] on the next turn of the loop and not
    before; a second turn adds nothing; a non-blocking [get] then returns
    [2]. *)
Theorem full_queue_alternation (g p : nat) :
  exists q w,
    Queue.__init__ Queue.ClsQueue (Some 1%Z) new_world = (Return q, w) /\
    let cb_g := VUser g false in
    let cb_p := VUser p false in
    let full := after (Queue.put (VInt 1) VNone None) (q, w) in
    (* the putter parks, then the getter arrives *)
    let parked := after (Queue.put (VInt 2) cb_p None) full in
    let st := after (Queue.get cb_g None) parked in
    (Queue.putters parked.1 = [(VInt 2, 0)] /\
     trace parked.2 = [] /\
     trace st.2 = [(g, [VInt 1])] /\
     trace (run_turn st.2) = [(g, [VInt 1]); (p, [VBool true])] /\
     trace (run_turn (run_turn st.2)) = [(g, [VInt 1]); (p, [VBool true])] /\
     result (Queue.get VNone None) (st.1, run_turn (run_turn st.2))
       = Return (VInt 2)) /\
    (* the getter is served, then the putter arrives *)
    let served := after (Queue.get cb_g None) full in
    let st' := after (Queue.put (VInt 2) cb_p None) served in
    (trace served.2 = [(g, [VInt 1])] /\
     trace st'.2 = [(g, [VInt 1])] /\
     trace (run_turn st'.2) = [(g, [VInt 1]); (p, [VBool true])] /\
     trace (run_turn (run_turn st'.2)) = [(g, [VInt 1]); (p, [VBool true])] /\
     result (Queue.get VNone None) (st'.1, run_turn (run_turn st'.2))
       = Return (VInt 2)).
Proof.
  eexists _, _. split; [reflexivity|]. cbv zeta.
  split; split_and!; vm_compute; reflexivity.
Qed.

(** C7. [s = Semaphore(2)]: two non-blocking [acquire()] return [True], a
    third returns [False] (the [Empty] of the queue is caught), and after one
    [release()] a fourth returns [True] and leaves the counter at 0. *)
Theorem semaphore_accounting (w0 : World) :
  exists s w,
    Semaphore.__init__ 2 w0 = (Return s, w) /\
    let acquire := Semaphore.acquire VNone None in
    let st1 := after acquire (s, w) in
    let st2 := after acquire st1 in
    let st3 := after acquire st2 in
    let st4 := after Semaphore.release st3 in
    let st5 := after acquire st4 in
    result Semaphore.counter (s, w) = Return 2%Z /\
    result acquire (s, w) = Return (VBool true) /\
    result acquire st1 = Return (VBool true) /\
    result Semaphore.counter st2 = Return 0%Z /\
    result acquire st2 = Return (VBool false) /\
    result Semaphore.release st3 = Return tt /\
    result acquire st4 = Return (VBool true) /\
    result Semaphore.counter st5 = Return 0%Z /\
    result Semaphore.locked st5 = Return true.
Proof.
  eexists _, _. split; [reflexivity|]. cbv zeta.
  split_and!; reflexivity.
Qed.

(** ** Continuations that are not callable *)

Lemma one_item_reachable : queue_reachable one_item_state.
Proof.
  unfold one_item_state. apply queue_reach_step.
  by apply (queue_reach_init Queue.ClsQueue None new_world).
Qed.

Lemma put_noncallable st item c timeout :
  queue_reachable st -> callable c = false -> truthy c = true ->
  result (Queue.put item c timeout) st = Raise TypeError.
Proof.
  intros Hreach Hc Ht. pose proof (queue_reachable_inv st Hreach) as Hinv.
  destruct st as [q w]. unfold result, Queue.put. unfold_M. simpl in *.
  rewrite Hc, Ht. simpl.
  repeat case_match; simplify_eq/=.
  all: use_specs; simplify_eq/=; try done.
  all: finish_inv.
Qed.

Lemma get_noncallable_parks st c timeout :
  callable c = false -> truthy c = true ->
  Queue.queue st.1 = [] ->
  some_live st.2 (map snd (Queue.putters st.1)) = false ->
  result (Queue.get c timeout) st = Raise TypeError.
Proof.
  intros Hc Ht Hq Hl. destruct st as [q w]. simpl in *.
  apply drop_expired_putters_nil in Hl.
  unfold result, Queue.get. unfold_M. simpl.
  unfold Queue.qsize_of. simpl. by rewrite Hl, Hq, Hc, Ht.
Qed.

Lemma result_get_noncallable st c timeout :
  callable c = false -> truthy c = true ->
  result (AsyncResult.get c timeout) st = Raise TypeError.
Proof.
  intros Hc Ht. destruct st as [r w].
  unfold result, AsyncResult.get. unfold_M. simpl. rewrite Hc, Ht. simpl.
  by destruct (AsyncResult._ready r).
Qed.

Lemma event_wait_noncallable st c timeout :
  callable c = false -> truthy c = true ->
  result (Event.wait c timeout) st = Raise TypeError.
Proof.
  intros Hc Ht. destruct st as [e w].
  unfold result, Event.wait, Condition.wait. unfold_M. simpl.
  rewrite Hc, Ht. simpl. by destruct (Event._flag e).
Qed.

Lemma condition_wait_noncallable st c timeout :
  callable c = false ->
  result (Condition.wait c timeout) st = Raise TypeError.
Proof.
  intros Hc. destruct st as [e w].
  unfold result, Condition.wait. unfold_M. simpl. by rewrite Hc.
Qed.

Lemma acquire_noncallable st c timeout :
  callable c = false -> truthy c = true ->
  result (Semaphore.acquire c timeout) st = Raise TypeError.
Proof.
  intros Hc Ht. destruct st as [s w].
  unfold result, Semaphore.acquire. unfold_M. simpl. by rewrite Hc, Ht.
Qed.

Lemma join_noncallable st c timeout :
  callable c = false -> truthy c = true ->
  result (Queue.join c timeout) st = Raise TypeError.
Proof.
  intros Hc Ht. destruct st as [q w].
  unfold result, Queue.join, Event.wait, Condition.wait. unfold_M. simpl.
  repeat (case_match; simplify_eq/=); congruence.
Qed.

(** C9, as the code has it.  A continuation that is true but not callable
    raises [TypeError] within the call that receives it wherever the
    continuation is registered for later: in [Queue.put], in [Queue.get] when
    the getter has to wait, in [AsyncResult.get], [Event.wait],
    [Condition.wait], [Semaphore.acquire] and [JoinableQueue.join]. *)
Theorem noncallable_continuation_raises (c : pyval) (timeout : option Z) :
  callable c = false ->
  truthy c = true ->
  (forall st item, queue_reachable st ->
     result (Queue.put item c timeout) st = Raise TypeError) /\
  (forall st, Queue.queue st.1 = [] ->
     some_live st.2 (map snd (Queue.putters st.1)) = false ->
     result (Queue.get c timeout) st = Raise TypeError) /\
  (forall st, result (AsyncResult.get c timeout) st = Raise TypeError) /\
  (forall st, result (Event.wait c timeout) st = Raise TypeError) /\
  (forall st, result (Condition.wait c timeout) st = Raise TypeError) /\
  (forall st, result (Semaphore.acquire c timeout) st = Raise TypeError) /\
  (forall st, result (Queue.join c timeout) st = Raise TypeError).
Proof.
  intros Hc Ht. split_and!; intros.
  - by apply put_noncallable.
  - by apply get_noncallable_parks.
  - by apply result_get_noncallable.
  - by apply event_wait_noncallable.
  - by apply condition_wait_noncallable.
  - by apply acquire_noncallable.
  - by apply join_noncallable.
Qed.

Lemma noncallable_continuation_raises_witness :
  callable (VInt 5) = false /\ truthy (VInt 5) = true /\
  result (Queue.put (VInt 2) (VInt 5) None) one_item_state = Raise TypeError.
Proof.
  split; [reflexivity|]. split; [reflexivity|].
  apply (noncallable_continuation_raises (VInt 5) None); [reflexivity..|].
  exact one_item_reachable.
Defined.

(** C9, as stated, fails: [q = Queue(); q.put(1); q.get(5)] returns normally.
    The item is taken from the storage, the [TypeError] of calling [5] is
    caught by [_run_callback] and logged. *)
Lemma get_swallows_TypeError :
  queue_reachable one_item_state /\
  callable (VInt 5) = false /\
  Queue.queue one_item_state.1 = [VInt 1] /\
  result (Queue.get (VInt 5) None) one_item_state = Return VNone /\
  Queue.queue (after (Queue.get (VInt 5) None) one_item_state).1 = [] /\
  error_log (after (Queue.get (VInt 5) None) one_item_state).2 = [VInt 5].
Proof.
  split; [exact one_item_reachable|]. by split_and!.
Qed.

(** ** What running callbacks does to the world *)

Lemma call_waiter_callback f : forall args w,
  waiter_callback (call f args w).2 = waiter_callback w.
Proof.
  induction f; intros args w; simpl; try done.
  - by destruct raises.
  - by destruct args as [|? [|? ?]].
  - destruct args as [|? [|? ?]]; simpl; auto.
Qed.

Lemma call_trace f : forall args w,
  trace (call f args w).2 = trace w ++ calls_of f args.
Proof.
  induction f; intros args w; simpl; rewrite ?app_nil_r; try done.
  - by destruct raises.
  - by destruct args as [|? [|? ?]]; simpl; rewrite ?app_nil_r.
  - destruct args as [|? [|? ?]]; simpl; rewrite ?app_nil_r; auto.
Qed.

Lemma run_callback_waiter_callback f args w :
  waiter_callback (run_callback f args w) = waiter_callback w.
Proof.
  unfold run_callback. pose proof (call_waiter_callback f args w) as H.
  destruct (call f args w) as [[?|?] w']; simpl in *; done.
Qed.

Lemma run_callback_trace f args w :
  trace (run_callback f args w) = trace w ++ calls_of f args.
Proof.
  unfold run_callback. pose proof (call_trace f args w) as H.
  destruct (call f args w) as [[?|?] w']; simpl in *; done.
Qed.

Lemma waiter_run_waiter_callback x args w :
  waiter_callback (waiter_run x args w) =
  if truthy (waiter_callback w !!! x) then <[x := VNone]> (waiter_callback w)
  else waiter_callback w.
Proof.
  unfold waiter_run. case_match; [|done].
  by rewrite run_callback_waiter_callback.
Qed.

Lemma waiter_run_trace x args w :
  trace (waiter_run x args w) =
  trace w ++ (if truthy (waiter_callback w !!! x)
              then calls_of (waiter_callback w !!! x) args else []).
Proof.
  unfold waiter_run. case_match; [|by rewrite app_nil_r].
  by rewrite run_callback_trace.
Qed.

Lemma waiter_run_lookup_ne x y args w :
  x <> y ->
  waiter_callback (waiter_run x args w) !!! y = waiter_callback w !!! y.
Proof.
  intros H. rewrite waiter_run_waiter_callback. case_match; [|done].
  by rewrite list_lookup_total_insert_ne.
Qed.

Lemma waiter_run_length x args w :
  length (waiter_callback (waiter_run x args w)) = length (waiter_callback w).
Proof.
  rewrite waiter_run_waiter_callback. case_match; [|done].
  by rewrite length_insert.
Qed.

(** A waiter that has run is expired, and stays so. *)
Lemma waiter_run_expired x args w : expired (waiter_run x args w) x = true.
Proof.
  unfold expired. rewrite waiter_run_waiter_callback.
  destruct (truthy (waiter_callback w !!! x)) eqn:H.
  - destruct (decide (x < length (waiter_callback w))).
    + by rewrite list_lookup_total_insert_eq.
    + rewrite list_insert_ge by lia. rewrite list_lookup_total_alt.
      rewrite lookup_ge_None_2 by lia. done.
  - by rewrite H.
Qed.

Lemma waiter_run_expired_mono x y args w :
  expired w y = true -> expired (waiter_run x args w) y = true.
Proof.
  intros H. destruct (decide (x = y)) as [->|Hne].
  - apply waiter_run_expired.
  - unfold expired in *. by rewrite waiter_run_lookup_ne.
Qed.

Lemma pending_waiter_run x args w ws :
  x ∉ ws -> pending (waiter_run x args w) ws = pending w ws.
Proof.
  intros H. unfold pending. f_equal. apply map_ext_in. intros y Hy.
  apply waiter_run_lookup_ne. intros ->. apply H. by apply list_elem_of_In.
Qed.

Lemma run_all_trace args ws : forall w,
  NoDup ws ->
  trace (AsyncResult.run_all ws args w) =
  trace w ++ flat_map (fun f => calls_of f args) (pending w ws).
Proof.
  induction ws as [|x ws IH]; intros w Hnd; simpl.
  - by rewrite app_nil_r.
  - apply NoDup_cons in Hnd as [Hx Hnd]. unfold AsyncResult.run_all in *. simpl.
    rewrite IH by done. rewrite pending_waiter_run by done.
    rewrite waiter_run_trace. unfold pending at 2. simpl.
    rewrite filter_cons. case_decide as Ht.
    + rewrite Ht. simpl. by rewrite app_assoc.
    + apply not_true_is_false in Ht. rewrite Ht. by rewrite app_nil_r.
Qed.

Lemma run_thunk_length t w :
  length (waiter_callback (run_thunk t w)) = length (waiter_callback w).
Proof.
  destruct t; simpl.
  - by rewrite run_callback_waiter_callback.
  - apply waiter_run_length.
Qed.

Lemma fold_run_thunk_length ts : forall w,
  length (waiter_callback (fold_left (fun w t => run_thunk t w) ts w))
  = length (waiter_callback w).
Proof.
  induction ts as [|t ts IH]; intros w; simpl; [done|].
  by rewrite IH, run_thunk_length.
Qed.

Lemma loop_step_length ev w :
  length (waiter_callback (loop_step ev w)) = length (waiter_callback w).
Proof.
  destruct ev as [i|]; simpl.
  - unfold fire_timeout. case_match; [|done]. by rewrite run_thunk_length.
  - unfold run_turn. by rewrite fold_run_thunk_length.
Qed.

(** A continuation scheduled now runs on the next turn, after those that
    were scheduled before it. *)
Lemma run_turn_scheduled t w :
  run_turn (set_loop_callbacks (fun l => l ++ [t]) w) = run_thunk t (run_turn w).
Proof. unfold run_turn. simpl. by rewrite fold_left_app. Qed.

(** ** AsyncResult *)

Lemma result_step_inv a st : result_inv st -> result_inv (result_step a st).
Proof.
  destruct st as [r w]. intros (Hnd & Hlt & Hr). destruct a; simpl in *.
  - unfold after, result_inv, AsyncResult.get. unfold_M. simpl.
    repeat case_match; simplify_eq/=; try done.
    all: split_and?; try done.
    all: try (intros ?; solve [auto | congruence]).
    all: rewrite ?length_app; simpl.
    all: try (apply NoDup_app; split_and!; [done| |apply NoDup_singleton];
              intros x Hx ->%list_elem_of_singleton;
              rewrite Forall_forall in Hlt; apply Hlt in Hx; lia).
    all: apply Forall_app; split;
      [eapply Forall_impl; [done|]; simpl; intros; lia
      |apply Forall_singleton; lia].
  - unfold after, result_inv, AsyncResult.set. unfold_M. simpl.
    repeat case_match; simplify_eq/=; split_and?; try done.
    all: try (intros ?; solve [auto | congruence]).
    all: solve [apply NoDup_nil_2 | apply Forall_nil_2].
  - unfold result_inv. simpl. rewrite loop_step_length. done.
Qed.

Lemma result_reachable_inv st : result_reachable st -> result_inv st.
Proof.
  induction 1 as [w|a st _ IH].
  - split_and!; simpl; [apply NoDup_nil_2|apply Forall_nil_2|done].
  - by apply result_step_inv.
Qed.

Lemma timed_out_reachable : result_reachable timed_out_state.
Proof. unfold timed_out_state. do 2 apply result_reach_step. constructor. Qed.

(** C5, as the code has it.  [set(v)] on a ready result raises [AlreadySet]
    and changes nothing.  Otherwise it stores [v], marks the result ready,
    empties the waiter list and runs the waiters in registration order: the
    callbacks that have not run yet receive [v], in that order, and none is
    pending afterwards.  Once the result is ready it stays ready with the
    same value; [get()] returns the value, and [get(cb)] has [cb(value)] run
    on the next turn. *)
Theorem async_result_set (st : AsyncResult.t * World) (v : pyval) :
  result_reachable st ->
  (AsyncResult._ready st.1 = true ->
     result (AsyncResult.set v) st = Raise AlreadySet /\
     after (AsyncResult.set v) st = st /\
     (forall a,
        AsyncResult._ready (result_step a st).1 = true /\
        AsyncResult.value (result_step a st).1 = AsyncResult.value st.1) /\
     (forall timeout,
        result (AsyncResult.get VNone timeout) st = Return (AsyncResult.value st.1)) /\
     (forall cb timeout, callable cb = true -> truthy cb = true ->
        let st' := after (AsyncResult.get cb timeout) st in
        result (AsyncResult.get cb timeout) st = Return VNone /\
        trace st'.2 = trace st.2 /\
        trace (run_turn st'.2)
          = trace (run_turn st.2) ++ calls_of cb [AsyncResult.value st.1])) /\
  (AsyncResult._ready st.1 = false ->
     let st' := after (AsyncResult.set v) st in
     result (AsyncResult.set v) st = Return tt /\
     st'.1 = AsyncResult.mk true v [] /\
     trace st'.2
       = trace st.2
         ++ flat_map (fun f => calls_of f [v])
              (pending st.2 (AsyncResult.waiters st.1)) /\
     pending st'.2 (AsyncResult.waiters st.1) = []).
Proof.
  intros Hreach. destruct (result_reachable_inv st Hreach) as (Hnd & Hlt & Hr).
  destruct st as [r w]. simpl in *. split; intros Hready.
  - split_and!.
    + unfold result, AsyncResult.set. unfold_M. simpl. by rewrite Hready.
    + unfold after, AsyncResult.set. unfold_M. simpl. by rewrite Hready.
    + intros [cb t|v'|ev]; simpl; [| |done].
      * unfold after, AsyncResult.get. unfold_M. simpl. rewrite Hready.
        repeat case_match; simplify_eq/=; done.
      * unfold after, AsyncResult.set. unfold_M. simpl. by rewrite Hready.
    + intros t. unfold result, AsyncResult.get. unfold_M. simpl. by rewrite Hready.
    + intros cb t Hc Ht. unfold result, after, AsyncResult.get. unfold_M. simpl.
      rewrite Hready, Hc, Ht. simpl. split_and!; [done..|].
      rewrite run_turn_scheduled. simpl. apply run_callback_trace.
  - unfold result, after, AsyncResult.set. unfold_M. simpl. rewrite Hready. simpl.
    split_and!; [done..| |].
    + by apply run_all_trace.
    + clear Hlt Hr Hreach. revert w. induction (AsyncResult.waiters r) as [|x ws IH];
        intros w; [done|].
      apply NoDup_cons in Hnd as [Hx Hnd]. unfold AsyncResult.run_all. simpl.
      fold (AsyncResult.run_all ws [v] (waiter_run x [v] w)).
      unfold pending. simpl. rewrite filter_cons. case_decide as Ht.
      * exfalso. revert Ht. apply not_true_iff_false.
        assert (expired (AsyncResult.run_all ws [v] (waiter_run x [v] w)) x = true)
          as He; [|unfold expired in He; by apply negb_true_iff in He].
        generalize (waiter_run_expired x [v] w).
        generalize (waiter_run x [v] w). clear.
        induction ws as [|y ws IH]; intros w He; [done|].
        unfold AsyncResult.run_all. simpl. apply IH.
        by apply waiter_run_expired_mono.
      * by apply IH.
Qed.

Lemma async_result_set_witness :
  result_reachable timed_out_state /\
  AsyncResult._ready timed_out_state.1 = false /\
  result (AsyncResult.set (VInt 42)) timed_out_state = Return tt.
Proof.
  split; [exact timed_out_reachable|]. split; [reflexivity|].
  apply (async_result_set timed_out_state (VInt 42) timed_out_reachable).
  reflexivity.
Defined.

(** C5, as stated, fails: after [r.get(cb, timeout=1)] the timer fires and
    [cb] receives [None]; [r.set(42)] then succeeds, and [cb], registered
    before [set], is never called with [42]. *)
Lemma timed_out_waiter_misses_value :
  result_reachable timed_out_state /\
  AsyncResult.waiters timed_out_state.1 = [0] /\
  trace timed_out_state.2 = [(0, [VNone])] /\
  result (AsyncResult.set (VInt 42)) timed_out_state = Return tt /\
  let st := after (AsyncResult.set (VInt 42)) timed_out_state in
  trace st.2 = [(0, [VNone])] /\
  trace (run_turn st.2) = [(0, [VNone])].
Proof.
  split; [exact timed_out_reachable|]. by split_and!.
Qed.

(** ** What [put] and [get] leave unchanged, and how the storage grows *)

Lemma put_frame item callback timeout q w :
  Queue.cls (Queue.put item callback timeout q w).1.2 = Queue.cls q /\
  Queue.maxsize (Queue.put item callback timeout q w).1.2 = Queue.maxsize q /\
  length (Queue.queue (Queue.put item callback timeout q w).1.2)
    <= S (length (Queue.queue q)).
Proof.
  unfold Queue.put. unfold_M. simpl.
  repeat case_match; simplify_eq/=.
  all: use_specs; unfold same_waiters in *; simpl in *; destruct_and?.
  all: split_and!; try done; try congruence; try lia.
  all: repeat match goal with
       | H : bool_decide _ = true |- _ => apply bool_decide_eq_true in H
       | H : Queue.queue _ = [] |- _ => apply nil_iff_length in H
       end; lia.
Qed.

Lemma get_frame callback timeout q w :
  Queue.cls (Queue.get callback timeout q w).1.2 = Queue.cls q /\
  Queue.maxsize (Queue.get callback timeout q w).1.2 = Queue.maxsize q /\
  length (Queue.queue (Queue.get callback timeout q w).1.2)
    <= length (Queue.queue q).
Proof.
  unfold Queue.get. unfold_M. simpl.
  repeat case_match; simplify_eq/=.
  all: use_specs; unfold same_waiters in *; simpl in *; destruct_and?.
  all: split_and!; try done; try congruence; try lia.
  all: repeat match goal with
       | H : Queue.queue _ = [] |- _ => apply nil_iff_length in H
       end; lia.
Qed.


(** [Event.set] raises the flag and runs the waiters it picks. *)
Lemma event_set_spec e w :
  exists picked left,
    Event.set e w
    = (Return tt, Event.mk (Condition.mk left) true,
       AsyncResult.run_all picked [] w).
Proof.
  unfold Event.set, Condition.notify_all, Condition.notify,
    Condition._consume_timed_out_waiters. unfold_M. simpl.
  destruct (Condition.notify_loop _ _ _ _) as [picked left]. simpl.
  by eexists _, _.
Qed.


Lemma run_all_expired_mono args ws y : forall w,
  expired w y = true -> expired (AsyncResult.run_all ws args w) y = true.
Proof.
  induction ws as [|x ws IH]; intros w H; [done|].
  unfold AsyncResult.run_all in *. simpl. apply IH.
  by apply waiter_run_expired_mono.
Qed.


(** ** Semaphores *)



(** An unbounded queue that keeps its invariant accepts every non-blocking
    [put]. *)
Lemma put_unbounded_returns item q w :
  queue_inv q -> Queue.maxsize q = None ->
  (Queue.put item VNone None q w).1.1 = Return tt.
Proof.
  intros Hinv Hmax. unfold Queue.put. unfold_M. simpl.
  unfold Queue.maxsize_is_qsize. simpl. rewrite Hmax. simpl.
  repeat case_match; simplify_eq/=.
  all: use_specs; simplify_eq/=; try done.
  all: finish_inv.
Qed.

(** Use what is known of [put] and [get] as a whole. *)
Ltac use_put_get Hinv :=
  repeat match goal with
  | H : Queue.get ?c ?t ?q ?w = _ |- _ =>
      pose proof (get_inv c t q w Hinv); pose proof (get_frame c t q w);
      rewrite H in *; clear H
  | H : Queue.put ?i ?c ?t ?q ?w = _ |- _ =>
      pose proof (put_inv i c t q w Hinv); pose proof (put_frame i c t q w);
      rewrite H in *; clear H
  end.

Lemma for_range_put n : forall s w k,
  queue_inv (Semaphore.q s) -> Queue.maxsize (Semaphore.q s) = None ->
  length (Queue.queue (Semaphore.q s)) <= k ->
  let s' := (for_range n (Semaphore.on_q (Queue.put VNone VNone None)) s w).1.2 in
  queue_inv (Semaphore.q s') /\ Queue.maxsize (Semaphore.q s') = None /\
  length (Queue.queue (Semaphore.q s')) <= k + n.
Proof.
  induction n as [|n IH]; intros s w k Hinv Hmax Hlen; simpl.
  - split_and!; [done..|lia].
  - unfold_M. simpl.
    destruct (Queue.put VNone VNone None (Semaphore.q s) w) as [[o q'] w'] eqn:Hput.
    use_put_get Hinv. simpl in *. destruct_and?.
    destruct o; simpl.
    + destruct (IH (Semaphore.mk q' (Semaphore._unlocked s)) w' (S k))
        as (? & ? & ?); simpl; [done|congruence|lia|].
      split_and!; [done..|lia].
    + split_and!; [done|congruence|lia].
Qed.

Lemma bsem_init_inv value w b w' :
  BoundedSemaphore.__init__ value w = (Return b, w') -> bsem_inv b.
Proof.
  unfold BoundedSemaphore.__init__, Semaphore.__init__.
  destruct (value <? 0)%Z eqn:Hv; [done|]. apply Z.ltb_ge in Hv.
  simpl. unfold construct.
  set (s0 := Semaphore.mk _ _).
  unfold mbind at 1. unfold M_bind at 1.
  destruct (for_range_put (Z.to_nat value) s0 w 0) as (Hinv & Hmax & Hlen);
    [by split_and!|done|done|].
  destruct (for_range _ _ s0 w) as [[o s1] w1]. simpl in *.
  destruct o; [|intros; simplify_eq].
  unfold when. destruct (negb _); simpl.
  - destruct (event_set_spec (Semaphore._unlocked s1) w1) as (? & ? & Hset).
    unfold_M. rewrite Hset. simpl. intros; simplify_eq.
    split_and!; [done..|]. unfold counter_of, Queue.qsize_of. simpl. lia.
  - unfold_M. intros; simplify_eq.
    split_and!; [done..|]. unfold counter_of, Queue.qsize_of. simpl. lia.
Qed.

Lemma bsem_step_inv a st : bsem_inv st.1 -> bsem_inv (bsem_step a st).1.
Proof.
  destruct st as [[[q e] v] w]. intros (Hinv & Hmax & Hc).
  unfold bsem_inv, counter_of, Queue.qsize_of in *. simpl in *.
  destruct a as [cb t| |cb t|ev]; simpl.
  - unfold after, BoundedSemaphore.acquire, Semaphore.acquire. unfold_M. simpl.
    repeat case_match; simplify_eq/=; try done.
    all: use_put_get Hinv; simpl in *; destruct_and?.
    all: split_and!; [done|congruence|lia].
  - unfold after, BoundedSemaphore.release, BoundedSemaphore.counter,
      Semaphore.counter, Semaphore.release, Queue.qsize, Queue.qsize_of.
    unfold_M. simpl.
    destruct (v <=? _)%Z eqn:Hv; simpl; [done|]. apply Z.leb_gt in Hv.
    destruct (Queue.put VNone VNone None q w) as [[o q'] w'] eqn:Hput.
    use_put_get Hinv. simpl in *. destruct_and?.
    destruct o; simpl; [|split_and!; [done|congruence|lia]].
    destruct (event_set_spec e w') as (? & ? & ->). simpl.
    split_and!; [done|congruence|lia].
  - unfold after, BoundedSemaphore.wait, Semaphore.wait. unfold_M. simpl.
    by destruct (Event.wait cb t e w) as [[? ?] ?].
  - done.
Qed.

Lemma bsem_reachable_inv st : bsem_reachable st -> bsem_inv st.1.
Proof.
  induction 1 as [value w b w' Hinit|a st _ IH].
  - by eapply bsem_init_inv.
  - by apply bsem_step_inv.
Qed.

Lemma acquired_bsem_reachable : bsem_reachable acquired_bsem_state.
Proof.
  unfold acquired_bsem_state. apply bsem_reach_step.
  by apply (bsem_reach_init 1 new_world).
Qed.

(** C8. In every reachable state of a bounded semaphore the counter is at
    most the initial value.  [release()] raises [ValueError] and changes
    nothing whenever the counter is at least the initial value, and returns
    otherwise.  [BoundedSemaphore(1).release()] raises [ValueError]. *)
Theorem bounded_semaphore_release (st : BoundedSemaphore.t * World) :
  bsem_reachable st ->
  result BoundedSemaphore.counter st = Return (counter_of st.1) /\
  (counter_of st.1 <= BoundedSemaphore._initial_value st.1)%Z /\
  ((BoundedSemaphore._initial_value st.1 <= counter_of st.1)%Z ->
     result BoundedSemaphore.release st = Raise ValueError /\
     after BoundedSemaphore.release st = st) /\
  ((counter_of st.1 < BoundedSemaphore._initial_value st.1)%Z ->
     result BoundedSemaphore.release st = Return tt) /\
  (forall w, exists b w',
     BoundedSemaphore.__init__ 1 w = (Return b, w') /\
     result BoundedSemaphore.release (b, w') = Raise ValueError /\
     after BoundedSemaphore.release (b, w') = (b, w')).
Proof.
  intros Hreach. destruct (bsem_reachable_inv st Hreach) as (Hinv & Hmax & Hc).
  destruct st as [[[q e] v] w].
  unfold counter_of, Queue.qsize_of in *. simpl in *. split_and!.
  - done.
  - done.
  - intros Hv. apply Z.leb_le in Hv.
    unfold result, after, BoundedSemaphore.release, BoundedSemaphore.counter,
      Semaphore.counter, Queue.qsize, Queue.qsize_of.
    unfold_M. simpl. by rewrite Hv.
  - intros Hv. apply Z.leb_gt in Hv.
    unfold result, BoundedSemaphore.release, BoundedSemaphore.counter,
      Semaphore.counter, Semaphore.release, Queue.qsize, Queue.qsize_of.
    unfold_M. simpl. rewrite Hv. simpl.
    pose proof (put_unbounded_returns VNone q w Hinv Hmax) as Hput.
    destruct (Queue.put VNone VNone None q w) as [[o q'] w']. simpl in *.
    subst o. destruct (event_set_spec e w') as (? & ? & ->). done.
  - intros w0. by eexists _, _.
Qed.

Lemma bounded_semaphore_release_witness :
  bsem_reachable acquired_bsem_state /\
  (counter_of acquired_bsem_state.1
   <= BoundedSemaphore._initial_value acquired_bsem_state.1)%Z.
Proof.
  split; [exact acquired_bsem_reachable|].
  apply (bounded_semaphore_release acquired_bsem_state acquired_bsem_reachable).
Defined.

(** * The heap of [PriorityQueue] *)

(** ** The order of values *)

Lemma py_lt_spec a b :
  py_lt a b = true <->
  (py_class a < py_class b \/ py_class a = py_class b /\ py_num a < py_num b)%Z.
Proof.
  unfold py_lt. rewrite orb_true_iff, andb_true_iff, !Z.ltb_lt, Z.eqb_eq. done.
Qed.

Lemma py_le_spec a b :
  py_le a b <->
  (py_class a < py_class b \/ py_class a = py_class b /\ py_num a <= py_num b)%Z.
Proof.
  unfold py_le. rewrite <- not_true_iff_false, py_lt_spec. lia.
Qed.

Lemma py_le_refl a : py_le a a.
Proof. apply py_le_spec. lia. Qed.

Lemma py_le_trans a b c : py_le a b -> py_le b c -> py_le a c.
Proof. rewrite !py_le_spec. lia. Qed.

Lemma py_lt_le a b : py_lt a b = true -> py_le a b.
Proof. rewrite py_lt_spec, py_le_spec. lia. Qed.

Lemma py_le_total a b : py_le a b \/ py_le b a.
Proof. rewrite !py_le_spec. lia. Qed.

(** ** Positions in the array *)

Lemma parent_pos_div k : heapq.parent_pos k = (k - 1) / 2.
Proof. unfold heapq.parent_pos. by rewrite Nat.shiftr_div_pow2. Qed.

Lemma parent_pos_child k :
  0 < k -> k = 2 * heapq.parent_pos k + 1 \/ k = 2 * heapq.parent_pos k + 2.
Proof. rewrite parent_pos_div. intros. 
  pose proof (Nat.div_mod_eq (k - 1) 2). pose proof (Nat.mod_upper_bound (k - 1) 2). lia. Qed.

Lemma parent_pos_left p : heapq.parent_pos (2 * p + 1) = p.
Proof. rewrite parent_pos_div. replace (2 * p + 1 - 1) with (p * 2) by lia. by rewrite Nat.div_mul. Qed.

Lemma parent_pos_right p : heapq.parent_pos (2 * p + 2) = p.
Proof. rewrite parent_pos_div. replace (2 * p + 2 - 1) with (1 + p * 2) by lia.
  rewrite Nat.div_add by lia. done. Qed.

Lemma parent_pos_lt k : 0 < k -> heapq.parent_pos k < k.
Proof. intros H. destruct (parent_pos_child k H); lia. Qed.

(** ** Writing into an array *)

Lemma insert_Permutation (l : list pyval) i y :
  i < length l -> (l !!! i) :: <[i := y]> l ≡ₚ y :: l.
Proof.
  revert i. induction l as [|x l IH]; intros [|i] H; simpl in *; try lia.
  - apply perm_swap.
  - rewrite (perm_swap x). rewrite IH by lia. apply perm_swap.
Qed.

(** ** [_siftdown] *)

Lemma siftdown_loop_Permutation fuel : forall heap startpos pos newitem,
  pos < length heap ->
  (heap !!! pos) :: heapq._siftdown_loop fuel heap startpos pos newitem
  ≡ₚ newitem :: heap.
Proof.
  induction fuel as [|fuel IH]; intros heap startpos pos newitem Hpos; simpl.
  - by apply insert_Permutation.
  - case_bool_decide as Hlt; [|by apply insert_Permutation].
    destruct (py_lt newitem _) eqn:Hcmp; [|by apply insert_Permutation].
    set (p := heapq.parent_pos pos). set (parent := heap !!! p).
    assert (p < pos) by (apply parent_pos_lt; lia).
    pose proof (IH (<[pos := parent]> heap) startpos p newitem) as Hrec.
    rewrite length_insert, list_lookup_total_insert_ne in Hrec by lia.
    specialize (Hrec ltac:(lia)). fold parent in Hrec.
    apply (Permutation_cons_inv (a := parent)).
    rewrite perm_swap, Hrec, perm_swap.
    rewrite (insert_Permutation heap pos parent) by done. apply perm_swap.
Qed.

Lemma siftdown_Permutation heap startpos pos :
  pos < length heap -> heapq._siftdown heap startpos pos ≡ₚ heap.
Proof.
  intros H. apply (Permutation_cons_inv (a := heap !!! pos)).
  by apply siftdown_loop_Permutation.
Qed.

Lemma heap_except_root h : heap_except h 0 -> is_heap h.
Proof. intros [H _] k Hk. apply H; lia. Qed.

Lemma heap_except_ordered h pos :
  heap_except h pos -> py_le (h !!! heapq.parent_pos pos) (h !!! pos) -> is_heap h.
Proof.
  intros [H _] Hle k Hk. destruct (decide (k = pos)) as [->|]; [done|]. by apply H.
Qed.

Ltac lookup_insert :=
  repeat first
    [ rewrite list_lookup_total_insert_eq by (rewrite ?length_insert; lia)
    | rewrite list_lookup_total_insert_ne by lia ].

Lemma siftdown_loop_is_heap fuel : forall heap pos newitem,
  pos <= fuel -> pos < length heap ->
  heap_except (<[pos := newitem]> heap) pos ->
  is_heap (heapq._siftdown_loop fuel heap 0 pos newitem).
Proof.
  induction fuel as [|fuel IH]; intros heap pos newitem Hfuel Hpos Hexc; simpl.
  - replace pos with 0 in * by lia. by apply heap_except_root.
  - case_bool_decide as Hlt;
      [|replace pos with 0 in * by lia; by apply heap_except_root].
    set (p := heapq.parent_pos pos). set (parent := heap !!! p).
    assert (p < pos) as Hp by (apply parent_pos_lt; lia).
    destruct (py_lt newitem parent) eqn:Hcmp.
    + apply IH; [lia|rewrite length_insert; lia|].
      destruct Hexc as [Hord Hgrand]. rewrite length_insert in *.
      split.
      * intros k Hk Hne. rewrite !length_insert in Hk.
        destruct (decide (k = pos)) as [->|Hkpos].
        { fold p. lookup_insert. by apply py_lt_le. }
        destruct (decide (heapq.parent_pos k = pos)) as [Hpar|Hpar].
        { rewrite Hpar. lookup_insert.
          specialize (Hgrand k Hk Hpar ltac:(lia)). fold p in Hgrand.
          revert Hgrand. by lookup_insert. }
        destruct (decide (heapq.parent_pos k = p)) as [Hpar'|Hpar'].
        { rewrite Hpar'. lookup_insert.
          specialize (Hord k Hk Hkpos). rewrite Hpar' in Hord. revert Hord.
          lookup_insert. fold parent. intros Hord.
          eapply py_le_trans; [by apply py_lt_le|done]. }
        specialize (Hord k Hk Hkpos). revert Hord. by lookup_insert.
      * intros k Hk Hpar Hp0. rewrite !length_insert in Hk.
        assert (heapq.parent_pos p < p) by (by apply parent_pos_lt).
        assert (py_le (heap !!! heapq.parent_pos p) parent) as Hpp.
        { specialize (Hord p ltac:(lia) ltac:(lia)). revert Hord.
          by lookup_insert. }
        assert (k <> p) by (pose proof (parent_pos_lt k); lia).
        destruct (decide (k = pos)) as [->|Hkpos]; lookup_insert; [done|].
        specialize (Hord k Hk Hkpos). rewrite Hpar in Hord. revert Hord.
        lookup_insert. fold parent. intros Hord.
        by eapply py_le_trans.
    + apply heap_except_ordered with pos; [done|]. fold p. lookup_insert.
      done.
Qed.

(** ** [heappush] *)

Lemma heappush_Permutation heap item : heapq.heappush heap item ≡ₚ item :: heap.
Proof.
  unfold heapq.heappush. rewrite siftdown_Permutation.
  - by rewrite Permutation_app_comm.
  - rewrite length_app. simpl. lia.
Qed.

Lemma heappush_is_heap heap item :
  is_heap heap -> is_heap (heapq.heappush heap item).
Proof.
  intros Hheap. unfold heapq.heappush, heapq._siftdown.
  rewrite length_app. simpl. replace (length heap + 1 - 1) with (length heap) by lia.
  apply siftdown_loop_is_heap; [done|rewrite length_app; simpl; lia|].
  rewrite list_insert_id'
    by (intros; apply list_lookup_lookup_total_lt; rewrite length_app; simpl; lia).
  split.
  - intros k Hk Hne. rewrite length_app in Hk. simpl in Hk.
    pose proof (parent_pos_lt k ltac:(lia)).
    rewrite !lookup_total_app_l by lia. apply Hheap. lia.
  - intros k Hk Hpar _. rewrite length_app in Hk. simpl in Hk.
    pose proof (parent_pos_lt k ltac:(lia)). lia.
Qed.

(** ** [_siftup] *)

Lemma siftup_loop_spec fuel : forall heap pos,
  length heap <= fuel + pos -> pos < length heap -> heap_hole heap pos ->
  let r := heapq._siftup_loop fuel heap (length heap) pos in
  length r.1 = length heap /\ r.2 < length heap /\ length heap <= 2 * r.2 + 1 /\
  heap_hole r.1 r.2 /\
  (heap !!! pos) :: r.1 ≡ₚ (r.1 !!! r.2) :: heap.
Proof.
  induction fuel as [|fuel IH]; intros heap pos Hfuel Hpos Hhole; [simpl in *; lia|].
  cbn [heapq._siftup_loop]. cbv zeta.
  case_bool_decide as Hchild; cbn [fst snd]; [|split_and!; [done|done|lia|done|done]].
  set (left := 2 * pos + 1) in *. set (right := left + 1).
  set (c := if bool_decide (right < length heap)
                 && negb (py_lt (heap !!! left) (heap !!! right))
            then right else left).
  assert ((c = left \/ c = right) /\ c < length heap /\
          (forall s, (s = left \/ s = right) -> s < length heap ->
             py_le (heap !!! c) (heap !!! s))) as (Hc & Hclt & Hmin).
  { unfold c. destruct (bool_decide (right < length heap)) eqn:Hr; simpl.
    - apply bool_decide_eq_true in Hr.
      destruct (py_lt (heap !!! left) (heap !!! right)) eqn:Hcmp; simpl.
      + split_and!; [by left|done|]. intros s [->| ->] _;
          [apply py_le_refl|by apply py_lt_le].
      + split_and!; [by right|done|]. intros s [->| ->] _;
          [done|apply py_le_refl].
    - apply bool_decide_eq_false in Hr.
      split_and!; [by left|done|]. intros s [->| ->] Hs; [apply py_le_refl|lia]. }
  clearbody c.
  assert (heapq.parent_pos c = pos) as Hparc.
  { destruct Hc as [->| ->]; [apply parent_pos_left|].
    unfold right, left. replace (2 * pos + 1 + 1) with (2 * pos + 2) by lia.
    apply parent_pos_right. }
  assert (pos < c) by (unfold right, left in *; lia).
  set (heap1 := <[pos := heap !!! c]> heap).
  assert (length heap1 = length heap) as Hlen1 by apply length_insert.
  assert (heap_hole heap1 c) as Hhole1.
  { destruct Hhole as [Hord Hgrand]. unfold heap1. split.
    - intros k Hk Hkc Hpk. rewrite length_insert in Hk.
      destruct (decide (k = pos)) as [->|Hkpos].
      { pose proof (parent_pos_lt pos ltac:(lia)). lookup_insert.
        apply Hgrand; [lia|done|lia]. }
      destruct (decide (heapq.parent_pos k = pos)) as [Hpar|Hpar].
      { rewrite Hpar. lookup_insert. apply Hmin; [|lia].
        destruct (parent_pos_child k ltac:(lia)) as [Hk'|Hk'];
          rewrite Hpar in Hk'; unfold right, left; lia. }
      lookup_insert. by apply Hord.
    - intros k Hk Hpk _. rewrite length_insert in Hk. rewrite Hparc.
      pose proof (parent_pos_lt k ltac:(lia)).
      lookup_insert. rewrite <- Hpk. apply Hord; [done|lia|lia]. }
  specialize (IH heap1 c). rewrite Hlen1 in IH.
  destruct (IH ltac:(lia) Hclt Hhole1) as (Hl & Hleaf1 & Hleaf2 & Hh & Hperm).
  split_and!; [done..|].
  unfold heap1 in Hperm at 1. revert Hperm. lookup_insert. intros Hperm.
  apply (Permutation_cons_inv (a := heap !!! c)).
  rewrite perm_swap, Hperm, perm_swap.
  unfold heap1. rewrite (insert_Permutation heap pos (heap !!! c)) by done.
  apply perm_swap.
Qed.

Lemma siftup_spec heap :
  0 < length heap -> heap_hole heap 0 ->
  is_heap (heapq._siftup heap 0) /\ heapq._siftup heap 0 ≡ₚ heap.
Proof.
  intros Hlen Hhole. unfold heapq._siftup.
  pose proof (siftup_loop_spec (length heap) heap 0 ltac:(lia) Hlen Hhole) as Hloop.
  destruct (heapq._siftup_loop _ _ _ _) as [heap' pos']. simpl in Hloop.
  destruct Hloop as (Hl & Hpos' & Hleaf & [Hord Hgrand] & Hperm).
  set (newitem := heap !!! 0) in *.
  set (h2 := <[pos' := newitem]> heap').
  assert (length h2 = length heap) as Hl2 by (unfold h2; by rewrite length_insert).
  assert (h2 ≡ₚ heap) as Hperm2.
  { apply (Permutation_cons_inv (a := heap' !!! pos')).
    unfold h2. rewrite insert_Permutation by lia. done. }
  split.
  - unfold heapq._siftdown. apply siftdown_loop_is_heap; [done|lia|].
    rewrite list_insert_id'
      by (intros; apply list_lookup_lookup_total_lt; lia).
    unfold h2. split.
    + intros k Hk Hne. rewrite length_insert in Hk.
      assert (heapq.parent_pos k <> pos').
      { destruct (parent_pos_child k ltac:(lia)); lia. }
      lookup_insert. by apply Hord.
    + intros k Hk Hpar _. rewrite length_insert in Hk.
      destruct (parent_pos_child k ltac:(lia)); lia.
  - rewrite siftdown_Permutation by lia. done.
Qed.

(** ** [heappop] *)

Lemma is_heap_root_min heap k :
  is_heap heap -> k < length heap -> py_le (heap !!! 0) (heap !!! k).
Proof.
  intros Hheap. induction k as [k IH] using lt_wf_ind. intros Hk.
  destruct (decide (k = 0)) as [->|Hne]; [apply py_le_refl|].
  pose proof (parent_pos_lt k ltac:(lia)).
  apply py_le_trans with (heap !!! heapq.parent_pos k); [apply IH; lia|].
  apply Hheap. lia.
Qed.

Lemma heappop_spec heap :
  is_heap heap -> heap <> [] ->
  exists item heap',
    heapq.heappop heap = Some (item, heap') /\
    is_heap heap' /\ heap ≡ₚ item :: heap' /\ Forall (py_le item) heap'.
Proof.
  intros Hheap Hne. destruct (exists_last Hne) as (init & lastelt & ->).
  unfold heapq.heappop. rewrite last_snoc, removelast_last.
  destruct init as [|returnitem rest].
  - eexists _, _. split_and!; [done| |done|done]. intros k Hk. simpl in Hk. lia.
  - simpl. destruct (siftup_spec (lastelt :: rest)) as [Hh Hp]; [simpl; lia| |].
    { split.
      - intros k Hk Hk0 Hpk. simpl in Hk.
        specialize (Hheap k). rewrite length_app in Hheap.
        pose proof (parent_pos_lt k ltac:(lia)).
        rewrite !lookup_total_app_l in Hheap by (simpl; lia).
        simpl in Hheap. specialize (Hheap ltac:(lia)).
        destruct k as [|k]; [lia|].
        destruct (heapq.parent_pos (S k)) as [|p] eqn:Hp; [lia|]. done.
      - intros; lia. }
    eexists _, _. split_and!; [done|done| |].
    + simpl. constructor. rewrite Hp. by rewrite Permutation_app_comm.
    + rewrite Hp. apply Forall_forall. intros y Hy.
      assert (y ∈ (returnitem :: rest) ++ [lastelt]) as Hin.
      { apply elem_of_cons in Hy as [->|Hy];
          rewrite elem_of_app, list_elem_of_singleton, elem_of_cons; auto. }
      apply list_elem_of_lookup_total in Hin as (k & Hk & <-).
      by apply (is_heap_root_min _ k Hheap).
Qed.

(** * Storage disciplines *)

#[local] Instance py_le_transitive : Transitive py_le.
Proof. intros a b c. apply py_le_trans. Qed.

(** ** Non-blocking [put] and [get] on a queue without waiters *)

Lemma put_room item q w :
  Queue.getters q = [] -> Queue.maxsize q = None ->
  Queue.put item VNone None q w = (Return tt, (Queue._put item q w).1.2, w).
Proof.
  intros Hg Hmax. unfold Queue.put. unfold_M. simpl. rewrite Hg. simpl.
  unfold Queue.maxsize_is_qsize. simpl. rewrite Hmax. simpl.
  assert (Queue.set_getters (drop_expired w) q = q) as ->.
  { destruct q. simpl in *. by subst. }
  by destruct (put_spec item q w) as (q' & -> & _).
Qed.

Lemma get_available q w :
  Queue.putters q = [] -> Queue.queue q <> [] ->
  Queue.get VNone None q w = Queue._get q w.
Proof.
  intros Hp Hq. unfold Queue.get. unfold_M. simpl. rewrite Hp. simpl.
  assert (Queue.set_putters (Queue.drop_expired_putters w) q = q) as ->.
  { destruct q. simpl in *. by subst. }
  unfold Queue.qsize_of.
  destruct (Queue.queue q) eqn:Hq'; [done|]. simpl.
  by destruct (Queue._get q w) as [[? ?] ?].
Qed.

(** What the storage holds after the puts. *)
Lemma put_all_storage items : forall q w,
  Queue.cls q <> Queue.ClsJoinableQueue ->
  Queue.getters q = [] -> Queue.maxsize q = None ->
  put_all items (q, w)
  = (Queue.set_queue
       (fun l => match Queue.cls q with
                 | Queue.ClsPriorityQueue => fold_left heapq.heappush items l
                 | _ => l ++ items
                 end) q, w).
Proof.
  induction items as [|item items IH]; intros q w Hc Hg Hmax; simpl.
  - destruct q as [c ? ? ? ? ? ?]; destruct c; simpl in *;
      unfold Queue.set_queue; simpl; by rewrite ?app_nil_r.
  - unfold after. simpl. rewrite put_room by done. simpl.
    destruct (put_spec item q w) as (q' & Hput & (Hc' & Hmax' & Hg' & _) & _).
    rewrite Hput. simpl. rewrite IH by congruence. rewrite Hc'.
    f_equal. revert Hput. unfold Queue._put. unfold_M. simpl.
    destruct q as [c ? ? ? s ? ?]; destruct c; simpl in *; try done.
    all: intros; simplify_eq; unfold Queue.set_queue; simpl; f_equal.
    all: by rewrite <- app_assoc.
Qed.

(** ** Draining *)

Lemma get_available_callback callback q w :
  truthy callback = true ->
  Queue.putters q = [] -> Queue.queue q <> [] ->
  exists item q',
    Queue._get q w = (Return item, q', w) /\
    Queue.get callback None q w
    = (Return VNone, q', run_callback callback [item] w).
Proof.
  intros Hc Hp Hq. destruct (get_spec q w Hq) as (item & q' & Hget & _).
  exists item, q'. split; [done|].
  unfold Queue.get. unfold_M. simpl. rewrite Hp, Hc. simpl.
  assert (Queue.set_putters (Queue.drop_expired_putters w) q = q) as ->.
  { destruct q. simpl in *. by subst. }
  unfold Queue.qsize_of.
  destruct (Queue.queue q) eqn:Hq'; [done|]. simpl. by rewrite Hget.
Qed.

(** [_get] does not look at the world. *)
Lemma take_all_world n : forall q w1 w2, take_all n q w1 = take_all n q w2.
Proof.
  induction n as [|n IH]; intros q w1 w2; [done|]. simpl.
  assert ((Queue._get q w1).1 = (Queue._get q w2).1) as Hw.
  { unfold Queue._get. unfold_M. by repeat case_match. }
  destruct (Queue._get q w1) as [[o1 q1] w1'].
  destruct (Queue._get q w2) as [[o2 q2] w2']. simpl in Hw. simplify_eq.
  destruct o2; [|done]. f_equal. apply IH.
Qed.

(** Both ways of draining deliver what [_get] takes from the storage. *)
Lemma drain_take_all n : forall q w,
  Queue.putters q = [] -> n <= length (Queue.queue q) ->
  drain n (q, w) = map Return (take_all n q w).
Proof.
  induction n as [|n IH]; intros q w Hp Hn; [done|]. simpl.
  assert (Queue.queue q <> []) as Hq by (destruct (Queue.queue q); simpl in *; [lia|done]).
  unfold result, after. simpl. rewrite get_available by done.
  destruct (get_spec q w Hq) as (item & q' & -> & (_ & _ & _ & Hp') & Hlen).
  simpl. f_equal. apply IH; [congruence|lia].
Qed.

Lemma get_all_trace callback n : forall q w,
  truthy callback = true ->
  Queue.putters q = [] -> n <= length (Queue.queue q) ->
  trace (get_all n callback (q, w)).2
  = trace w ++ flat_map (fun item => calls_of callback [item]) (take_all n q w).
Proof.
  induction n as [|n IH]; intros q w Hc Hp Hn; simpl; [by rewrite app_nil_r|].
  assert (Queue.queue q <> []) as Hq by (destruct (Queue.queue q); simpl in *; [lia|done]).
  destruct (get_available_callback callback q w Hc Hp Hq) as (item & q' & Hget & Hcb).
  destruct (get_spec q w Hq) as (item' & q'' & Hget' & (_ & _ & _ & Hp') & Hlen).
  rewrite Hget in Hget'. simplify_eq.
  unfold after. simpl. rewrite Hcb, Hget. simpl.
  rewrite IH by (done || congruence || lia).
  rewrite run_callback_trace, <- app_assoc. do 3 f_equal.
  apply take_all_world.
Qed.

Lemma take_all_fifo l : forall q w,
  Queue.cls q = Queue.ClsQueue -> Queue.queue q = l ->
  take_all (length l) q w = l.
Proof.
  induction l as [|x l IH]; intros q w Hc Hq; [done|]. simpl.
  unfold Queue._get. unfold_M. simpl. rewrite Hc, Hq. simpl.
  f_equal. by apply IH.
Qed.

Lemma take_all_lifo l : forall q w,
  Queue.cls q = Queue.ClsLifoQueue -> Queue.queue q = l ->
  take_all (length l) q w = rev l.
Proof.
  induction l as [|x l IH] using rev_ind; intros q w Hc Hq; [done|].
  rewrite length_app, Nat.add_1_r, rev_unit. simpl.
  unfold Queue._get. unfold_M. simpl. rewrite Hc, Hq, last_snoc. simpl.
  f_equal. apply IH; [done|]. simpl. by rewrite Hq, removelast_last.
Qed.

Lemma take_all_priority n : forall heap q w,
  Queue.cls q = Queue.ClsPriorityQueue ->
  Queue.queue q = heap -> is_heap heap -> length heap = n ->
  Sorted py_le (take_all n q w) /\ take_all n q w ≡ₚ heap.
Proof.
  induction n as [|n IH]; intros heap q w Hc Hq Hheap Hlen.
  - destruct heap; [|done]. split; [constructor|done].
  - assert (heap <> []) as Hne by (by destruct heap).
    destruct (heappop_spec heap Hheap Hne)
      as (item & heap' & Hpop & Hh' & Hperm & Hmin).
    simpl. unfold Queue._get. unfold_M. simpl. rewrite Hc, Hq, Hpop. simpl.
    destruct (IH heap' (Queue.set_queue (fun _ => heap') q) w)
      as (Hsorted & Hout); [done..| |].
    { apply Permutation_length in Hperm. simpl in Hperm. lia. }
    split; [|by rewrite Hout].
    constructor; [done|]. rewrite <- Hout in Hmin.
    destruct (take_all n _ w); constructor. by apply Forall_cons in Hmin as [? _].
Qed.

Lemma fold_heappush items : forall heap,
  is_heap heap ->
  is_heap (fold_left heapq.heappush items heap) /\
  fold_left heapq.heappush items heap ≡ₚ heap ++ items.
Proof.
  induction items as [|x items IH]; intros heap Hheap; simpl.
  - by rewrite app_nil_r.
  - destruct (IH (heapq.heappush heap x)) as [? Hperm];
      [by apply heappush_is_heap|].
    split; [done|]. rewrite Hperm, heappush_Permutation. simpl.
    apply Permutation_middle.
Qed.

(** ** The reference sort *)

Lemma insert_sorted_Permutation x l : insert_sorted x l ≡ₚ x :: l.
Proof.
  induction l as [|y l IH]; simpl; [done|].
  destruct (x <=? y)%Z; [done|]. by rewrite IH, perm_swap.
Qed.

Lemma insert_sorted_Sorted x l : Sorted Z.le l -> Sorted Z.le (insert_sorted x l).
Proof.
  induction 1 as [|y l Hs IH Hhd]; simpl; [by repeat constructor|].
  destruct (Z.leb_spec x y).
  - by repeat constructor.
  - constructor; [done|].
    destruct l as [|z l]; simpl in *; [constructor; lia|].
    destruct (x <=? z)%Z; constructor; [lia|]. by inversion Hhd.
Qed.

Lemma sort_ints_Permutation l : sort_ints l ≡ₚ l.
Proof.
  induction l as [|x l IH]; simpl; [done|].
  by rewrite insert_sorted_Permutation, IH.
Qed.

Lemma sort_ints_Sorted l : Sorted Z.le (sort_ints l).
Proof.
  induction l as [|x l IH]; simpl; [constructor|]. by apply insert_sorted_Sorted.
Qed.

Lemma py_le_ints a b : py_le (VInt a) (VInt b) <-> (a <= b)%Z.
Proof. rewrite py_le_spec. simpl. lia. Qed.

(** C6. Items put into an unbounded queue and then drained by gets (without
    a callback: the values returned; with a callback: the values the callback
    receives) come out in the order of the puts from a [Queue], in reverse
    order from a [LifoQueue], and in ascending order from a [PriorityQueue]
    whatever the order of the puts; for integers this is the sorted list. *)
Theorem storage_round_trips (items : list pyval) (ints : list Z) (w : World)
    (cb : nat) (raises : bool) :
  let delivered c its out :=
    Queue.__init__ c None w = (Return (new_queue c), w) /\
    drain (length its) (put_all its (new_queue c, w)) = map Return out /\
    trace (get_all (length its) (VUser cb raises) (put_all its (new_queue c, w))).2
    = trace w ++ map (fun item => (cb, [item])) out in
  delivered Queue.ClsQueue items items /\
  delivered Queue.ClsLifoQueue items (rev items) /\
  (exists out,
     delivered Queue.ClsPriorityQueue items out /\
     Sorted py_le out /\ out ≡ₚ items) /\
  delivered Queue.ClsPriorityQueue (map VInt ints) (map VInt (sort_ints ints)).
Proof.
  assert (forall c its,
            c <> Queue.ClsJoinableQueue ->
            let q := Queue.set_queue
                       (fun l => match c with
                                 | Queue.ClsPriorityQueue =>
                                     fold_left heapq.heappush its l
                                 | _ => l ++ its
                                 end) (new_queue c) in
            length (Queue.queue q) = length its ->
            Queue.__init__ c None w = (Return (new_queue c), w) /\
            drain (length its) (put_all its (new_queue c, w))
            = map Return (take_all (length its) q w) /\
            trace (get_all (length its) (VUser cb raises)
                     (put_all its (new_queue c, w))).2
            = trace w ++ map (fun item => (cb, [item])) (take_all (length its) q w))
    as Hdel.
  { intros c its Hc q Hlen. split; [by destruct c|].
    rewrite put_all_storage by done.
    change (Queue.cls (new_queue c)) with c. fold q.
    rewrite drain_take_all, get_all_trace by (done || lia).
    split; [done|]. by f_equal. }
  assert (forall its,
            let heap := fold_left heapq.heappush its [] in
            let q := Queue.set_queue (fun l => fold_left heapq.heappush its l)
                       (new_queue Queue.ClsPriorityQueue) in
            length heap = length its /\
            Sorted py_le (take_all (length its) q w) /\
            take_all (length its) q w ≡ₚ its) as Hprio.
  { intros its heap q.
    destruct (fold_heappush its []) as [Hheap Hperm];
      [intros k Hk; simpl in Hk; lia|].
    assert (length heap = length its) as Hlen by (unfold heap; by rewrite Hperm).
    split; [done|].
    destruct (take_all_priority (length its) heap q w) as [Hs Hp]; [done..|].
    split; [done|]. by rewrite Hp. }
  cbv zeta. split; [|split; [|split]].
  - destruct (Hdel Queue.ClsQueue items) as (? & -> & ->); [done..|].
    by rewrite take_all_fifo.
  - destruct (Hdel Queue.ClsLifoQueue items) as (? & -> & ->); [done..|].
    by rewrite take_all_lifo.
  - destruct (Hprio items) as (Hlen & Hs & Hp).
    destruct (Hdel Queue.ClsPriorityQueue items) as (? & -> & ->); [done..|].
    eexists. by split_and!.
  - destruct (Hprio (map VInt ints)) as (Hlen & Hs & Hp).
    destruct (Hdel Queue.ClsPriorityQueue (map VInt ints)) as (? & -> & ->);
      [done..|].
    set (q := Queue.set_queue _ _) in *.
    assert (take_all (length (map VInt ints)) q w = map VInt (sort_ints ints))
      as ->; [|done].
    apply (Sorted_unique_strong py_le); [|done| |].
    + intros x1 x2 Hx1 Hx2 H12 H21.
      rewrite Hp in Hx1. apply list_elem_of_fmap in Hx1 as (a & -> & _).
      apply list_elem_of_fmap in Hx2 as (b & -> & _).
      apply py_le_ints in H12, H21. f_equal. lia.
    + apply (Sorted_fmap VInt Z.le py_le); [|apply sort_ints_Sorted].
      intros a b. by apply py_le_ints.
    + rewrite Hp. by rewrite sort_ints_Permutation.
Qed.

(** * Condition and Event *)

(** ** Pruning and liveness *)

Lemma live_waiters_drop_expired w ws :
  live_waiters w (drop_expired w ws) = live_waiters w ws.
Proof.
  induction ws as [|x ws IH]; [done|]. simpl.
  destruct (expired w x) eqn:He; [|done].
  rewrite IH. unfold live_waiters. rewrite filter_cons_False; [done|].
  by rewrite He.
Qed.

Lemma drop_expired_suffix w ws : drop_expired w ws `suffix_of` ws.
Proof.
  induction ws as [|x ws IH]; [done|]. simpl.
  destruct (expired w x); [by apply suffix_cons_r|done].
Qed.

Lemma drop_expired_fixed w ws :
  drop_expired w (drop_expired w ws) = drop_expired w ws.
Proof.
  induction ws as [|x ws IH]; [done|]. simpl.
  destruct (expired w x) eqn:He; [done|]. simpl. by rewrite He.
Qed.

(** A pruned deque without live waiter is empty. *)
Lemma drop_expired_no_live w ws :
  drop_expired w ws = ws -> live_waiters w ws = [] -> ws = [].
Proof.
  destruct ws as [|x ws]; [done|]. simpl.
  destruct (expired w x) eqn:He.
  - intros H. pose proof (drop_expired_length w ws) as Hl.
    rewrite H in Hl. simpl in Hl. lia.
  - intros _. unfold live_waiters. rewrite filter_cons_True by done. done.
Qed.

(** ** The selection loop of [notify] *)

Lemma notify_loop_spec w fuel : forall n ws,
  length ws <= fuel -> drop_expired w ws = ws ->
  let r := Condition.notify_loop fuel w n ws in
  r.1 = (if (n <? 0)%Z then live_waiters w ws
         else take (Z.to_nat n) (live_waiters w ws)) /\
  live_waiters w r.2 = (if (n <? 0)%Z then []
                        else drop (Z.to_nat n) (live_waiters w ws)) /\
  r.2 `suffix_of` ws /\ drop_expired w r.2 = r.2.
Proof.
  induction fuel as [|fuel IH]; intros n ws Hfuel Hpruned.
  - destruct ws; [|simpl in Hfuel; lia]. simpl.
    change (live_waiters w []) with (@nil nat).
    rewrite take_nil, drop_nil. by destruct (n <? 0)%Z.
  - destruct ws as [|x ws]; simpl.
    { change (live_waiters w []) with (@nil nat).
      rewrite take_nil, drop_nil. by destruct (n <? 0)%Z. }
    assert (expired w x = false) as Hx.
    { simpl in Hpruned. destruct (expired w x); [|done].
      pose proof (drop_expired_length w ws) as Hl. rewrite Hpruned in Hl.
      simpl in Hl. lia. }
    assert (live_waiters w (x :: ws) = x :: live_waiters w ws) as Hlive.
    { unfold live_waiters. by rewrite filter_cons_True. }
    destruct (Z.eqb_spec n 0) as [->|Hn]; simpl.
    { split_and!; [done|by rewrite Hlive|done|done]. }
    pose proof (drop_expired_length w ws) as Hlen. simpl in Hfuel.
    destruct (IH (n - 1)%Z (drop_expired w ws) ltac:(lia)
                (drop_expired_fixed w ws)) as (Hp & Hl & Hs & Hd).
    destruct (Condition.notify_loop fuel w (n - 1) (drop_expired w ws))
      as [picked left]. simpl in *.
    rewrite live_waiters_drop_expired in Hp, Hl. rewrite Hlive.
    split_and!.
    + rewrite Hp. destruct (Z.ltb_spec n 0).
      * by destruct (Z.ltb_spec (n - 1) 0); [|lia].
      * destruct (Z.ltb_spec (n - 1) 0); [lia|].
        replace (Z.to_nat n) with (S (Z.to_nat (n - 1))) by lia. done.
    + rewrite Hl. destruct (Z.ltb_spec n 0).
      * by destruct (Z.ltb_spec (n - 1) 0); [|lia].
      * destruct (Z.ltb_spec (n - 1) 0); [lia|].
        replace (Z.to_nat n) with (S (Z.to_nat (n - 1))) by lia. done.
    + apply suffix_cons_r. etrans; [done|]. apply drop_expired_suffix.
    + done.
Qed.

(** ** Running the selected waiters *)

Lemma run_all_length args ws : forall w,
  length (waiter_callback (AsyncResult.run_all ws args w))
  = length (waiter_callback w).
Proof.
  induction ws as [|x ws IH]; intros w; [done|].
  unfold AsyncResult.run_all in *. simpl. by rewrite IH, waiter_run_length.
Qed.

Lemma run_all_lookup_ne args ws x : forall w,
  x ∉ ws ->
  waiter_callback (AsyncResult.run_all ws args w) !!! x = waiter_callback w !!! x.
Proof.
  induction ws as [|y ws IH]; intros w Hx; [done|].
  apply not_elem_of_cons in Hx as [Hne Hx].
  unfold AsyncResult.run_all in *. simpl. rewrite IH by done.
  by apply waiter_run_lookup_ne.
Qed.

Lemma run_all_expired args ws : forall w,
  Forall (fun x => expired (AsyncResult.run_all ws args w) x = true) ws.
Proof.
  induction ws as [|y ws IH]; intros w; [done|].
  unfold AsyncResult.run_all in *. simpl. constructor; [|apply IH].
  apply (run_all_expired_mono args ws y), waiter_run_expired.
Qed.

Lemma pending_live w ws :
  pending w ws = map (fun x => waiter_callback w !!! x) (live_waiters w ws).
Proof.
  unfold pending, live_waiters, expired.
  induction ws as [|x ws IH]; [done|]. simpl.
  rewrite !filter_cons.
  destruct (truthy (waiter_callback w !!! x)) eqn:Ht; simpl;
    repeat case_decide; try done. simpl. by rewrite IH.
Qed.

Lemma live_waiters_fixed w ws : live_waiters w (live_waiters w ws) = live_waiters w ws.
Proof. unfold live_waiters. induction ws as [|x ws IH]; [done|].
  rewrite filter_cons. case_decide; [|done]. rewrite filter_cons_True by done. by rewrite IH. Qed.

(** The calls made when the live waiters [ws] are run. *)
Lemma run_all_live_trace args ws w :
  NoDup ws -> live_waiters w ws = ws ->
  trace (AsyncResult.run_all ws args w)
  = trace w ++ flat_map (fun x => calls_of (waiter_callback w !!! x) args) ws.
Proof.
  intros Hnd Hlive. rewrite run_all_trace by done. rewrite pending_live, Hlive.
  f_equal. clear. induction ws as [|x ws IH]; [done|]. simpl. by rewrite IH.
Qed.

(** Other waiters keep their state. *)
Lemma run_all_live_others args picked ws w :
  (forall x, x ∈ ws -> x ∉ picked) ->
  live_waiters (AsyncResult.run_all picked args w) ws = live_waiters w ws.
Proof.
  intros Hdisj. unfold live_waiters. induction ws as [|x ws IH]; [done|].
  rewrite !filter_cons. rewrite IH by (intros; apply Hdisj; by right).
  unfold expired. rewrite run_all_lookup_ne by (apply Hdisj; by left). done.
Qed.

(** ** [notify] and [notify_all] *)

Lemma notify_spec n c w :
  exists picked left,
    Condition.notify n c w
    = (Return tt, Condition.mk left, AsyncResult.run_all picked [] w) /\
    picked = (if (n <? 0)%Z then live_waiters w (Condition.waiters c)
              else take (Z.to_nat n) (live_waiters w (Condition.waiters c))) /\
    live_waiters w left
    = (if (n <? 0)%Z then []
       else drop (Z.to_nat n) (live_waiters w (Condition.waiters c))) /\
    left `suffix_of` Condition.waiters c /\ drop_expired w left = left.
Proof.
  unfold Condition.notify, Condition._consume_timed_out_waiters. unfold_M. simpl.
  set (ws := drop_expired w (Condition.waiters c)).
  destruct (notify_loop_spec w (length ws) n ws ltac:(done)
              (drop_expired_fixed w _)) as (Hp & Hl & Hs & Hd).
  destruct (Condition.notify_loop (length ws) w n ws) as [picked left].
  simpl in *. exists picked, left. unfold ws in *.
  rewrite live_waiters_drop_expired in Hp, Hl.
  split_and!; [done..| |done].
  etrans; [done|]. apply drop_expired_suffix.
Qed.

Lemma notify_all_spec c w :
  Condition.notify_all c w
  = (Return tt, Condition.mk [],
     AsyncResult.run_all (live_waiters w (Condition.waiters c)) [] w).
Proof.
  unfold Condition.notify_all. unfold_M. simpl.
  destruct (notify_spec (Z.of_nat (length (Condition.waiters c))) c w)
    as (picked & left & -> & Hp & Hl & Hs & Hd).
  destruct (Z.ltb_spec (Z.of_nat (length (Condition.waiters c))) 0); [lia|].
  rewrite Nat2Z.id in Hp, Hl.
  assert (length (live_waiters w (Condition.waiters c))
          <= length (Condition.waiters c)) as Hlen by apply length_filter.
  rewrite take_ge in Hp by done. rewrite drop_ge in Hl by done.
  subst picked. by rewrite (drop_expired_no_live w left).
Qed.

(** ** The waiters of a condition are distinct and exist *)

Lemma live_waiters_all w ws :
  Forall (fun x => expired w x = false) ws -> live_waiters w ws = ws.
Proof.
  induction 1 as [|x ws Hx _ IH]; [done|].
  unfold live_waiters in *. rewrite filter_cons_True by done. by rewrite IH.
Qed.

Lemma live_waiters_live w ws :
  Forall (fun x => expired w x = false) (live_waiters w ws).
Proof. apply Forall_forall. intros x Hx. by apply list_elem_of_filter in Hx as [? _]. Qed.

Lemma waiters_ok_suffix w w' ws ws' :
  ws' `suffix_of` ws ->
  length (waiter_callback w) <= length (waiter_callback w') ->
  waiters_ok w ws -> waiters_ok w' ws'.
Proof.
  intros [k ->] Hlen [Hnd Hlt]. split.
  - by apply NoDup_app in Hnd as (_ & _ & ?).
  - apply Forall_app in Hlt as [_ Hlt]. eapply Forall_impl; [done|].
    simpl. intros. lia.
Qed.

Lemma waiters_ok_new w w' ws :
  length (waiter_callback w') = S (length (waiter_callback w)) ->
  waiters_ok w ws -> waiters_ok w' (ws ++ [length (waiter_callback w)]).
Proof.
  intros Hlen [Hnd Hlt]. split.
  - apply NoDup_app. split_and!; [done| |apply NoDup_singleton].
    intros x Hx ->%list_elem_of_singleton.
    rewrite Forall_forall in Hlt. apply Hlt in Hx. lia.
  - apply Forall_app. split; [|apply Forall_singleton; lia].
    eapply Forall_impl; [done|]. simpl. intros. lia.
Qed.

Lemma cond_step_ok a st :
  waiters_ok st.2 (Condition.waiters st.1) ->
  waiters_ok (cond_step a st).2 (Condition.waiters (cond_step a st).1).
Proof.
  destruct st as [c w]. intros Hok. destruct a as [cb t|n| |ev]; simpl in *.
  - unfold after, Condition.wait. unfold_M. simpl.
    repeat case_match; simplify_eq/=; try done.
    all: apply waiters_ok_new; [|done]; simpl; rewrite length_app; simpl; lia.
  - unfold after. simpl.
    destruct (notify_spec n c w) as (picked & left & -> & _ & _ & Hs & _). simpl.
    eapply waiters_ok_suffix; [done| |done]. by rewrite run_all_length.
  - unfold after. simpl. rewrite notify_all_spec. simpl.
    split; [apply NoDup_nil_2|apply Forall_nil_2].
  - destruct Hok. split; [done|]. by rewrite loop_step_length.
Qed.

Lemma cond_reachable_ok st :
  cond_reachable st -> waiters_ok st.2 (Condition.waiters st.1).
Proof.
  induction 1 as [w|a st _ IH].
  - split; [apply NoDup_nil_2|apply Forall_nil_2].
  - by apply cond_step_ok.
Qed.

Lemma notify_effect n c w :
  NoDup (Condition.waiters c) ->
  let ws := live_waiters w (Condition.waiters c) in
  let woken := if (n <? 0)%Z then ws else take (Z.to_nat n) ws in
  let st' := after (Condition.notify n) (c, w) in
  result (Condition.notify n) (c, w) = Return tt /\
  trace st'.2
  = trace w ++ flat_map (fun x => calls_of (waiter_callback w !!! x) []) woken /\
  Forall (fun x => expired st'.2 x = true) woken /\
  live_waiters st'.2 (Condition.waiters st'.1)
  = (if (n <? 0)%Z then [] else drop (Z.to_nat n) ws) /\
  Condition.waiters st'.1 `suffix_of` Condition.waiters c /\
  length (waiter_callback st'.2) = length (waiter_callback w).
Proof.
  intros Hnd ws woken. unfold result, after. simpl.
  destruct (notify_spec n c w) as (picked & left & -> & Hp & Hl & Hs & _).
  simpl. fold ws in Hp, Hl. fold woken in Hp. subst picked.
  assert (NoDup ws) as Hndl by (by apply NoDup_filter).
  assert (NoDup woken) as Hndw.
  { unfold woken. destruct (n <? 0)%Z; [done|].
    rewrite <- (take_drop (Z.to_nat n) ws) in Hndl.
    by apply NoDup_app in Hndl as (? & _ & _). }
  assert (Forall (fun x => expired w x = false) woken) as Hlw.
  { unfold woken. destruct (n <? 0)%Z; [apply live_waiters_live|].
    apply Forall_take, live_waiters_live. }
  split_and!; [done| | | |done|apply run_all_length].
  - apply run_all_live_trace; [done|]. by apply live_waiters_all.
  - apply run_all_expired.
  - rewrite run_all_live_others; [done|].
    intros x Hx Hw.
    assert (x ∈ live_waiters w left) as Hxl.
    { apply list_elem_of_filter. split; [|done].
      rewrite Forall_forall in Hlw. by apply Hlw. }
    rewrite Hl in Hxl. unfold woken in Hw.
    destruct (n <? 0)%Z; [by apply elem_of_nil in Hxl|].
    rewrite <- (take_drop (Z.to_nat n) ws) in Hndl.
    apply NoDup_app in Hndl as (_ & Hdisj & _). by apply (Hdisj x).
Qed.

#[local] Arguments registered : simpl never.

Lemma callable_truthy f : callable f = true -> truthy f = true.
Proof. by destruct f. Qed.

Lemma new_Waiter_spec {S} timeout timeout_args callback (s : S) w :
  callable callback = true ->
  new_Waiter timeout timeout_args callback s w
  = (Return (length (waiter_callback w)), s,
     registered timeout timeout_args callback w).
Proof.
  intros Hc. unfold new_Waiter, registered. unfold_M. rewrite Hc. simpl.
  by destruct (bool_decide (timeout <> None)).
Qed.

Lemma new_Waiter_noncallable {S} timeout timeout_args callback (s : S) w :
  callable callback = false ->
  new_Waiter timeout timeout_args callback s w = (Raise TypeError, s, w).
Proof. intros Hc. unfold new_Waiter. unfold_M. by rewrite Hc. Qed.

Lemma registered_waiter_callback timeout args callback w :
  waiter_callback (registered timeout args callback w)
  = waiter_callback w ++ [callback].
Proof. unfold registered. by destruct (bool_decide _). Qed.

Lemma registered_trace timeout args callback w :
  trace (registered timeout args callback w) = trace w.
Proof. unfold registered. by destruct (bool_decide _). Qed.

Lemma registered_loop_callbacks timeout args callback w :
  loop_callbacks (registered timeout args callback w) = loop_callbacks w.
Proof. unfold registered. by destruct (bool_decide _). Qed.

(** The new waiter is live; the waiters that existed keep their state. *)
Lemma registered_live timeout args callback w ws :
  callable callback = true ->
  Forall (fun x => x < length (waiter_callback w)) ws ->
  live_waiters (registered timeout args callback w)
    (ws ++ [length (waiter_callback w)])
  = live_waiters w ws ++ [length (waiter_callback w)].
Proof.
  intros Hc Hlt. unfold live_waiters, expired.
  rewrite filter_app, registered_waiter_callback. f_equal.
  - induction Hlt as [|x ws Hx _ IH]; [done|].
    rewrite !filter_cons, IH. by rewrite lookup_total_app_l.
  - rewrite filter_cons_True; [done|].
    rewrite lookup_total_app_r by done. rewrite Nat.sub_diag. simpl.
    by rewrite callable_truthy.
Qed.

Lemma two_waiters_reachable : cond_reachable two_waiters_state.
Proof. unfold two_waiters_state. do 2 apply cond_reach_step. constructor. Qed.

(** X1. [Condition.notify(n)] returns; it calls, in registration order and
    without arguments, the callbacks of the first [n] waiters that have not
    run yet (of all of them when there are fewer, and also when [n] is
    negative); these waiters have run afterwards, and the other live
    waiters stay, in order. *)
Theorem condition_notify (st : Condition.t * World) (n : Z) :
  cond_reachable st ->
  let ws := live_waiters st.2 (Condition.waiters st.1) in
  let woken := if (n <? 0)%Z then ws else take (Z.to_nat n) ws in
  let st' := after (Condition.notify n) st in
  result (Condition.notify n) st = Return tt /\
  trace st'.2
  = trace st.2
    ++ flat_map (fun x => calls_of (waiter_callback st.2 !!! x) []) woken /\
  Forall (fun x => expired st'.2 x = true) woken /\
  live_waiters st'.2 (Condition.waiters st'.1)
  = (if (n <? 0)%Z then [] else drop (Z.to_nat n) ws).
Proof.
  intros Hreach. destruct (cond_reachable_ok st Hreach) as [Hnd _].
  destruct st as [c w].
  destruct (notify_effect n c w Hnd) as (? & ? & ? & ? & _). by split_and!.
Qed.

Lemma condition_notify_witness :
  cond_reachable two_waiters_state /\
  trace (after (Condition.notify 1) two_waiters_state).2 = [(0, [])].
Proof.
  split; [exact two_waiters_reachable|].
  apply (condition_notify two_waiters_state 1 two_waiters_reachable).
Defined.

(** X2. [Condition.notify_all()] returns and empties the deque; every waiter
    that has not run yet has its callback called once, without arguments,
    in registration order, and has run afterwards. *)
Theorem condition_notify_all (st : Condition.t * World) :
  cond_reachable st ->
  let ws := live_waiters st.2 (Condition.waiters st.1) in
  let st' := after Condition.notify_all st in
  result Condition.notify_all st = Return tt /\
  Condition.waiters st'.1 = [] /\
  trace st'.2
  = trace st.2 ++ flat_map (fun x => calls_of (waiter_callback st.2 !!! x) []) ws /\
  Forall (fun x => expired st'.2 x = true) ws.
Proof.
  intros Hreach. destruct (cond_reachable_ok st Hreach) as [Hnd _].
  destruct st as [c w]. unfold result, after. simpl.
  rewrite notify_all_spec. simpl. split_and!; [done..| |].
  - apply run_all_live_trace; [by apply NoDup_filter|apply live_waiters_fixed].
  - apply run_all_expired.
Qed.

Lemma condition_notify_all_witness :
  cond_reachable two_waiters_state /\
  trace (after Condition.notify_all two_waiters_state).2 = [(0, []); (1, [])].
Proof.
  split; [exact two_waiters_reachable|].
  apply (condition_notify_all two_waiters_state two_waiters_reachable).
Defined.

Lemma condition_wait_spec callback timeout c w :
  callable callback = true ->
  Condition.wait callback timeout c w
  = (Return tt, Condition.mk (Condition.waiters c ++ [length (waiter_callback w)]),
     registered timeout [] callback w).
Proof.
  intros Hc. unfold Condition.wait, registered. unfold_M. rewrite Hc. simpl.
  by destruct (bool_decide _).
Qed.

Lemma registered_loop_timeouts timeout args callback w :
  loop_timeouts (registered timeout args callback w)
  = loop_timeouts w
    ++ (if bool_decide (timeout <> None)
        then [WaiterRun (length (waiter_callback w)) args] else []).
Proof.
  unfold registered. destruct (bool_decide _); simpl; [done|].
  by rewrite app_nil_r.
Qed.

Lemma registered_lookup_new timeout args callback w :
  waiter_callback (registered timeout args callback w)
    !!! length (waiter_callback w) = callback.
Proof.
  rewrite registered_waiter_callback, lookup_total_app_r by done.
  by rewrite Nat.sub_diag.
Qed.

(** X3. [Condition.wait(cb, timeout)] with a callable [cb] returns without
    calling or scheduling [cb]; the new waiter is live and is the last of
    the live waiters, so it is notified after those registered before it;
    a timer is armed exactly when a timeout is given.  With a [cb] that is
    not callable it raises [TypeError] and registers nothing. *)
Theorem condition_wait (st : Condition.t * World) (cb : pyval)
    (timeout : option Z) :
  cond_reachable st ->
  let st' := after (Condition.wait cb timeout) st in
  let new := length (waiter_callback st.2) in
  (callable cb = true ->
     result (Condition.wait cb timeout) st = Return tt /\
     live_waiters st'.2 (Condition.waiters st'.1)
     = live_waiters st.2 (Condition.waiters st.1) ++ [new] /\
     waiter_callback st'.2 !!! new = cb /\
     trace st'.2 = trace st.2 /\
     loop_callbacks st'.2 = loop_callbacks st.2 /\
     loop_timeouts st'.2
     = loop_timeouts st.2
       ++ (if bool_decide (timeout <> None) then [WaiterRun new []] else [])) /\
  (callable cb = false ->
     result (Condition.wait cb timeout) st = Raise TypeError /\ st' = st).
Proof.
  intros Hreach. destruct (cond_reachable_ok st Hreach) as [_ Hlt].
  destruct st as [c w]. unfold result, after. cbn [fst snd] in *.
  split; intros Hc.
  - rewrite condition_wait_spec by done. cbn [fst snd Condition.waiters].
    split_and!; [done| | | | |].
    + by apply registered_live.
    + apply registered_lookup_new.
    + apply registered_trace.
    + apply registered_loop_callbacks.
    + apply registered_loop_timeouts.
  - unfold Condition.wait, mbind, M_bind.
    rewrite new_Waiter_noncallable by done. cbn [fst snd].
    split; [done|]. by destruct c.
Qed.

Lemma condition_wait_witness :
  cond_reachable two_waiters_state /\
  callable (VUser 2 false) = true /\
  live_waiters (after (Condition.wait (VUser 2 false) None) two_waiters_state).2
    (Condition.waiters
       (after (Condition.wait (VUser 2 false) None) two_waiters_state).1)
  = [0; 1; 2].
Proof.
  split; [exact two_waiters_reachable|]. split; [reflexivity|].
  apply (condition_wait two_waiters_state (VUser 2 false) None
           two_waiters_reachable). reflexivity.
Defined.

(** * Event *)

(** ** A waiter whose timer fires *)

Lemma fire_registered t args callback w :
  fire_timeout (length (loop_timeouts w)) (registered (Some t) args callback w)
  = waiter_run (length (waiter_callback w)) args (registered None args callback w).
Proof.
  destruct w as [store cbs timers tr log].
  unfold fire_timeout, registered. simpl.
  rewrite lookup_app_r by done. rewrite Nat.sub_diag. simpl.
  unfold set_loop_timeouts, set_waiter_callback. simpl.
  by rewrite delete_middle, app_nil_r.
Qed.

(** Running the waiter just created calls its callback; the waiters that
    existed keep their state. *)
Lemma run_registered_trace timeout args args' callback w :
  callable callback = true ->
  trace (waiter_run (length (waiter_callback w)) args'
           (registered timeout args callback w))
  = trace w ++ calls_of callback args'.
Proof.
  intros Hc. rewrite waiter_run_trace, registered_lookup_new, registered_trace.
  by rewrite callable_truthy.
Qed.

Lemma run_registered_live timeout args args' callback w ws :
  Forall (fun x => x < length (waiter_callback w)) ws ->
  live_waiters (waiter_run (length (waiter_callback w)) args'
                  (registered timeout args callback w))
    (ws ++ [length (waiter_callback w)])
  = live_waiters w ws.
Proof.
  intros Hlt. unfold live_waiters. rewrite filter_app.
  rewrite filter_cons_False, filter_nil, app_nil_r.
  - induction Hlt as [|x ws Hx _ IH]; [done|].
    rewrite !filter_cons, IH. unfold expired.
    rewrite waiter_run_lookup_ne by lia.
    by rewrite registered_waiter_callback, lookup_total_app_l.
  - by rewrite waiter_run_expired.
Qed.

Lemma run_registered_lookup timeout args args' callback w x :
  x < length (waiter_callback w) ->
  waiter_callback (waiter_run (length (waiter_callback w)) args'
                     (registered timeout args callback w)) !!! x
  = waiter_callback w !!! x.
Proof.
  intros Hx. rewrite waiter_run_lookup_ne by lia.
  by rewrite registered_waiter_callback, lookup_total_app_l.
Qed.

Lemma calls_same_lookup w w' args L :
  Forall (fun x => waiter_callback w' !!! x = waiter_callback w !!! x) L ->
  flat_map (fun x => calls_of (waiter_callback w' !!! x) args) L
  = flat_map (fun x => calls_of (waiter_callback w !!! x) args) L.
Proof. induction 1 as [|x L Hx _ IH]; [done|]. simpl. by rewrite Hx, IH. Qed.

Lemma live_waiters_same_lookup w' w L :
  Forall (fun x => waiter_callback w' !!! x = waiter_callback w !!! x) L ->
  live_waiters w' L = live_waiters w L.
Proof.
  unfold live_waiters, expired. induction 1 as [|x L Hx _ IH]; [done|].
  by rewrite !filter_cons, IH, Hx.
Qed.

(** ** [set], [clear] and [wait] *)

Lemma event_set_spec_live e w :
  Event.set e w
  = (Return tt, Event.mk (Condition.mk []) true,
     AsyncResult.run_all
       (live_waiters w (Condition.waiters (Event.condition e))) [] w).
Proof.
  unfold Event.set. unfold_M. simpl. by rewrite notify_all_spec.
Qed.

Lemma event_wait_spec callback timeout e w :
  callable callback = true ->
  Event.wait callback timeout e w
  = if Event._flag e
    then (Return tt, e, set_loop_callbacks (fun l => l ++ [Partial callback []]) w)
    else (Return tt,
          Event.mk (Condition.mk (Condition.waiters (Event.condition e)
                                  ++ [length (waiter_callback w)])) false,
          registered timeout [] callback w).
Proof.
  intros Hc. unfold Event.wait. unfold_M. simpl.
  destruct (Event._flag e) eqn:Hf.
  - rewrite (callable_truthy _ Hc), Hc. simpl. by destruct e.
  - rewrite condition_wait_spec by done. simpl. by rewrite Hf.
Qed.

Lemma event_step_inv a st : event_inv st -> event_inv (event_step a st).
Proof.
  destruct st as [e w]. intros [Hok Hflag]. unfold event_inv in *. simpl in *.
  destruct a as [| |cb t|ev]; simpl.
  - unfold after. simpl. rewrite event_set_spec_live. simpl.
    split; [|done]. split; [apply NoDup_nil_2|apply Forall_nil_2].
  - unfold after, Event.clear. unfold_M. simpl. by split.
  - unfold after. simpl. destruct (callable cb) eqn:Hc.
    + rewrite event_wait_spec by done. destruct (Event._flag e) eqn:Hf; simpl.
      * rewrite Hf. split; [|done]. destruct Hok. by split.
      * split; [|done]. apply waiters_ok_new; [|done].
        rewrite registered_waiter_callback, length_app. simpl. lia.
    + unfold Event.wait, Condition.wait. unfold_M. rewrite Hc. simpl.
      destruct (Event._flag e) eqn:Hf; simpl; destruct (truthy cb); simpl;
        rewrite ?Hf; by split.
  - split; [|done]. destruct Hok. split; [done|]. by rewrite loop_step_length.
Qed.

Lemma event_reachable_inv st : event_reachable st -> event_inv st.
Proof.
  induction 1 as [w|a st _ IH].
  - split; [|done]. split; [apply NoDup_nil_2|apply Forall_nil_2].
  - by apply event_step_inv.
Qed.

Lemma waiting_event_reachable : event_reachable waiting_event_state.
Proof. unfold waiting_event_state. do 2 apply event_reach_step. constructor. Qed.



(** X5. [Event.wait(cb, timeout)] with a callable [cb] never calls [cb]
    within the call.  On a set event it parks nothing and arms no timer,
    whatever the timeout: [cb] is scheduled and runs on the next turn,
    after what was scheduled before.  On a clear event the new waiter is the
    last of the live waiters and nothing is scheduled. *)
Theorem event_wait (st : Event.t * World) (cb : pyval) (timeout : option Z) :
  event_reachable st ->
  callable cb = true ->
  let st' := after (Event.wait cb timeout) st in
  result (Event.wait cb timeout) st = Return tt /\
  trace st'.2 = trace st.2 /\
  (Event._flag st.1 = true ->
     st'.1 = st.1 /\
     loop_timeouts st'.2 = loop_timeouts st.2 /\
     loop_callbacks st'.2 = loop_callbacks st.2 ++ [Partial cb []] /\
     trace (run_turn st'.2) = trace (run_turn st.2) ++ calls_of cb []) /\
  (Event._flag st.1 = false ->
     Event._flag st'.1 = false /\
     live_waiters st'.2 (Condition.waiters (Event.condition st'.1))
     = live_waiters st.2 (Condition.waiters (Event.condition st.1))
       ++ [length (waiter_callback st.2)] /\
     waiter_callback st'.2 !!! length (waiter_callback st.2) = cb /\
     loop_callbacks st'.2 = loop_callbacks st.2 /\
     loop_timeouts st'.2
     = loop_timeouts st.2
       ++ (if bool_decide (timeout <> None)
           then [WaiterRun (length (waiter_callback st.2)) []] else [])).
Proof.
  intros Hreach Hc. destruct (event_reachable_inv st Hreach) as [[_ Hlt] _].
  destruct st as [e w]. unfold result, after. cbn [fst snd] in *.
  rewrite event_wait_spec by done.
  destruct (Event._flag e) eqn:Hf; cbn [fst snd].
  - split_and!; [done..| |intros; done].
    intros _. split_and!; [done..|].
    rewrite run_turn_scheduled. simpl. apply run_callback_trace.
  - split_and!; [done|apply registered_trace|intros; done|].
    intros _. cbn [Event._flag Event.condition Condition.waiters].
    split_and!; [done| | | |].
    + by apply registered_live.
    + apply registered_lookup_new.
    + apply registered_loop_callbacks.
    + apply registered_loop_timeouts.
Qed.

Lemma event_wait_witness :
  event_reachable waiting_event_state /\
  callable (VUser 2 false) = true /\
  trace (after (Event.wait (VUser 2 false) None) waiting_event_state).2 = [].
Proof.
  split; [exact waiting_event_reachable|]. split; [reflexivity|].
  apply (event_wait waiting_event_state (VUser 2 false) None
           waiting_event_reachable). reflexivity.
Defined.

(** X6. A [wait(cb, timeout)] on a clear event whose timer fires: [cb] is
    called once, without arguments, while [is_set()] is still false, which
    tells the timeout from a [set()]; the other waiters are not affected,
    and a later [set()] calls them and does not call [cb] again. *)
Theorem event_wait_timeout (st : Event.t * World) (cb : pyval) (t : Z) :
  event_reachable st ->
  callable cb = true ->
  Event._flag st.1 = false ->
  let ws := live_waiters st.2 (Condition.waiters (Event.condition st.1)) in
  let st1 := after (Event.wait cb (Some t)) st in
  let timed_out := (st1.1, fire_timeout (length (loop_timeouts st.2)) st1.2) in
  trace timed_out.2 = trace st.2 ++ calls_of cb [] /\
  result Event.is_set timed_out = Return false /\
  live_waiters timed_out.2 (Condition.waiters (Event.condition timed_out.1)) = ws /\
  trace (after Event.set timed_out).2
  = trace timed_out.2
    ++ flat_map (fun x => calls_of (waiter_callback st.2 !!! x) []) ws.
Proof.
  intros Hreach Hc Hf. destruct (event_reachable_inv st Hreach) as [[Hnd Hlt] _].
  destruct st as [e w]. unfold result, after. cbn [fst snd] in *.
  rewrite event_wait_spec by done. rewrite Hf. cbn [fst snd].
  rewrite fire_registered.
  assert (live_waiters
            (waiter_run (length (waiter_callback w)) []
               (registered None [] cb w))
            (Condition.waiters (Event.condition e) ++ [length (waiter_callback w)])
          = live_waiters w (Condition.waiters (Event.condition e))) as Hlive
    by (by apply run_registered_live).
  split_and!.
  - by apply run_registered_trace.
  - done.
  - done.
  - rewrite event_set_spec_live. cbn [fst snd Event.condition Condition.waiters].
    rewrite Hlive.
    set (L := live_waiters w (Condition.waiters (Event.condition e))).
    assert (Forall (fun x => waiter_callback
                       (waiter_run (length (waiter_callback w)) []
                          (registered None [] cb w)) !!! x
                     = waiter_callback w !!! x) L) as Hsame.
    { apply Forall_forall. intros x Hx. apply run_registered_lookup.
      apply list_elem_of_filter in Hx as [_ Hx].
      rewrite Forall_forall in Hlt. by apply Hlt. }
    rewrite run_all_live_trace.
    + f_equal. by apply calls_same_lookup.
    + by apply NoDup_filter.
    + rewrite (live_waiters_same_lookup _ w) by done. apply live_waiters_fixed.
Qed.

Lemma event_wait_timeout_witness :
  event_reachable waiting_event_state /\
  callable (VUser 2 false) = true /\
  Event._flag waiting_event_state.1 = false /\
  trace (fire_timeout (length (loop_timeouts waiting_event_state.2))
           (after (Event.wait (VUser 2 false) (Some 5%Z)) waiting_event_state).2)
  = [(2, [])].
Proof.
  split; [exact waiting_event_reachable|]. split; [reflexivity|].
  split; [reflexivity|].
  apply (event_wait_timeout waiting_event_state (VUser 2 false) 5
           waiting_event_reachable); reflexivity.
Defined.

(** * _Waiter *)

Lemma waiter_run_again x args w :
  expired w x = true -> waiter_run x args w = w.
Proof.
  unfold expired, waiter_run. intros H%negb_true_iff. by rewrite H.
Qed.

(** X7. A waiter runs once: however often [run] is called on it, with
    whatever arguments, the world is as after the first call; the callback
    has been called with the arguments of the first call if the waiter had
    not run before, and not at all otherwise. *)
Theorem waiter_runs_once (w : World) (x : nat) (args : list pyval)
    (more : list (list pyval)) :
  let w' := fold_left (fun w a => waiter_run x a w) more (waiter_run x args w) in
  w' = waiter_run x args w /\
  expired w' x = true /\
  trace w'
  = trace w ++ (if expired w x then []
                else calls_of (waiter_callback w !!! x) args).
Proof.
  assert (fold_left (fun w a => waiter_run x a w) more (waiter_run x args w)
          = waiter_run x args w) as ->.
  { induction more as [|a more IH]; [done|]. simpl.
    by rewrite (waiter_run_again x a) by apply waiter_run_expired. }
  split_and!; [done|apply waiter_run_expired|].
  rewrite waiter_run_trace. unfold expired.
  by destruct (truthy (waiter_callback w !!! x)).
Qed.

(** * Queue: the effect of [put] and [get], and JoinableQueue *)

Lemma put_spec_all item q w :
  exists q', Queue._put item q w = (Return tt, q', w) /\ same_waiters q q' /\
     length (Queue.queue q') = S (length (Queue.queue q)) /\
     counted q q' /\ stored item q q'.
Proof.
  unfold Queue._put, counted, stored, is_joinable.
  destruct q as [c m g p s u f]; destruct c; simpl.
  all: cbv [mbind M_bind self modify Queue.set_queue Queue.on_finished on
            Event.clear Queue.set_unfinished_tasks Queue.set_finished]; simpl.
  all: eexists; split; [reflexivity|]; split; [done|]; simpl.
  all: rewrite ?heappush_length, ?length_app; simpl; split_and!; try done; lia.
Qed.

Lemma get_cases_all q w :
  (exists item q', Queue._get q w = (Return item, q', w) /\ same_waiters q q' /\
     S (length (Queue.queue q')) = length (Queue.queue q) /\
     same_tasks q q' /\ taken item q q')
  \/ (Queue.queue q = [] /\ Queue._get q w = (Raise IndexError, q, w)).
Proof.
  destruct (decide (Queue.queue q = [])) as [H|H].
  { right. split; [done|]. by apply get_empty. }
  left. unfold Queue._get, taken, same_tasks.
  destruct q as [c m g p s u f]; simpl in *.
  destruct c; cbv [mbind M_bind self modify Queue.set_queue]; simpl.
  - destruct s; [done|]. eexists _, _. split; [done|]. by split.
  - destruct (heappop_length s H) as (i & h & -> & Hl).
    eexists _, _. split; [done|]. by split.
  - destruct (last s) eqn:Hl; [|by apply last_None in Hl].
    eexists _, _. split; [done|]. split; [done|]. simpl.
    split_and!; try done. by apply removelast_length.
  - destruct s; [done|]. eexists _, _. split; [done|]. by split.
Qed.

Ltac use_specs_all :=
  repeat match goal with
  | H : Queue._put ?i ?q ?w = _ |- _ =>
      let E := fresh "Eput" in
      destruct (put_spec_all i q w) as (? & E & ? & ? & ? & ?); rewrite E in H; clear E;
      simplify_eq
  | H : Queue._get ?q ?w = _ |- _ =>
      let E := fresh "Eget" in
      destruct (get_cases_all q w) as [(? & ? & E & ? & ? & ? & ?)|[? E]];
      rewrite E in H; clear E; simplify_eq
  | |- context [Queue._get ?q ?w] =>
      let E := fresh "Eget" in
      destruct (get_cases_all q w) as [(? & ? & E & ? & ? & ? & ?)|[? E]];
      rewrite E; clear E; simpl
  | |- context [Queue._put ?i ?q ?w] =>
      let E := fresh "Eput" in
      destruct (put_spec_all i q w) as (? & E & ? & ? & ? & ?); rewrite E; clear E; simpl
  end.

Lemma put_store item callback timeout q w :
  length (waiter_callback w)
  <= length (waiter_callback (Queue.put item callback timeout q w).2).
Proof.
  unfold Queue.put. unfold_M. simpl.
  repeat case_match; simplify_eq/=.
  all: use_specs_all; try done.
  all: rewrite ?waiter_run_length, ?run_callback_waiter_callback, ?length_app; try lia.
  all: repeat case_match; simplify_eq/=; rewrite ?waiter_run_length, ?run_callback_waiter_callback, ?length_app; try lia.
Qed.

Lemma drop_expired_putters_suffix w l : Queue.drop_expired_putters w l `suffix_of` l.
Proof.
  induction l as [|[i x] l IH]; simpl; [done|].
  case_match; [by apply suffix_cons_r|done].
Qed.

Ltac world_lengths :=
  rewrite ?waiter_run_length, ?run_callback_waiter_callback, ?length_app;
  simpl; try lia.

Ltac shape :=
  unfold same_waiters, counted, same_tasks, is_joinable in *; simpl in *;
  destruct_and?;
  repeat match goal with
  | H : context [match Queue.cls ?q with _ => _ end] |- _ =>
      destruct (Queue.cls q) eqn:?; destruct_and?
  end;
  repeat match goal with
  | H : drop_expired ?w ?l = _ |- _ =>
      pose proof (drop_expired_suffix w l); rewrite H in *; clear H
  | H : Queue.drop_expired_putters ?w ?l = _ |- _ =>
      pose proof (drop_expired_putters_suffix w l); rewrite H in *; clear H
  end;
  repeat match goal with
  | H : Queue.maxsize ?t = _ |- _ => is_var t; rewrite H in *; clear H
  | H : Queue.getters ?t = _ |- _ => is_var t; rewrite H in *; clear H
  | H : Queue.putters ?t = _ |- _ => is_var t; rewrite H in *; clear H
  | H : Queue.cls ?t = _ |- _ => is_var t; rewrite H in *; clear H
  | H : Queue._finished ?t = _ |- _ => is_var t; rewrite H in *; clear H
  | H : Queue.unfinished_tasks ?t = _ |- _ => is_var t; rewrite H in *; clear H
  end;
  simpl in *;
  split_and?; world_lengths; try done;
  try solve [apply drop_expired_suffix | apply drop_expired_putters_suffix
            | by eapply suffix_cons_l
            | by left | right; split; [done|world_lengths]
            ].

Lemma put_shape item callback timeout q w :
  let q' := (Queue.put item callback timeout q w).1.2 in
  let w' := (Queue.put item callback timeout q w).2 in
  Queue.cls q' = Queue.cls q /\ Queue.maxsize q' = Queue.maxsize q /\
  Queue.getters q' `suffix_of` Queue.getters q /\
  (Queue.putters q' = Queue.putters q \/
   Queue.putters q' = Queue.putters q ++ [(item, length (waiter_callback w))] /\
   length (waiter_callback w') = S (length (waiter_callback w))) /\
  Event.condition (Queue._finished q') = Event.condition (Queue._finished q).
Proof.
  unfold Queue.put. unfold_M. simpl.
  repeat case_match; simplify_eq/=.
  all: use_specs_all; try done.
  all: shape.
Qed.

Lemma get_shape callback timeout q w :
  let q' := (Queue.get callback timeout q w).1.2 in
  let w' := (Queue.get callback timeout q w).2 in
  Queue.cls q' = Queue.cls q /\ Queue.maxsize q' = Queue.maxsize q /\
  Queue.putters q' `suffix_of` Queue.putters q /\
  (Queue.getters q' = Queue.getters q \/
   Queue.getters q' = Queue.getters q ++ [length (waiter_callback w)] /\
   length (waiter_callback w') = S (length (waiter_callback w))) /\
  Event.condition (Queue._finished q') = Event.condition (Queue._finished q) /\
  length (waiter_callback w) <= length (waiter_callback w').
Proof.
  unfold Queue.get. unfold_M. simpl.
  repeat case_match; simplify_eq/=.
  all: use_specs_all; try done.
  all: shape.
Qed.

Lemma task_done_spec q w :
  Queue.task_done q w
  = if (Queue.unfinished_tasks q <=? 0)%Z then (Raise ValueError, q, w)
    else if (Queue.unfinished_tasks q - 1 =? 0)%Z
    then (Return tt,
          Queue.set_finished (Event.mk (Condition.mk []) true)
            (Queue.set_unfinished_tasks (fun n => n - 1)%Z q),
          AsyncResult.run_all (live_waiters w (joiners q)) [] w)
    else (Return tt, Queue.set_unfinished_tasks (fun n => n - 1)%Z q, w).
Proof.
  unfold Queue.task_done, joiners. unfold_M. simpl.
  destruct (Queue.unfinished_tasks q <=? 0)%Z; simpl; [done|].
  destruct (Queue.unfinished_tasks q - 1 =? 0)%Z; simpl; [|done].
  by rewrite event_set_spec_live.
Qed.

Lemma join_spec callback timeout q w :
  callable callback = true ->
  Queue.join callback timeout q w
  = if (Queue.unfinished_tasks q =? 0)%Z
    then (Return tt, q, set_loop_callbacks (fun l => l ++ [Partial callback []]) w)
    else if Event._flag (Queue._finished q)
    then (Return tt, q, set_loop_callbacks (fun l => l ++ [Partial callback []]) w)
    else (Return tt,
          Queue.set_finished
            (Event.mk (Condition.mk (joiners q ++ [length (waiter_callback w)])) false) q,
          registered timeout [] callback w).
Proof.
  intros Hc. unfold Queue.join, joiners. unfold_M. simpl.
  destruct (Queue.unfinished_tasks q =? 0)%Z; simpl.
  - rewrite (callable_truthy _ Hc), Hc. simpl. by destruct q.
  - rewrite event_wait_spec by done. destruct q as [c m g p s u [cd f]]; simpl.
    destruct f; simpl; [done|]. done.
Qed.

Lemma join_not_callable callback timeout q w :
  callable callback = false ->
  Queue.join callback timeout q w
  = if truthy callback || negb (Queue.unfinished_tasks q =? 0)%Z
         && negb (Event._flag (Queue._finished q))
    then (Raise TypeError, q, w) else (Return tt, q, w).
Proof.
  intros Hc. unfold Queue.join, Event.wait, Condition.wait. unfold_M. simpl.
  rewrite Hc. destruct q as [c m g p s u [cd f]]; simpl.
  destruct (u =? 0)%Z, (truthy callback), f; simpl; try done.
  all: by destruct cd.
Qed.

Lemma waiters_ok_nil w : waiters_ok w [].
Proof. split; [apply NoDup_nil_2|apply Forall_nil_2]. Qed.

Lemma waiters_ok_mono w w' ws :
  length (waiter_callback w) <= length (waiter_callback w') ->
  waiters_ok w ws -> waiters_ok w' ws.
Proof. by apply waiters_ok_suffix. Qed.

Lemma queue_step_waiters_ok a st :
  queue_waiters_ok st -> queue_waiters_ok (queue_step a st).
Proof.
  destruct st as [q w]. intros (Hg & Hp & Hj). unfold queue_waiters_ok in *.
  simpl in *. destruct a as [item cb t|cb t| |cb t|ev]; simpl.
  - pose proof (put_shape item cb t q w) as (_ & _ & Hsuf & Hput & Hfin).
    pose proof (put_store item cb t q w) as Hlen. unfold after. simpl in *.
    destruct (Queue.put item cb t q w) as [[r q'] w']. simpl in *.
    unfold joiners. rewrite Hfin. split_and!.
    + by eapply waiters_ok_suffix.
    + destruct Hput as [Hput|[Hput Hnew]]; rewrite Hput;
        [by eapply waiters_ok_mono|].
      rewrite map_app. simpl. by apply waiters_ok_new.
    + by eapply waiters_ok_mono.
  - pose proof (get_shape cb t q w) as (_ & _ & Hsuf & Hget & Hfin & Hlen).
    unfold after. simpl in *.
    destruct (Queue.get cb t q w) as [[r q'] w']. simpl in *.
    unfold joiners. rewrite Hfin. split_and!.
    + destruct Hget as [Hget|[Hget Hnew]]; rewrite Hget;
        [by eapply waiters_ok_mono|].
      by apply waiters_ok_new.
    + destruct Hsuf as [k Hsuf]. rewrite Hsuf, map_app in Hp.
      apply (waiters_ok_suffix w w' (map snd k ++ map snd (Queue.putters q')));
        [by eexists|done|done].
    + by eapply waiters_ok_mono.
  - destruct (is_joinable q); [|done]. unfold after. simpl.
    rewrite task_done_spec. repeat case_match; simpl; try done.
    split_and!; try apply waiters_ok_nil.
    all: eapply waiters_ok_mono; [|done]; by rewrite run_all_length.
  - destruct (is_joinable q); [|done]. unfold after. simpl.
    destruct (callable cb) eqn:Hc.
    + rewrite join_spec by done. repeat case_match; simpl; try done.
      assert (length (waiter_callback (registered t [] cb w))
              = S (length (waiter_callback w))) as Hnew.
      { rewrite registered_waiter_callback, length_app. simpl. lia. }
      split_and!; [eapply waiters_ok_mono; [|done]; lia..|].
      unfold joiners. simpl. by apply waiters_ok_new.
    + rewrite join_not_callable by done. by case_match.
  - split_and!; (eapply waiters_ok_mono; [|done]); by rewrite loop_step_length.
Qed.

Lemma queue_reachable_waiters_ok st : queue_reachable st -> queue_waiters_ok st.
Proof.
  induction 1 as [c maxsize w q w' Hinit|a st _ IH].
  - unfold Queue.__init__, construct in Hinit. unfold_M. simpl in Hinit.
    assert (Queue.getters q = [] /\ Queue.putters q = [] /\ joiners q = [])
      as (Hg & Hp & Hj).
    { destruct maxsize as [m|]; simpl in *; [destruct (m <? 0)%Z; simpl in *; [done|]|].
      all: destruct c; simpl in *; repeat case_match; simplify_eq/=; try done.
      all: rewrite event_set_spec_live in *; simplify_eq/=; done. }
    unfold queue_waiters_ok. simpl. rewrite Hg, Hp, Hj. simpl.
    split_and!; apply waiters_ok_nil.
  - by apply queue_step_waiters_ok.
Qed.

Lemma put_tasks item callback timeout q w :
  queue_inv q ->
  let q' := (Queue.put item callback timeout q w).1.2 in
  (drop_expired w (Queue.getters q) <> [] \/ has_room q = true -> counted q q') /\
  (drop_expired w (Queue.getters q) = [] /\ has_room q = false -> same_tasks q q').
Proof.
  intros Hinv. unfold Queue.put. unfold_M. simpl.
  repeat case_match; simplify_eq/=.
  all: use_specs_all; try done.
  all: split; [intros [?|?]|intros [? ?]]; try done.
  all: first [ solve [shape] | solve [exfalso; finish_inv] ].
Qed.

Lemma get_tasks callback timeout q w :
  queue_inv q ->
  let q' := (Queue.get callback timeout q w).1.2 in
  (Queue.drop_expired_putters w (Queue.putters q) <> [] -> counted q q') /\
  (Queue.drop_expired_putters w (Queue.putters q) = [] -> same_tasks q q').
Proof.
  intros Hinv. unfold Queue.get. unfold_M. simpl.
  repeat case_match; simplify_eq/=.
  all: use_specs_all; try done.
  all: split; intros ?; try done.
  all: first [ solve [shape] | solve [exfalso; finish_inv] | idtac ].
  exfalso. finish_inv.
  match goal with
  | H : (if (?m =? 0)%Z then true else _) = false |- _ =>
      destruct (Z.eqb_spec m 0); [done|apply Z.eqb_neq in H]
  end; intuition (simplify_eq; lia).
Qed.

Lemma queue_step_cls a st : Queue.cls (queue_step a st).1 = Queue.cls st.1.
Proof.
  destruct st as [q w]. destruct a as [item cb t|cb t| |cb t|ev]; simpl.
  - by pose proof (put_shape item cb t q w) as (? & _).
  - by pose proof (get_shape cb t q w) as (? & _).
  - destruct (is_joinable q); [|done]. simpl. rewrite task_done_spec.
    by repeat case_match.
  - destruct (is_joinable q); [|done]. simpl.
    destruct (callable cb) eqn:Hc.
    + rewrite join_spec by done. by repeat case_match.
    + rewrite join_not_callable by done. by case_match.
  - done.
Qed.

Lemma counted_joinable_inv q q' :
  is_joinable q = true -> counted q q' -> joinable_inv q -> joinable_inv q'.
Proof.
  unfold counted, joinable_inv, joiners. intros -> [Hu Hf] (Hpos & Hflag & Hj).
  rewrite Hu, Hf. simpl. split_and!; [lia| |done].
  split; [done|lia].
Qed.

Lemma same_tasks_joinable_inv q q' :
  same_tasks q q' -> joinable_inv q -> joinable_inv q'.
Proof.
  unfold same_tasks, joinable_inv, joiners. intros [Hu Hf]. by rewrite Hu, Hf.
Qed.

Lemma joinable_step_inv a st :
  queue_inv st.1 -> is_joinable st.1 = true ->
  joinable_inv st.1 -> joinable_inv (queue_step a st).1.
Proof.
  destruct st as [q w]. simpl. intros Hinv Hcls Hj.
  destruct a as [item cb t|cb t| |cb t|ev]; simpl.
  - destruct (put_tasks item cb t q w Hinv) as [Hc Hs].
    destruct (drop_expired w (Queue.getters q)) eqn:Hd;
      [destruct (has_room q) eqn:Hr|].
    + eapply counted_joinable_inv; [done| |done]. apply Hc. by right.
    + eapply same_tasks_joinable_inv; [|done]. by apply Hs.
    + eapply counted_joinable_inv; [done| |done]. apply Hc. by left.
  - destruct (get_tasks cb t q w Hinv) as [Hc Hs].
    destruct (Queue.drop_expired_putters w (Queue.putters q)) eqn:Hd.
    + eapply same_tasks_joinable_inv; [|done]. by apply Hs.
    + eapply counted_joinable_inv; [done| |done]. by apply Hc.
  - rewrite Hcls. simpl. rewrite task_done_spec.
    destruct Hj as (Hpos & Hflag & Hjn).
    destruct (Z.leb_spec (Queue.unfinished_tasks q) 0); [done|].
    destruct (Z.eqb_spec (Queue.unfinished_tasks q - 1) 0) as [He|He];
      unfold joinable_inv, joiners; simpl.
    + split_and!; [lia|done|done].
    + split_and!; [lia| |done]. split; [|lia]. intros Hf%Hflag. lia.
  - rewrite Hcls. simpl. destruct (callable cb) eqn:Hc.
    + rewrite join_spec by done. repeat case_match; simpl; try done.
      destruct Hj as (Hpos & Hflag & Hjn).
      unfold joinable_inv, joiners; simpl. split_and!; [done| |done].
      split; [done|]. intros Hu. apply Hflag in Hu. congruence.
    + rewrite join_not_callable by done. by case_match.
  - done.
Qed.

Lemma queue_reachable_joinable_inv st :
  queue_reachable st -> is_joinable st.1 = true -> joinable_inv st.1.
Proof.
  induction 1 as [c maxsize w q w' Hinit|a st Hreach IH]; intros Hcls.
  - unfold Queue.__init__, construct in Hinit. unfold_M. simpl in *.
    destruct maxsize as [m|]; simpl in *; [destruct (m <? 0)%Z; simpl in *; [done|]|].
    all: destruct c; simpl in *; repeat case_match; simplify_eq/=; try done.
    all: rewrite event_set_spec_live in *; simplify_eq/=; by split_and!.
  - pose proof (queue_step_cls a st) as Hsame.
    assert (is_joinable st.1 = true) as Hcls'.
    { unfold is_joinable in *. by rewrite <- Hsame. }
    apply joinable_step_inv; [by apply queue_reachable_inv|done|by apply IH].
Qed.

Lemma pending_join_reachable : queue_reachable pending_join_state.
Proof.
  unfold pending_join_state. do 2 apply queue_reach_step.
  by apply (queue_reach_init Queue.ClsJoinableQueue None new_world).
Qed.

(** X8. The accounting of a [JoinableQueue], in every state of every
    history: [unfinished_tasks] is never negative, the event [_finished] is
    set exactly when it is zero, and nobody is left waiting in [join] while
    it is zero. *)
Theorem joinable_accounting (st : Queue.t * World) :
  queue_reachable st ->
  is_joinable st.1 = true ->
  (0 <= Queue.unfinished_tasks st.1)%Z /\
  (result (Queue.on_finished Event.is_set) st = Return true
   <-> Queue.unfinished_tasks st.1 = 0%Z) /\
  (Queue.unfinished_tasks st.1 = 0%Z -> joiners st.1 = []).
Proof.
  intros Hreach Hcls.
  destruct (queue_reachable_joinable_inv st Hreach Hcls) as (Hpos & Hflag & Hj).
  split_and!; [done| |].
  - unfold result, Event.is_set. unfold_M. simpl. rewrite <- Hflag.
    split; [by intros [= ->]|by intros ->].
  - intros Hu. by apply Hj, Hflag.
Qed.

Lemma joinable_accounting_witness :
  queue_reachable pending_join_state /\
  is_joinable pending_join_state.1 = true /\
  (0 <= Queue.unfinished_tasks pending_join_state.1)%Z.
Proof.
  split; [exact pending_join_reachable|]. split; [reflexivity|].
  apply (joinable_accounting pending_join_state pending_join_reachable).
  reflexivity.
Defined.

(** X9. [task_done()] on a [JoinableQueue] raises [ValueError] and
    changes nothing when no task is unfinished; otherwise it returns and
    takes one off the counter, leaving the storage, the getters and the
    putters alone.  The call that brings the counter to zero calls, before
    it returns, the callback of every live waiter of [join], in registration
    order and without arguments; a call that leaves tasks unfinished calls
    nobody. *)
Theorem task_done_accounting (st : Queue.t * World) :
  queue_reachable st ->
  is_joinable st.1 = true ->
  let n := Queue.unfinished_tasks st.1 in
  let st' := after Queue.task_done st in
  (n = 0%Z -> result Queue.task_done st = Raise ValueError /\ st' = st) /\
  (n <> 0%Z ->
     result Queue.task_done st = Return tt /\
     Queue.unfinished_tasks st'.1 = (n - 1)%Z /\
     Queue.queue st'.1 = Queue.queue st.1 /\
     Queue.getters st'.1 = Queue.getters st.1 /\
     Queue.putters st'.1 = Queue.putters st.1) /\
  (n = 1%Z ->
     joiners st'.1 = [] /\
     trace st'.2
     = trace st.2
       ++ flat_map (fun x => calls_of (waiter_callback st.2 !!! x) [])
            (live_waiters st.2 (joiners st.1)) /\
     Forall (fun x => expired st'.2 x = true) (joiners st.1)) /\
  (n <> 1%Z -> st'.2 = st.2 /\ joiners st'.1 = joiners st.1).
Proof.
  intros Hreach Hcls.
  destruct (queue_reachable_joinable_inv st Hreach Hcls) as (Hpos & Hflag & Hj).
  destruct (queue_reachable_waiters_ok st Hreach) as (_ & _ & [Hnd Hlt]).
  destruct st as [q w]. unfold result, after. cbn [fst snd] in *.
  rewrite task_done_spec.
  destruct (Z.leb_spec (Queue.unfinished_tasks q) 0) as [Hle|Hlt0];
    [|destruct (Z.eqb_spec (Queue.unfinished_tasks q - 1) 0) as [He|He]];
    cbn [fst snd].
  - split_and!; [by destruct q|intros; lia|intros; lia|done].
  - split_and!; [intros; lia|done| |intros; lia].
    intros _. unfold joiners at 1. simpl. split_and!; [done| |].
    + apply run_all_live_trace; [by apply NoDup_filter|apply live_waiters_fixed].
    + apply Forall_forall. intros x Hx.
      destruct (expired w x) eqn:Hexp; [by apply run_all_expired_mono|].
      pose proof (run_all_expired [] (live_waiters w (joiners q)) w) as Hall.
      rewrite Forall_forall in Hall. apply Hall.
      apply list_elem_of_filter. by split.
  - split_and!; [intros; lia|done|intros; lia|done].
Qed.

Lemma task_done_accounting_witness :
  queue_reachable pending_join_state /\
  is_joinable pending_join_state.1 = true /\
  Queue.unfinished_tasks pending_join_state.1 = 1%Z /\
  trace (after Queue.task_done pending_join_state).2 = [(0, [])].
Proof.
  split; [exact pending_join_reachable|]. split; [reflexivity|].
  split; [reflexivity|].
  apply (task_done_accounting pending_join_state pending_join_reachable);
    reflexivity.
Defined.

Lemma one_task_reachable : queue_reachable one_task_state.
Proof.
  unfold one_task_state. apply queue_reach_step.
  by apply (queue_reach_init Queue.ClsJoinableQueue None new_world).
Qed.

Lemma joiners_set_finished e q :
  joiners (Queue.set_finished e q) = Condition.waiters (Event.condition e).
Proof. done. Qed.

(** X10. [join(cb, timeout)] with a callable [cb] returns without calling
    [cb].  With no unfinished task it parks nothing and arms no timer:
    [cb] runs on the next turn.  Otherwise the counter is unchanged, the
    new waiter is the last live waiter of [join], nothing is scheduled, and
    a timer is armed exactly when a timeout is given; if one task is
    unfinished, the next [task_done()] calls the earlier waiters and then
    [cb], within that call. *)
Theorem join_waits_for_tasks (st : Queue.t * World) (cb : pyval)
    (timeout : option Z) :
  queue_reachable st ->
  is_joinable st.1 = true ->
  callable cb = true ->
  let n := Queue.unfinished_tasks st.1 in
  let new := length (waiter_callback st.2) in
  let st' := after (Queue.join cb timeout) st in
  result (Queue.join cb timeout) st = Return tt /\
  trace st'.2 = trace st.2 /\
  (n = 0%Z ->
     st'.1 = st.1 /\
     loop_timeouts st'.2 = loop_timeouts st.2 /\
     loop_callbacks st'.2 = loop_callbacks st.2 ++ [Partial cb []] /\
     trace (run_turn st'.2) = trace (run_turn st.2) ++ calls_of cb []) /\
  (n <> 0%Z ->
     Queue.unfinished_tasks st'.1 = n /\
     live_waiters st'.2 (joiners st'.1) = live_waiters st.2 (joiners st.1) ++ [new] /\
     waiter_callback st'.2 !!! new = cb /\
     loop_callbacks st'.2 = loop_callbacks st.2 /\
     loop_timeouts st'.2
     = loop_timeouts st.2
       ++ (if bool_decide (timeout <> None) then [WaiterRun new []] else [])) /\
  (n = 1%Z ->
     trace (after Queue.task_done st').2
     = trace st.2
       ++ flat_map (fun x => calls_of (waiter_callback st.2 !!! x) [])
            (live_waiters st.2 (joiners st.1))
       ++ calls_of cb []).
Proof.
  intros Hreach Hcls Hc.
  destruct (queue_reachable_joinable_inv st Hreach Hcls) as (Hpos & Hflag & Hj).
  destruct (queue_reachable_waiters_ok st Hreach) as (_ & _ & [Hnd Hlt]).
  destruct st as [q w]. unfold result, after. cbn [fst snd] in *.
  rewrite join_spec by done.
  destruct (Z.eqb_spec (Queue.unfinished_tasks q) 0) as [He|He]; cbn [fst snd].
  - split_and!; [done..| |intros; done|intros; lia].
    intros _. split_and!; [done..|].
    rewrite run_turn_scheduled. simpl. apply run_callback_trace.
  - destruct (Event._flag (Queue._finished q)) eqn:Hf;
      [by destruct Hflag as [Hflag _]; specialize (Hflag eq_refl)|].
    cbn [fst snd].
    split_and!; [done|apply registered_trace|intros; done| |].
    + intros _. rewrite joiners_set_finished.
      cbn [Event.condition Condition.waiters Queue.unfinished_tasks
           Queue.set_finished].
      split_and!; [done| | | |].
      * exact (registered_live timeout [] cb w (joiners q) Hc Hlt).
      * apply registered_lookup_new.
      * apply registered_loop_callbacks.
      * apply registered_loop_timeouts.
    + intros Hone. rewrite task_done_spec.
      cbn [Queue.unfinished_tasks Queue.set_finished]. rewrite Hone.
      change (1 <=? 0)%Z with false. change (1 - 1 =? 0)%Z with true.
      cbn [fst snd].
      rewrite joiners_set_finished. cbn [Event.condition Condition.waiters].
      rewrite registered_live by done.
      rewrite run_all_live_trace.
      * rewrite registered_trace, flat_map_app. cbn [flat_map].
        rewrite registered_lookup_new, app_nil_r. do 2 f_equal.
        apply calls_same_lookup, Forall_forall. intros x Hx.
        rewrite registered_waiter_callback, lookup_total_app_l; [done|].
        apply list_elem_of_filter in Hx as [_ Hx].
        rewrite Forall_forall in Hlt. by apply Hlt.
      * apply NoDup_app. split_and!; [by apply NoDup_filter| |apply NoDup_singleton].
        intros x [_ Hx]%list_elem_of_filter ->%list_elem_of_singleton.
        rewrite Forall_forall in Hlt. apply Hlt in Hx. lia.
      * rewrite <- (registered_live timeout [] cb) by done.
        apply live_waiters_fixed.
Qed.

Lemma join_waits_for_tasks_witness :
  queue_reachable one_task_state /\
  is_joinable one_task_state.1 = true /\
  callable (VUser 0 false) = true /\
  result (Queue.join (VUser 0 false) None) one_task_state = Return tt.
Proof.
  split; [exact one_task_reachable|]. do 2 (split; [reflexivity|]).
  apply (join_waits_for_tasks one_task_state (VUser 0 false) None
           one_task_reachable); reflexivity.
Defined.

(** X11. [unfinished_tasks] counts the items that enter a [JoinableQueue]:
    [put] adds one exactly when it hands the item to a live getter or
    stores it (not when it parks or raises [Full]), and [get] adds one
    exactly when it admits the item of a live putter; neither ever lowers
    the counter, only [task_done] does. *)
Theorem unfinished_tasks_counts_admissions (st : Queue.t * World)
    (item callback : pyval) (timeout : option Z) :
  queue_reachable st ->
  is_joinable st.1 = true ->
  Queue.unfinished_tasks (after (Queue.put item callback timeout) st).1
  = (Queue.unfinished_tasks st.1
     + (if some_live st.2 (Queue.getters st.1) || has_room st.1 then 1 else 0))%Z /\
  Queue.unfinished_tasks (after (Queue.get callback timeout) st).1
  = (Queue.unfinished_tasks st.1
     + (if some_live st.2 (map snd (Queue.putters st.1)) then 1 else 0))%Z.
Proof.
  intros Hreach Hcls. pose proof (queue_reachable_inv st Hreach) as Hinv.
  destruct st as [q w]. unfold after. cbn [fst snd] in *. split.
  - destruct (put_tasks item callback timeout q w Hinv) as [Hcount Hsame].
    unfold counted, same_tasks in *. rewrite Hcls in Hcount.
    destruct (some_live w (Queue.getters q)) eqn:Hlive; simpl.
    + apply Hcount. left. rewrite drop_expired_nil. congruence.
    + apply drop_expired_nil in Hlive. destruct (has_room q).
      * apply Hcount. by right.
      * rewrite Z.add_0_r. by apply Hsame.
  - destruct (get_tasks callback timeout q w Hinv) as [Hcount Hsame].
    unfold counted, same_tasks in *. rewrite Hcls in Hcount.
    destruct (some_live w (map snd (Queue.putters q))) eqn:Hlive; simpl.
    + apply Hcount. rewrite drop_expired_putters_nil. congruence.
    + apply drop_expired_putters_nil in Hlive. rewrite Z.add_0_r. by apply Hsame.
Qed.

Lemma unfinished_tasks_counts_admissions_witness :
  queue_reachable one_task_state /\
  is_joinable one_task_state.1 = true /\
  Queue.unfinished_tasks
    (after (Queue.put (VInt 2) VNone None) one_task_state).1 = 2%Z.
Proof.
  split; [exact one_task_reachable|]. split; [reflexivity|].
  apply (unfinished_tasks_counts_admissions one_task_state (VInt 2) VNone None
           one_task_reachable). reflexivity.
Defined.

(** * Queue: storage order, rendezvous and timeouts *)

(** ** The storage of a PriorityQueue *)

Lemma heappop_is_heap heap item heap' :
  is_heap heap -> heapq.heappop heap = Some (item, heap') ->
  is_heap heap' /\ heap ≡ₚ item :: heap' /\ Forall (py_le item) heap'.
Proof.
  intros Hheap Hpop. destruct (decide (heap = [])) as [->|Hne]; [done|].
  destruct (heappop_spec heap Hheap Hne) as (i & h & Hpop' & ?).
  rewrite Hpop in Hpop'. by simplify_eq.
Qed.

Ltac heap_steps :=
  unfold stored, taken, same_waiters in *; simpl in *; destruct_and?;
  repeat match goal with
  | H : Queue.cls ?t = _ |- _ => is_var t; rewrite H in *
  end;
  repeat match goal with
  | H : Queue.cls ?q = Queue.ClsPriorityQueue |- _ => rewrite H in *
  end;
  repeat match goal with
  | H : Queue.queue ?t = _ |- _ => is_var t; rewrite H in *; clear H
  end;
  try solve [ by apply heappush_is_heap
            | exfalso; simpl in *; lia
            | match goal with
              | H : heapq.heappop ?h = Some (?a, ?h') |- is_heap ?h' =>
                  apply (heappop_is_heap h a h'); [|exact H];
                  first [done|by apply heappush_is_heap]
              end ].

Lemma put_heap item callback timeout q w :
  Queue.cls q = Queue.ClsPriorityQueue ->
  is_heap (Queue.queue q) ->
  is_heap (Queue.queue (Queue.put item callback timeout q w).1.2).
Proof.
  intros Hcls Hheap. unfold Queue.put. unfold_M. simpl.
  repeat case_match; simplify_eq/=.
  all: use_specs_all; try done.
  all: heap_steps.
Qed.

Lemma get_heap callback timeout q w :
  Queue.cls q = Queue.ClsPriorityQueue ->
  is_heap (Queue.queue q) ->
  is_heap (Queue.queue (Queue.get callback timeout q w).1.2).
Proof.
  intros Hcls Hheap. unfold Queue.get. unfold_M. simpl.
  repeat case_match; simplify_eq/=.
  all: use_specs_all; try done.
  all: heap_steps.
Qed.

Lemma queue_reachable_heap st :
  queue_reachable st -> Queue.cls st.1 = Queue.ClsPriorityQueue ->
  is_heap (Queue.queue st.1).
Proof.
  induction 1 as [c maxsize w q w' Hinit|a st Hreach IH]; intros Hcls.
  - unfold Queue.__init__, construct in Hinit. unfold_M. simpl in *.
    destruct maxsize as [m|]; simpl in *; [destruct (m <? 0)%Z; simpl in *; [done|]|].
    all: destruct c; simpl in *; repeat case_match; simplify_eq/=; try done.
    all: intros k Hk; simpl in Hk; lia.
  - rewrite queue_step_cls in Hcls. specialize (IH Hcls).
    destruct st as [q w]. destruct a as [item cb t|cb t| |cb t|ev]; simpl in *.
    + by apply put_heap.
    + by apply get_heap.
    + unfold is_joinable. by rewrite Hcls.
    + unfold is_joinable. by rewrite Hcls.
    + done.
Qed.

Lemma min_of_heappop heap item heap' :
  is_heap heap -> heapq.heappop heap = Some (item, heap') ->
  heap ≡ₚ item :: heap' /\ Forall (py_le item) heap.
Proof.
  intros Hheap Hpop.
  destruct (heappop_is_heap heap item heap' Hheap Hpop) as (_ & Hperm & Hmin).
  split; [done|]. rewrite Hperm. constructor; [apply py_le_refl|done].
Qed.

Lemma priority_get callback timeout q w :
  Queue.cls q = Queue.ClsPriorityQueue ->
  is_heap (Queue.queue q) -> queue_inv q ->
  truthy callback = false ->
  Queue.queue q ++ admitted w q <> [] ->
  exists v,
    (Queue.get callback timeout q w).1.1 = Return v /\
    Queue.queue q ++ admitted w q ≡ₚ v :: Queue.queue (Queue.get callback timeout q w).1.2 /\
    Forall (py_le v) (Queue.queue q ++ admitted w q).
Proof.
  intros Hcls Hheap Hinv Hc. unfold admitted, Queue.get. unfold_M. simpl.
  rewrite Hc.
  repeat case_match; simplify_eq/=.
  all: use_specs_all; try done.
  all: intros Hne; rewrite ?app_nil_r in *.
  - unfold taken in *. simpl in *. rewrite Hcls in *.
    destruct (min_of_heappop _ _ _ Hheap ltac:(done)) as [Hperm Hmin].
    by exists x.
  - done.
  - exfalso. finish_inv.
  - unfold stored, taken, same_waiters in *. simpl in *. destruct_and?.
    repeat match goal with
    | H : Queue.cls ?t = _ |- _ => is_var t; rewrite H in *
    end; rewrite ?Hcls in *.
    match goal with
    | H : Queue.queue ?t = heapq.heappush _ _ |- _ => rewrite H in *
    end.
    match goal with
    | H : heapq.heappop _ = Some _ |- _ =>
        destruct (min_of_heappop _ _ _ (heappush_is_heap _ p0 Hheap) H)
          as [Hperm Hmin]
    end.
    rewrite heappush_Permutation in Hperm, Hmin.
    exists x. split; [done|]. rewrite <- Permutation_cons_append. by split.
  - exfalso. simpl in *. match goal with H : Queue.queue _ = [] |- _ => rewrite H in * end.
    simpl in *. lia.
  - exfalso. finish_inv.
    match goal with
    | H : (if (?m =? 0)%Z then true else _) = false |- _ =>
        destruct (Z.eqb_spec m 0); [done|apply Z.eqb_neq in H]
    end; intuition (simplify_eq; lia).
Qed.

Lemma priority_state_reachable : queue_reachable priority_state.
Proof.
  unfold priority_state. do 3 apply queue_reach_step.
  by apply (queue_reach_init Queue.ClsPriorityQueue None new_world).
Qed.

(** X12. In every state of every history of a [PriorityQueue] the storage
    is a heap.  A [get()] without callback, when an item is stored or a live
    putter waits, returns a least one among the stored items and the item
    of the oldest live putter, which it admits; the others stay, and the
    storage is a heap again. *)
Theorem priority_get_returns_minimum (st : Queue.t * World)
    (callback : pyval) (timeout : option Z) :
  queue_reachable st ->
  Queue.cls st.1 = Queue.ClsPriorityQueue ->
  truthy callback = false ->
  Queue.queue st.1 ++ admitted st.2 st.1 <> [] ->
  is_heap (Queue.queue st.1) /\
  exists v,
    result (Queue.get callback timeout) st = Return v /\
    Queue.queue st.1 ++ admitted st.2 st.1
      ≡ₚ v :: Queue.queue (after (Queue.get callback timeout) st).1 /\
    Forall (py_le v) (Queue.queue st.1 ++ admitted st.2 st.1) /\
    is_heap (Queue.queue (after (Queue.get callback timeout) st).1).
Proof.
  intros Hreach Hcls Hc Hne.
  pose proof (queue_reachable_heap st Hreach Hcls) as Hheap.
  pose proof (queue_reachable_inv st Hreach) as Hinv.
  split; [done|]. destruct st as [q w]. unfold result, after. simpl in *.
  destruct (priority_get callback timeout q w Hcls Hheap Hinv Hc Hne)
    as (v & Hres & Hperm & Hmin).
  exists v. split_and!; [done..|]. by apply get_heap.
Qed.

Lemma priority_get_returns_minimum_witness :
  queue_reachable priority_state /\
  Queue.cls priority_state.1 = Queue.ClsPriorityQueue /\
  truthy VNone = false /\
  Queue.queue priority_state.1 ++ admitted priority_state.2 priority_state.1 <> [] /\
  is_heap (Queue.queue priority_state.1).
Proof.
  split; [exact priority_state_reachable|]. do 2 (split; [reflexivity|]).
  split; [discriminate|].
  apply (priority_get_returns_minimum priority_state VNone None
           priority_state_reachable); [reflexivity|reflexivity|discriminate].
Defined.

(** ** Rendezvous: [put] while a getter waits *)







(** ** Getters and putters that wait, and their timeouts *)

Lemma live_nil_drop w ws : live_waiters w ws = [] -> drop_expired w ws = [].
Proof.
  intros H. apply drop_expired_nil. unfold some_live, live_waiters in *.
  induction ws as [|x ws IH]; [done|]. rewrite filter_cons in H. simpl.
  case_decide as He; [done|]. apply not_false_is_true in He. rewrite He.
  simpl. by apply IH.
Qed.

Lemma live_nil_drop_putters w ps :
  live_waiters w (map snd ps) = [] -> Queue.drop_expired_putters w ps = [].
Proof.
  intros H. apply drop_expired_putters_nil. unfold some_live, live_waiters in *.
  induction ps as [|[i x] ps IH]; [done|]. simpl in *. rewrite filter_cons in H.
  case_decide as He; [done|]. apply not_false_is_true in He. simpl in He.
  rewrite He. simpl. by apply IH.
Qed.

Lemma get_parks callback timeout q w :
  callable callback = true ->
  Queue.queue q = [] ->
  Queue.drop_expired_putters w (Queue.putters q) = [] ->
  Queue.get callback timeout q w
  = (Return VNone,
     Queue.set_getters (fun l => l ++ [length (waiter_callback w)])
       (Queue.set_putters (Queue.drop_expired_putters w) q),
     registered timeout [VEmpty] callback w).
Proof.
  intros Hc Hq Hp. unfold Queue.get. unfold_M. simpl.
  rewrite Hp. unfold Queue.qsize_of. simpl. rewrite Hq. simpl.
  rewrite (callable_truthy _ Hc), Hc. simpl.
  unfold registered. by destruct (bool_decide (timeout <> None)).
Qed.

Lemma put_stores item callback timeout q w :
  truthy callback = false \/ callable callback = true ->
  drop_expired w (Queue.getters q) = [] ->
  Queue.maxsize_is_qsize q = false ->
  exists q',
    Queue.put item callback timeout q w = (Return tt, q', acknowledged callback w) /\
    length (Queue.queue q') = S (length (Queue.queue q)) /\
    stored item q q' /\ Queue.getters q' = [] /\
    Queue.putters q' = Queue.putters q.
Proof.
  intros Hc Hg Hfull. unfold Queue.put, acknowledged. unfold_M. simpl.
  rewrite Hg. simpl.
  assert (Queue.maxsize_is_qsize (Queue.set_getters (drop_expired w) q) = false)
    as -> by done. simpl.
  destruct (put_spec_all item (Queue.set_getters (drop_expired w) q) w)
    as (q' & -> & (? & ? & Hg' & ?) & ? & ? & ?). simpl in *.
  rewrite Hg in Hg'.
  destruct Hc as [Hc|Hc].
  - rewrite Hc. by eexists.
  - rewrite (callable_truthy _ Hc), Hc. simpl. by eexists.
Qed.

Lemma put_parks item callback timeout q w :
  callable callback = true ->
  drop_expired w (Queue.getters q) = [] ->
  Queue.maxsize_is_qsize q = true ->
  Queue.put item callback timeout q w
  = (Return tt,
     Queue.set_putters (fun l => l ++ [(item, length (waiter_callback w))])
       (Queue.set_getters (drop_expired w) q),
     registered timeout [VBool false] (VPutDefer callback) w).
Proof.
  intros Hc Hg Hfull. unfold Queue.put. unfold_M. simpl.
  rewrite Hg. simpl.
  assert (Queue.maxsize_is_qsize (Queue.set_getters (drop_expired w) q) = true)
    as -> by done.
  rewrite (callable_truthy _ Hc), Hc. simpl.
  unfold registered. by destruct (bool_decide (timeout <> None)).
Qed.

Lemma fresh_queue_reachable : queue_reachable (new_queue Queue.ClsQueue, new_world).
Proof. by apply (queue_reach_init Queue.ClsQueue None new_world). Qed.

(** X14. [get(cb, timeout)] on an empty queue with no live putter parks
    the getter without calling [cb].  When its timer fires, [cb] is called
    once with [Empty]; the getter no longer counts as waiting: the live
    getters are those from before, and if there was none and the queue has
    room, a later [put(item)] stores the item and calls nobody. *)
Theorem get_timeout (st : Queue.t * World) (cb : pyval) (t : Z) :
  queue_reachable st ->
  callable cb = true ->
  Queue.queue st.1 = [] ->
  live_waiters st.2 (map snd (Queue.putters st.1)) = [] ->
  let new := length (waiter_callback st.2) in
  let st1 := after (Queue.get cb (Some t)) st in
  let timed_out := (st1.1, fire_timeout (length (loop_timeouts st.2)) st1.2) in
  result (Queue.get cb (Some t)) st = Return VNone /\
  trace st1.2 = trace st.2 /\
  loop_callbacks st1.2 = loop_callbacks st.2 /\
  live_waiters st1.2 (Queue.getters st1.1)
  = live_waiters st.2 (Queue.getters st.1) ++ [new] /\
  trace timed_out.2 = trace st.2 ++ calls_of cb [VEmpty] /\
  live_waiters timed_out.2 (Queue.getters timed_out.1)
  = live_waiters st.2 (Queue.getters st.1) /\
  (live_waiters st.2 (Queue.getters st.1) = [] -> has_room st.1 = true ->
   forall item,
     result (Queue.put item VNone None) timed_out = Return tt /\
     Queue.qsize_of (after (Queue.put item VNone None) timed_out).1 = 1%Z /\
     (after (Queue.put item VNone None) timed_out).2 = timed_out.2).
Proof.
  intros Hreach Hc Hq Hput.
  pose proof (queue_reachable_inv st Hreach) as Hinv.
  destruct (queue_reachable_waiters_ok st Hreach) as ([Hnd Hlt] & _ & _).
  destruct st as [q w]. unfold result, after. cbn [fst snd] in *.
  rewrite get_parks by (try done; by apply live_nil_drop_putters).
  cbn [fst snd Queue.getters Queue.set_getters Queue.set_putters].
  rewrite fire_registered.
  split_and!; [done|apply registered_trace|apply registered_loop_callbacks| | | |].
  - by apply registered_live.
  - by apply run_registered_trace.
  - by apply run_registered_live.
  - intros Hnone Hroom item.
    set (w2 := waiter_run _ _ _).
    set (q1 := Queue.set_getters _ _).
    assert (drop_expired w2 (Queue.getters q1) = []) as Hdrop.
    { apply live_nil_drop. unfold q1, w2. simpl.
      by rewrite run_registered_live. }
    assert (Queue.maxsize_is_qsize q1 = false) as Hfull.
    { unfold q1, Queue.maxsize_is_qsize, has_room, Queue.qsize_of in *. simpl.
      rewrite Hq in *. simpl in *. destruct (Queue.maxsize q) as [m|]; [|done].
      apply Z.ltb_lt in Hroom. apply Z.eqb_neq. lia. }
    destruct (put_stores item VNone None q1 w2) as (q' & -> & Hlen & _);
      [by left|done..|].
    cbn [fst snd]. split_and!; [done| |done].
    unfold Queue.qsize_of. rewrite Hlen. unfold q1. simpl. by rewrite Hq.
Qed.

Lemma get_timeout_witness :
  queue_reachable (new_queue Queue.ClsQueue, new_world) /\
  callable (VUser 0 false) = true /\
  trace (fire_timeout 0
           (after (Queue.get (VUser 0 false) (Some 1%Z))
              (new_queue Queue.ClsQueue, new_world)).2)
  = [(0, [VEmpty])].
Proof.
  split; [exact fresh_queue_reachable|]. split; [reflexivity|].
  apply (get_timeout (new_queue Queue.ClsQueue, new_world) (VUser 0 false) 1
           fresh_queue_reachable); reflexivity.
Defined.

(** Running the waiter of a parked putter schedules the callback of the
    [put]: the deferral of [_callback]. *)
Lemma run_putter timeout args callback v w :
  waiter_run (length (waiter_callback w)) [v]
    (registered timeout args (VPutDefer callback) w)
  = set_loop_callbacks (fun l => l ++ [Partial callback [v]])
      (set_waiter_callback (fun l => <[length (waiter_callback w) := VNone]> l)
         (registered timeout args (VPutDefer callback) w)).
Proof.
  unfold waiter_run. rewrite registered_lookup_new. done.
Qed.

Lemma full_queue_reachable : queue_reachable full_queue_state.
Proof.
  unfold full_queue_state. apply queue_reach_step.
  by apply (queue_reach_init Queue.ClsQueue (Some 1%Z) new_world).
Qed.

(** X15. [put(item, cb, timeout)] on a full queue with no live getter
    parks the putter: the item is not stored and [cb] is neither called nor
    scheduled.  When the timer fires, [cb] is still not called: [cb(False)]
    is scheduled, and is called on the next turn.  The item is dropped: the
    storage is unchanged and the live putters are those from before. *)
Theorem put_timeout (st : Queue.t * World) (item cb : pyval) (t : Z) :
  queue_reachable st ->
  callable cb = true ->
  live_waiters st.2 (Queue.getters st.1) = [] ->
  has_room st.1 = false ->
  let new := length (waiter_callback st.2) in
  let st1 := after (Queue.put item cb (Some t)) st in
  let timed_out := (st1.1, fire_timeout (length (loop_timeouts st.2)) st1.2) in
  result (Queue.put item cb (Some t)) st = Return tt /\
  Queue.queue st1.1 = Queue.queue st.1 /\
  Queue.putters st1.1 = Queue.putters st.1 ++ [(item, new)] /\
  trace st1.2 = trace st.2 /\
  loop_callbacks st1.2 = loop_callbacks st.2 /\
  live_waiters st1.2 (map snd (Queue.putters st1.1))
  = live_waiters st.2 (map snd (Queue.putters st.1)) ++ [new] /\
  trace timed_out.2 = trace st.2 /\
  loop_callbacks timed_out.2 = loop_callbacks st.2 ++ [Partial cb [VBool false]] /\
  (exists earlier, trace (run_turn timed_out.2) = earlier ++ calls_of cb [VBool false]) /\
  live_waiters timed_out.2 (map snd (Queue.putters timed_out.1))
  = live_waiters st.2 (map snd (Queue.putters st.1)).
Proof.
  intros Hreach Hc Hget Hroom.
  pose proof (queue_reachable_inv st Hreach) as (_ & _ & Hmax).
  destruct (queue_reachable_waiters_ok st Hreach) as (_ & [Hnd Hlt] & _).
  destruct st as [q w]. unfold result, after. cbn [fst snd] in *.
  assert (Queue.maxsize_is_qsize q = true) as Hfull.
  { unfold Queue.maxsize_is_qsize, has_room in *.
    destruct (Queue.maxsize q) as [m|]; [|done].
    destruct (Hmax m eq_refl) as [_ Hle]. apply Z.ltb_ge in Hroom.
    apply Z.eqb_eq. lia. }
  rewrite put_parks by (try done; by apply live_nil_drop).
  cbn [fst snd Queue.putters Queue.getters Queue.queue Queue.set_getters
       Queue.set_putters].
  rewrite fire_registered, map_app. cbn [map snd].
  split_and!; [done|done|done|apply registered_trace|apply registered_loop_callbacks
              | | | | |].
  - by apply registered_live.
  - rewrite run_registered_trace by done. apply app_nil_r.
  - rewrite run_putter.
    rewrite <- (registered_loop_callbacks None [VBool false] (VPutDefer cb) w).
    by destruct (registered _ _ _ _).
  - rewrite run_putter, run_turn_scheduled. eexists. simpl.
    apply run_callback_trace.
  - by apply run_registered_live.
Qed.

Lemma put_timeout_witness :
  queue_reachable full_queue_state /\
  callable (VUser 0 false) = true /\
  live_waiters full_queue_state.2 (Queue.getters full_queue_state.1) = [] /\
  has_room full_queue_state.1 = false /\
  Queue.queue (after (Queue.put (VInt 2) (VUser 0 false) (Some 1%Z))
                 full_queue_state).1 = [VInt 1].
Proof.
  split; [exact full_queue_reachable|]. do 3 (split; [reflexivity|]).
  apply (put_timeout full_queue_state (VInt 2) (VUser 0 false) 1
           full_queue_reachable); reflexivity.
Defined.

(** ** [get] while a putter waits *)

Lemma full_of_putters q :
  queue_inv q -> Queue.putters q <> [] -> Queue.full_of q = true.
Proof.
  intros (_ & Hp & Hm) Hne. specialize (Hp Hne). unfold Queue.full_of.
  rewrite Hp. destruct (Z.eqb_spec (Queue.qsize_of q) 0); [done|].
  apply Z.eqb_refl.
Qed.

(** X16. [get] while putters wait, on a FIFO queue: the item of the oldest
    putter that has not run is admitted behind the stored items and the
    head of the storage is delivered, so the storage keeps its size; the
    other putters keep waiting.  Without callback the head is returned and
    the putter is woken on the next turn; with a callback, the callback is
    called with the head and the putter is woken within the call. *)
Theorem get_admits_oldest_putter (st : Queue.t * World) (cb : pyval)
    (timeout : option Z) (item : pyval) (putter : nat) (rest : list (pyval * nat)) :
  queue_reachable st ->
  Queue.cls st.1 = Queue.ClsQueue \/ Queue.cls st.1 = Queue.ClsJoinableQueue ->
  Queue.drop_expired_putters st.2 (Queue.putters st.1) = (item, putter) :: rest ->
  let v := hd item (Queue.queue st.1) in
  let st' := after (Queue.get cb timeout) st in
  Queue.queue st'.1 = tl (Queue.queue st.1 ++ [item]) /\
  Queue.putters st'.1 = rest /\
  Queue.getters st'.1 = Queue.getters st.1 /\
  (truthy cb = false ->
     result (Queue.get cb timeout) st = Return v /\
     st'.2 = set_loop_callbacks (fun l => l ++ [WaiterRun putter [VBool true]]) st.2) /\
  (truthy cb = true ->
     result (Queue.get cb timeout) st = Return VNone /\
     st'.2 = waiter_run putter [VBool true] (run_callback cb [v] st.2)).
Proof.
  intros Hreach Hcls Hdrop.
  pose proof (queue_reachable_inv st Hreach) as Hinv.
  destruct st as [q w]. unfold result, after. cbn [fst snd] in *.
  assert (Queue.full_of q = true) as Hfull.
  { apply full_of_putters; [done|]. intros Hp. by rewrite Hp in Hdrop. }
  unfold Queue.get. unfold_M. simpl. rewrite Hdrop.
  assert (Queue.full_of (Queue.set_putters (Queue.drop_expired_putters w) q) = true)
    as -> by done. simpl.
  destruct q as [c m g p s u f]. simpl in *.
  destruct Hcls as [->| ->]; simpl.
  all: unfold Queue._put, Queue._get; unfold_M; simpl.
  all: destruct s as [|x s]; simpl; destruct (truthy cb); simpl.
  all: split_and!; try done.
Qed.

Lemma get_admits_oldest_putter_witness :
  queue_reachable parked_putter_state /\
  (Queue.cls parked_putter_state.1 = Queue.ClsQueue \/
   Queue.cls parked_putter_state.1 = Queue.ClsJoinableQueue) /\
  Queue.drop_expired_putters parked_putter_state.2
    (Queue.putters parked_putter_state.1) = [(VInt 2, 0)] /\
  Queue.queue (after (Queue.get VNone None) parked_putter_state).1 = [VInt 2].
Proof.
  split; [exact parked_putter_reachable|]. split; [left; reflexivity|].
  split; [reflexivity|].
  apply (get_admits_oldest_putter parked_putter_state VNone None (VInt 2) 0 []
           parked_putter_reachable); [left; reflexivity|reflexivity].
Defined.

(** ** [full()] and [empty()] *)

(** X17. In every state of every history, [full()] tells that no slot is
    free and [empty()] that nothing is stored.  When no live getter waits,
    [full()] is true exactly when a [put] without callback raises [Full];
    when no live putter waits, [empty()] is true exactly when a [get]
    without callback raises [Empty]. *)
Theorem full_and_empty (st : Queue.t * World) (item : pyval) :
  queue_reachable st ->
  result Queue.full st = Return (negb (has_room st.1)) /\
  result Queue.empty st = Return (Queue.qsize_of st.1 =? 0)%Z /\
  (live_waiters st.2 (Queue.getters st.1) = [] ->
     result Queue.full st = Return true <->
     result (Queue.put item VNone None) st = Raise Full) /\
  (live_waiters st.2 (map snd (Queue.putters st.1)) = [] ->
     result Queue.empty st = Return true <->
     result (Queue.get VNone None) st = Raise Empty).
Proof.
  intros Hreach. pose proof (queue_reachable_inv st Hreach) as Hinv.
  destruct st as [q w]. cbn [fst snd] in *.
  assert (result Queue.full (q, w) = Return (negb (has_room q))) as Hfull.
  { unfold result, Queue.full. unfold_M. simpl. f_equal.
    destruct Hinv as (_ & _ & Hm). unfold Queue.full_of, has_room.
    destruct (Queue.maxsize q) as [m|]; [|done].
    destruct (Hm m eq_refl) as [H0 Hle].
    destruct (Z.eqb_spec m 0), (Z.eqb_spec (Queue.qsize_of q) m),
      (Z.ltb_spec (Queue.qsize_of q) m); simpl; try done; try lia.
    unfold Queue.qsize_of in *. lia. }
  assert (result Queue.empty (q, w) = Return (Queue.qsize_of q =? 0)%Z) as Hempty.
  { unfold result, Queue.empty, Queue.qsize_of. unfold_M. simpl. f_equal.
    by destruct (Queue.queue q). }
  split_and!; [done|done| |].
  - intros Hlive. rewrite Hfull, put_raises_Full by done.
    apply live_nil_drop, drop_expired_nil in Hlive.
    split; [intros [= H]|intros [H _]].
    + split; [|done]. by apply negb_true_iff.
    + by rewrite H.
  - intros Hlive. rewrite Hempty, get_raises_Empty by done.
    apply live_nil_drop_putters, drop_expired_putters_nil in Hlive.
    unfold Queue.qsize_of.
    split; [intros [= H]|intros [H _]].
    + split; [|done]. apply Z.eqb_eq in H. by destruct (Queue.queue q).
    + by rewrite H.
Qed.

Lemma full_and_empty_witness :
  queue_reachable full_queue_state /\
  result Queue.full full_queue_state = Return true.
Proof.
  split; [exact full_queue_reachable|].
  exact (proj1 (full_and_empty full_queue_state VNone full_queue_reachable)).
Defined.

(** * Semaphore and Lock *)

(** *** The queue of a semaphore *)

Lemma sem_get q w :
  Queue.cls q = Queue.ClsQueue -> Queue.putters q = [] ->
  Queue.get VNone None q w
  = match Queue.queue q with
    | [] => (Raise Empty, q, w)
    | v :: rest => (Return v, Queue.set_queue (fun _ => rest) q, w)
    end.
Proof.
  destruct q as [c m g p s u f]. simpl. intros -> ->.
  unfold Queue.get, Queue._get. unfold_M. by destruct s.
Qed.

Lemma sem_get_callback callback timeout q w :
  Queue.cls q = Queue.ClsQueue -> Queue.putters q = [] ->
  callable callback = true ->
  Queue.get callback timeout q w
  = match Queue.queue q with
    | [] => (Return VNone,
             Queue.set_getters (fun l => l ++ [length (waiter_callback w)]) q,
             registered timeout [VEmpty] callback w)
    | v :: rest => (Return VNone, Queue.set_queue (fun _ => rest) q,
                    run_callback callback [v] w)
    end.
Proof.
  destruct q as [c m g p s u f]. simpl. intros -> -> Hc.
  unfold Queue.get, Queue._get, registered. unfold_M. simpl.
  rewrite (callable_truthy _ Hc), Hc.
  destruct s; simpl; [|done]. by destruct (bool_decide _).
Qed.

Lemma sem_put q w :
  Queue.cls q = Queue.ClsQueue -> Queue.maxsize q = None ->
  (Queue.getters q <> [] -> Queue.queue q = []) ->
  Queue.put VNone VNone None q w
  = match drop_expired w (Queue.getters q) with
    | [] => (Return tt,
             Queue.set_queue (fun l => l ++ [VNone]) (Queue.set_getters (fun _ => []) q),
             w)
    | getter :: rest =>
        (Return tt, Queue.set_getters (fun _ => rest) q,
         waiter_run getter [VNone] w)
    end.
Proof.
  destruct q as [c m g p s u f]. simpl. intros -> -> Hempty.
  unfold Queue.put, Queue._put, Queue._get. unfold_M. simpl.
  destruct (drop_expired w g) as [|getter rest] eqn:Hd; simpl.
  - unfold Queue.set_getters, Queue.set_queue. simpl. by rewrite Hd.
  - assert (s = []) as -> by (apply Hempty; intros ->; done). simpl.
    done.
Qed.

(** *** The methods, under the invariant *)

Lemma release_spec s w :
  sem_inv (s, w) ->
  Semaphore.release s w
  = match drop_expired w (acquirers s) with
    | [] =>
        (Return tt,
         Semaphore.mk
           (Queue.set_queue (fun l => l ++ [VNone])
              (Queue.set_getters (fun _ => []) (Semaphore.q s)))
           (Event.mk (Condition.mk []) true),
         AsyncResult.run_all (live_waiters w (unlock_waiters s)) [] w)
    | getter :: rest =>
        (Return tt,
         Semaphore.mk (Queue.set_getters (fun _ => rest) (Semaphore.q s))
           (Event.mk (Condition.mk []) true),
         AsyncResult.run_all
           (live_waiters (waiter_run getter [VNone] w) (unlock_waiters s)) []
           (waiter_run getter [VNone] w))
    end.
Proof.
  intros (Hcls & Hmax & _ & _ & Hempty & _). simpl in *.
  unfold Semaphore.release, unlock_waiters. unfold_M. simpl.
  rewrite sem_put by done. unfold acquirers.
  destruct (drop_expired w (Queue.getters (Semaphore.q s))); simpl.
  all: by rewrite event_set_spec_live.
Qed.

Lemma acquire_spec callback timeout s w :
  sem_inv (s, w) -> truthy callback = false ->
  Semaphore.acquire callback timeout s w
  = match tokens s with
    | [] => (Return (VBool false), s, w)
    | v :: rest =>
        (Return (VBool true),
         Semaphore.mk (Queue.set_queue (fun _ => rest) (Semaphore.q s))
           (Semaphore._unlocked s), w)
    end.
Proof.
  intros (Hcls & _ & Hput & _) Hc. simpl in *.
  unfold Semaphore.acquire, tokens. rewrite Hc. unfold_M. simpl.
  rewrite sem_get by done.
  destruct (Queue.queue (Semaphore.q s)); simpl; [|done]. by destruct s.
Qed.

Lemma acquire_callback_spec callback timeout s w :
  sem_inv (s, w) -> callable callback = true ->
  Semaphore.acquire callback timeout s w
  = match tokens s with
    | [] =>
        (Return VNone,
         Semaphore.mk
           (Queue.set_getters (fun l => l ++ [length (waiter_callback w)])
              (Semaphore.q s))
           (Semaphore._unlocked s),
         registered timeout [VEmpty] (VAcquire callback) w)
    | v :: rest =>
        (Return VNone,
         Semaphore.mk (Queue.set_queue (fun _ => rest) (Semaphore.q s))
           (Semaphore._unlocked s),
         run_callback (VAcquire callback) [VNone] w)
    end.
Proof.
  intros (Hcls & _ & Hput & Hnone & _) Hc. simpl in *.
  unfold Semaphore.acquire, tokens in *.
  rewrite (callable_truthy _ Hc). unfold_M. rewrite Hc. simpl.
  rewrite sem_get_callback by done.
  destruct (Queue.queue (Semaphore.q s)) as [|v rest]; simpl; [reflexivity|].
  apply Forall_cons in Hnone as [-> _]. reflexivity.
Qed.

Lemma semaphore_wait_spec callback timeout s w :
  callable callback = true ->
  Semaphore.wait callback timeout s w
  = if Event._flag (Semaphore._unlocked s)
    then (Return tt, s, set_loop_callbacks (fun l => l ++ [Partial callback []]) w)
    else (Return tt,
          Semaphore.mk (Semaphore.q s)
            (Event.mk (Condition.mk (unlock_waiters s ++ [length (waiter_callback w)]))
               false),
          registered timeout [] callback w).
Proof.
  intros Hc. unfold Semaphore.wait, unlock_waiters. unfold_M.
  rewrite event_wait_spec by done. destruct s as [q [c f]]. simpl.
  by destruct f.
Qed.

Lemma semaphore_wait_not_callable callback timeout s w :
  callable callback = false ->
  (Semaphore.wait callback timeout s w).1.2 = s /\
  (Semaphore.wait callback timeout s w).2 = w.
Proof.
  intros Hc. unfold Semaphore.wait, Event.wait, Condition.wait. unfold_M. simpl.
  rewrite Hc. destruct s as [q [c f]]. simpl.
  destruct f, (truthy callback); simpl; try done. all: by destruct c.
Qed.

(** *** Construction *)

Lemma for_range_tokens n : forall tokens f w,
  for_range n (Semaphore.on_q (Queue.put VNone VNone None))
    (Semaphore.mk (Queue.mk Queue.ClsQueue None [] [] tokens 0 Event.__init__) f) w
  = (Return tt,
     Semaphore.mk
       (Queue.mk Queue.ClsQueue None [] [] (tokens ++ replicate n VNone) 0
          Event.__init__) f, w).
Proof.
  induction n as [|n IH]; intros tk f w; simpl.
  - by rewrite app_nil_r.
  - unfold mbind at 1, M_bind at 1. unfold Semaphore.on_q at 1, on at 1.
    rewrite sem_put by done. simpl.
    unfold Queue.set_queue, Queue.set_getters. simpl.
    rewrite IH. by rewrite <- app_assoc.
Qed.

Lemma semaphore_init value w :
  Semaphore.__init__ value w
  = if (value <? 0)%Z then (Raise ValueError, w)
    else (Return (fresh_semaphore (Z.to_nat value)), w).
Proof.
  unfold Semaphore.__init__, fresh_semaphore.
  destruct (Z.ltb_spec value 0) as [Hneg|Hpos]; [done|].
  unfold Queue.__init__, construct. simpl.
  pose proof (for_range_tokens (Z.to_nat value) [] Event.__init__ w) as Hfor.
  unfold mbind at 1, M_bind at 1. rewrite Hfor. simpl.
  destruct (Z.eqb_spec value 0) as [->|Hne]; simpl; [done|].
  destruct (Nat.eqb_spec (Z.to_nat value) 0) as [H0|_]; [lia|done].
Qed.

(** *** The invariant *)

Lemma event_inv_mono e w w' :
  length (waiter_callback w) <= length (waiter_callback w') ->
  event_inv (e, w) -> event_inv (e, w').
Proof.
  intros Hlen [Hok Hflag]. split; [|done]. by eapply waiters_ok_mono.
Qed.

Lemma event_inv_set w : event_inv (Event.mk (Condition.mk []) true, w).
Proof. split; [apply waiters_ok_nil|done]. Qed.

Lemma fresh_semaphore_inv n w : sem_inv (fresh_semaphore n, w).
Proof.
  unfold sem_inv, fresh_semaphore, tokens, acquirers. simpl.
  split_and!; try done.
  - apply Forall_forall. intros v Hv. by apply elem_of_replicate in Hv as [-> _].
  - apply waiters_ok_nil.
  - split; [apply waiters_ok_nil|done].
Qed.

(** Split the invariant into its seven parts, and close those that only
    need the world to have kept its waiters. *)
Ltac same_store :=
  rewrite ?run_all_length, ?waiter_run_length, ?run_callback_waiter_callback,
    ?loop_step_length, ?registered_waiter_callback, ?length_app; simpl; lia.

Ltac split_inv :=
  (split; [|split; [|split; [|split; [|split; [|split]]]]]);
  try first [ done | apply waiters_ok_nil | apply event_inv_set
            | eapply waiters_ok_mono; [|eassumption]; same_store
            | eapply event_inv_mono; [|eassumption]; same_store ].

Lemma sem_step_inv a st : sem_inv st -> sem_inv (sem_step a st).
Proof.
  destruct st as [s w]. intros Hinv.
  pose proof Hinv as (Hcls & Hmax & Hput & Hnone & Hempty & Hok & Hev).
  unfold sem_inv, tokens, acquirers, after in *. cbn [fst snd] in *.
  assert (forall v rest, Queue.queue (Semaphore.q s) = v :: rest ->
            Queue.getters (Semaphore.q s) = []) as Hnobody.
  { intros v rest Hq. destruct (Queue.getters (Semaphore.q s)); [done|].
    rewrite Hempty in Hq; done. }
  destruct a as [cb t| |cb t|ev]; cbn [sem_step fst snd after].
  - destruct (truthy cb) eqn:Ht.
    + destruct (callable cb) eqn:Hc.
      * rewrite acquire_callback_spec by done. unfold tokens.
        destruct (Queue.queue (Semaphore.q s)) as [|v rest] eqn:Hq;
          cbn [fst snd Semaphore.q Semaphore._unlocked].
        -- simpl. rewrite Hq. split_inv.
           apply waiters_ok_new; [|done].
           rewrite registered_waiter_callback, length_app. simpl. lia.
        -- simpl. apply Forall_cons in Hnone as [_ Hnone].
           rewrite (Hnobody v rest eq_refl) in *. split_inv.
      * unfold Semaphore.acquire. rewrite Ht. unfold_M. rewrite Hc. simpl.
        split_inv.
    + rewrite acquire_spec by done. unfold tokens.
      destruct (Queue.queue (Semaphore.q s)) as [|v rest] eqn:Hq;
        cbn [fst snd Semaphore.q Semaphore._unlocked].
      * rewrite Hq. split_inv.
      * simpl. apply Forall_cons in Hnone as [_ Hnone].
        rewrite (Hnobody v rest eq_refl) in *. split_inv.
  - rewrite release_spec by done. unfold acquirers.
    pose proof (drop_expired_suffix w (Queue.getters (Semaphore.q s))) as Hsuf.
    destruct (drop_expired w (Queue.getters (Semaphore.q s))) as [|g rest] eqn:Hd;
      cbn [fst snd Semaphore.q Semaphore._unlocked]; simpl.
    + split_inv. apply Forall_app. split; [done|]. by repeat constructor.
    + assert (Queue.queue (Semaphore.q s) = []) as Hq.
      { apply Hempty. intros Hg. rewrite Hg in Hd. done. }
      rewrite Hq. split_inv.
      eapply waiters_ok_suffix; [| |exact Hok]; [by eapply suffix_cons_l|].
      by rewrite run_all_length, waiter_run_length.
  - destruct (callable cb) eqn:Hc.
    + rewrite semaphore_wait_spec by done.
      destruct (Event._flag (Semaphore._unlocked s)) eqn:Hf;
        cbn [fst snd Semaphore.q Semaphore._unlocked].
      * split_inv.
      * split_inv. destruct Hev as [Hwok Hflag]. cbn [fst snd] in *.
        split; [|done]. simpl. apply waiters_ok_new; [|done].
        rewrite registered_waiter_callback, length_app. simpl. lia.
    + destruct (semaphore_wait_not_callable cb t s w Hc) as [-> ->].
      split_inv.
  - split_inv.
Qed.

Lemma sem_reachable_inv st : sem_reachable st -> sem_inv st.
Proof.
  induction 1 as [value w s w' Hinit|a st _ IH].
  - rewrite semaphore_init in Hinit. destruct (value <? 0)%Z; [done|].
    simplify_eq. apply fresh_semaphore_inv.
  - by apply sem_step_inv.
Qed.

(** *** Counting *)

Lemma counter_spec s w : Semaphore.counter s w = (Return (sem_counter s), s, w).
Proof. unfold Semaphore.counter, Queue.qsize. unfold_M. by destruct s. Qed.

Lemma locked_spec s w :
  Semaphore.locked s w = (Return (sem_counter s =? 0)%Z, s, w).
Proof.
  unfold Semaphore.locked, Queue.empty, sem_counter, Queue.qsize_of. unfold_M.
  destruct s as [q e]. simpl. by destruct (Queue.queue q).
Qed.

Lemma two_tokens_reachable : sem_reachable two_tokens_state.
Proof. by apply (sem_reach_init 2 new_world). Qed.

Lemma no_token_reachable : sem_reachable no_token_state.
Proof. by apply (sem_reach_init 0 new_world). Qed.

(** X18. [Semaphore(value)] raises [ValueError] for a negative value and
    touches nothing.  Otherwise it returns a semaphore whose counter is
    [value]: it holds [value] tokens, is locked exactly when [value] is
    zero, has the [unlocked] flag set exactly when [value] is not zero, and
    nobody waits on it; the world is unchanged. *)
Theorem semaphore_init_counter (value : Z) (w : World) :
  ((value < 0)%Z -> Semaphore.__init__ value w = (Raise ValueError, w)) /\
  ((0 <= value)%Z ->
     exists s,
       Semaphore.__init__ value w = (Return s, w) /\
       result Semaphore.counter (s, w) = Return value /\
       result Semaphore.locked (s, w) = Return (value =? 0)%Z /\
       Event._flag (Semaphore._unlocked s) = negb (value =? 0)%Z /\
       tokens s = replicate (Z.to_nat value) VNone /\
       acquirers s = [] /\ unlock_waiters s = []).
Proof.
  rewrite semaphore_init. split; intros Hv.
  - by apply Z.ltb_lt in Hv as ->.
  - apply Z.ltb_ge in Hv as Hlt. rewrite Hlt. apply Z.ltb_ge in Hlt.
    exists (fresh_semaphore (Z.to_nat value)). unfold result. cbn [fst snd].
    rewrite counter_spec, locked_spec. cbn [fst snd].
    assert (sem_counter (fresh_semaphore (Z.to_nat value)) = value) as ->.
    { unfold sem_counter, Queue.qsize_of. simpl. rewrite length_replicate. lia. }
    split_and!; try done. simpl. f_equal.
    destruct (Z.eqb_spec value 0) as [->|Hne]; [done|].
    apply Nat.eqb_neq. lia.
Qed.

Lemma semaphore_init_counter_witness :
  (0 <= 2)%Z /\
  exists s, Semaphore.__init__ 2 new_world = (Return s, new_world) /\
            result Semaphore.counter (s, new_world) = Return 2%Z.
Proof.
  split; [lia|].
  destruct (proj2 (semaphore_init_counter 2 new_world) ltac:(lia))
    as (s & Hinit & Hcount & _).
  by exists s.
Defined.

(** X19. [acquire()] without callback, in every state of every history of
    a semaphore: the counter is never negative; when it is zero the call
    returns [False] and changes nothing; otherwise it returns [True] and
    takes one off the counter, calling and scheduling nothing.  It never
    raises. *)
Theorem acquire_without_callback (st : Semaphore.t * World)
    (callback : pyval) (timeout : option Z) :
  sem_reachable st ->
  truthy callback = false ->
  let st' := after (Semaphore.acquire callback timeout) st in
  (0 <= sem_counter st.1)%Z /\
  (sem_counter st.1 = 0%Z ->
     result (Semaphore.acquire callback timeout) st = Return (VBool false) /\
     st' = st) /\
  (sem_counter st.1 <> 0%Z ->
     result (Semaphore.acquire callback timeout) st = Return (VBool true) /\
     sem_counter st'.1 = (sem_counter st.1 - 1)%Z /\
     st'.2 = st.2 /\
     acquirers st'.1 = acquirers st.1 /\
     Semaphore._unlocked st'.1 = Semaphore._unlocked st.1).
Proof.
  intros Hreach Hc. pose proof (sem_reachable_inv st Hreach) as Hinv.
  destruct st as [s w]. unfold result, after. cbn [fst snd].
  rewrite acquire_spec by done. unfold sem_counter, Queue.qsize_of, tokens.
  destruct (Queue.queue (Semaphore.q s)) as [|v rest]; simpl.
  - split_and!; [done|done|intros; done].
  - split_and!; [lia|intros; lia|]. intros _. split_and!; try done. lia.
Qed.

Lemma acquire_without_callback_witness :
  sem_reachable two_tokens_state /\
  truthy VNone = false /\
  result (Semaphore.acquire VNone None) two_tokens_state = Return (VBool true).
Proof.
  split; [exact two_tokens_reachable|]. split; [reflexivity|].
  apply (acquire_without_callback two_tokens_state VNone None
           two_tokens_reachable); [reflexivity|discriminate].
Defined.

Lemma call_loop_timeouts f : forall args w,
  loop_timeouts (call f args w).2 = loop_timeouts w.
Proof.
  induction f; intros args w; simpl; try done.
  - by destruct raises.
  - by destruct args as [|? [|? ?]].
  - destruct args as [|? [|? ?]]; simpl; auto.
Qed.

Lemma run_callback_loop_timeouts f args w :
  loop_timeouts (run_callback f args w) = loop_timeouts w.
Proof.
  unfold run_callback. pose proof (call_loop_timeouts f args w) as H.
  destruct (call f args w) as [[?|?] w']; simpl in *; done.
Qed.

(** X20. [acquire(cb, timeout)] with a callable [cb] returns [None].  When
    the counter is not zero, [cb(True)] is called within the call, the
    counter goes down by one, and no timer is armed whatever the timeout.
    When it is zero, [cb] is not called: the new waiter is the last live
    acquirer, nothing is scheduled, and a timer is armed exactly when a
    timeout is given. *)
Theorem acquire_with_callback (st : Semaphore.t * World)
    (cb : pyval) (timeout : option Z) :
  sem_reachable st ->
  callable cb = true ->
  let new := length (waiter_callback st.2) in
  let st' := after (Semaphore.acquire cb timeout) st in
  result (Semaphore.acquire cb timeout) st = Return VNone /\
  (sem_counter st.1 <> 0%Z ->
     trace st'.2 = trace st.2 ++ calls_of cb [VBool true] /\
     sem_counter st'.1 = (sem_counter st.1 - 1)%Z /\
     acquirers st'.1 = acquirers st.1 /\
     loop_timeouts st'.2 = loop_timeouts st.2) /\
  (sem_counter st.1 = 0%Z ->
     trace st'.2 = trace st.2 /\
     sem_counter st'.1 = 0%Z /\
     live_waiters st'.2 (acquirers st'.1)
     = live_waiters st.2 (acquirers st.1) ++ [new] /\
     loop_callbacks st'.2 = loop_callbacks st.2 /\
     loop_timeouts st'.2
     = loop_timeouts st.2
       ++ (if bool_decide (timeout <> None) then [WaiterRun new [VEmpty]] else [])).
Proof.
  intros Hreach Hc. pose proof (sem_reachable_inv st Hreach) as Hinv.
  pose proof Hinv as (_ & _ & _ & _ & _ & [_ Hlt] & _).
  destruct st as [s w]. unfold result, after. cbn [fst snd] in *.
  rewrite acquire_callback_spec by done.
  unfold sem_counter, Queue.qsize_of, tokens, acquirers in *.
  destruct (Queue.queue (Semaphore.q s)) as [|v rest] eqn:Hq;
    cbn [fst snd Semaphore.q Queue.queue Queue.getters Queue.set_queue
         Queue.set_getters length]; rewrite ?Hq.
  - split_and!; [done|intros H; exfalso; by apply H|]. intros _.
    split_and!; [apply registered_trace|done| | |].
    + by apply registered_live.
    + apply registered_loop_callbacks.
    + apply registered_loop_timeouts.
  - split_and!; [done| |intros; lia]. intros _. split_and!; [|lia|done|].
    + by rewrite run_callback_trace.
    + apply run_callback_loop_timeouts.
Qed.

Lemma acquire_with_callback_witness :
  sem_reachable two_tokens_state /\
  callable (VUser 0 false) = true /\
  trace (after (Semaphore.acquire (VUser 0 false) None) two_tokens_state).2
  = [(0, [VBool true])].
Proof.
  split; [exact two_tokens_reachable|]. split; [reflexivity|].
  apply (acquire_with_callback two_tokens_state (VUser 0 false) None
           two_tokens_reachable); [reflexivity|discriminate].
Defined.

Lemma release_no_getter s w :
  sem_inv (s, w) -> live_waiters w (acquirers s) = [] ->
  Semaphore.release s w
  = (Return tt,
     Semaphore.mk
       (Queue.set_queue (fun l => l ++ [VNone])
          (Queue.set_getters (fun _ => []) (Semaphore.q s)))
       (Event.mk (Condition.mk []) true),
     AsyncResult.run_all (live_waiters w (unlock_waiters s)) [] w).
Proof.
  intros Hinv Hlive. rewrite release_spec by done.
  by rewrite (live_nil_drop _ _ Hlive).
Qed.

(** X21. When the timer of an [acquire(cb, timeout)] that waits fires, [cb]
    is called once with [False]; the counter is still zero and the live
    acquirers are those from before.  If there was none, a later
    [release()] puts its token into the semaphore (the counter becomes 1)
    and calls the waiters of [wait], not [cb]. *)
Theorem acquire_timeout (st : Semaphore.t * World) (cb : pyval) (t : Z) :
  sem_reachable st ->
  callable cb = true ->
  sem_counter st.1 = 0%Z ->
  let st1 := after (Semaphore.acquire cb (Some t)) st in
  let timed_out := (st1.1, fire_timeout (length (loop_timeouts st.2)) st1.2) in
  trace timed_out.2 = trace st.2 ++ calls_of cb [VBool false] /\
  sem_counter timed_out.1 = 0%Z /\
  live_waiters timed_out.2 (acquirers timed_out.1)
  = live_waiters st.2 (acquirers st.1) /\
  (live_waiters st.2 (acquirers st.1) = [] ->
     let st2 := after Semaphore.release timed_out in
     result Semaphore.release timed_out = Return tt /\
     sem_counter st2.1 = 1%Z /\
     trace st2.2
     = trace timed_out.2
       ++ flat_map (fun x => calls_of (waiter_callback st.2 !!! x) [])
            (live_waiters st.2 (unlock_waiters st.1))).
Proof.
  intros Hreach Hc Hzero.
  pose proof (sem_reachable_inv st Hreach) as Hinv.
  pose proof Hinv as (_ & _ & _ & _ & _ & [_ Hlt] & [[Hnd Hwlt] _]).
  pose proof (sem_reachable_inv _ (sem_reach_step (SAcquire cb (Some t)) st Hreach))
    as Hinv1.
  pose proof (sem_step_inv (SLoop (Timeout (length (loop_timeouts st.2)))) _ Hinv1)
    as Hinv2.
  destruct st as [s w]. unfold result, after in *. cbn [fst snd sem_step loop_step after] in *.
  assert (tokens s = []) as Hq.
  { unfold sem_counter, Queue.qsize_of, tokens in *.
    destruct (Queue.queue (Semaphore.q s)); [done|]. simpl in Hzero. lia. }
  rewrite acquire_callback_spec in * by done. rewrite Hq in *.
  cbn [fst snd] in *. rewrite fire_registered in *.
  unfold acquirers in *. cbn [Semaphore.q Queue.getters Queue.set_getters] in *.
  assert (live_waiters
            (waiter_run (length (waiter_callback w)) [VEmpty]
               (registered None [VEmpty] (VAcquire cb) w))
            (Queue.getters (Semaphore.q s) ++ [length (waiter_callback w)])
          = live_waiters w (Queue.getters (Semaphore.q s))) as Hlive
    by by apply run_registered_live.
  split_and!; [|done|done|].
  - by rewrite run_registered_trace.
  - intros Hnone. rewrite release_no_getter;
      [|done|unfold acquirers; simpl; by rewrite Hlive].
    cbn [fst snd]. split_and!; [done| |].
    + unfold sem_counter, Queue.qsize_of. simpl.
      unfold tokens in Hq. by rewrite Hq.
    + unfold unlock_waiters in *. cbn [Semaphore._unlocked] in *.
      set (ws := Condition.waiters (Event.condition (Semaphore._unlocked s))) in *.
      set (w2 := waiter_run _ _ _).
      assert (Forall (fun x => waiter_callback w2 !!! x = waiter_callback w !!! x) ws)
        as Hsame.
      { apply Forall_forall. intros x Hx. apply run_registered_lookup.
        rewrite Forall_forall in Hwlt. by apply Hwlt. }
      rewrite (live_waiters_same_lookup w2 w) by done.
      rewrite run_all_live_trace.
      * f_equal. apply calls_same_lookup, Forall_forall. intros x Hx.
        apply list_elem_of_filter in Hx as [_ Hx].
        rewrite Forall_forall in Hsame. by apply Hsame.
      * by apply NoDup_filter.
      * rewrite (live_waiters_same_lookup w2 w (live_waiters w ws))
          by (apply Forall_forall; intros x Hx;
              apply list_elem_of_filter in Hx as [_ Hx];
              rewrite Forall_forall in Hsame; by apply Hsame).
        apply live_waiters_fixed.
Qed.

Lemma acquire_timeout_witness :
  sem_reachable no_token_state /\
  callable (VUser 0 false) = true /\
  sem_counter no_token_state.1 = 0%Z /\
  trace (fire_timeout 0
           (after (Semaphore.acquire (VUser 0 false) (Some 1%Z)) no_token_state).2)
  = [(0, [VBool false])].
Proof.
  split; [exact no_token_reachable|]. do 2 (split; [reflexivity|]).
  apply (acquire_timeout no_token_state (VUser 0 false) 1 no_token_reachable);
    reflexivity.
Defined.



(** *** The flag of [_unlocked] *)

Lemma sem_run_reachable actions : forall st,
  sem_reachable st -> sem_reachable (sem_run actions st).
Proof.
  induction actions as [|a actions IH]; intros st Hreach; [done|].
  apply IH. by apply sem_reach_step.
Qed.

Lemma sem_step_flag a st :
  sem_inv st ->
  Event._flag (Semaphore._unlocked st.1) = true ->
  Event._flag (Semaphore._unlocked (sem_step a st).1) = true.
Proof.
  destruct st as [s w]. intros Hinv Hflag. cbn [fst snd] in *.
  destruct a as [cb t| |cb t|ev]; cbn [sem_step fst snd after]; unfold after;
    cbn [fst snd].
  - destruct (truthy cb) eqn:Ht.
    + destruct (callable cb) eqn:Hc.
      * rewrite acquire_callback_spec by done. by destruct (tokens s).
      * unfold Semaphore.acquire. rewrite Ht. unfold_M. by rewrite Hc.
    + rewrite acquire_spec by done. by destruct (tokens s).
  - rewrite release_spec by done. by destruct (drop_expired _ _).
  - destruct (callable cb) eqn:Hc.
    + rewrite semaphore_wait_spec by done. by rewrite Hflag.
    + by destruct (semaphore_wait_not_callable cb t s w Hc) as [-> _].
  - done.
Qed.

Lemma sem_step_tokens_flag a st :
  sem_inv st ->
  (tokens st.1 <> [] -> Event._flag (Semaphore._unlocked st.1) = true) ->
  tokens (sem_step a st).1 <> [] ->
  Event._flag (Semaphore._unlocked (sem_step a st).1) = true.
Proof.
  destruct st as [s w]. intros Hinv Hflag. cbn [fst snd] in *.
  destruct a as [cb t| |cb t|ev]; cbn [sem_step fst snd after]; unfold after;
    cbn [fst snd].
  - destruct (truthy cb) eqn:Ht.
    + destruct (callable cb) eqn:Hc.
      * rewrite acquire_callback_spec by done. unfold tokens in *.
        destruct (Queue.queue (Semaphore.q s)) eqn:Hq; simpl.
        -- by rewrite Hq.
        -- intros _. by apply Hflag.
      * unfold Semaphore.acquire. rewrite Ht. unfold_M. by rewrite Hc.
    + rewrite acquire_spec by done. unfold tokens in *.
      destruct (Queue.queue (Semaphore.q s)) eqn:Hq; simpl.
      * by rewrite Hq.
      * intros _. by apply Hflag.
  - rewrite release_spec by done. by destruct (drop_expired _ _).
  - destruct (callable cb) eqn:Hc.
    + rewrite semaphore_wait_spec by done. unfold tokens in *.
      destruct (Event._flag (Semaphore._unlocked s)) eqn:Hf; simpl.
      * done.
      * intros Hq. by specialize (Hflag Hq).
    + by destruct (semaphore_wait_not_callable cb t s w Hc) as [-> _].
  - done.
Qed.

Lemma sem_reachable_tokens_flag st :
  sem_reachable st ->
  tokens st.1 <> [] -> Event._flag (Semaphore._unlocked st.1) = true.
Proof.
  induction 1 as [value w s w' Hinit|a st Hreach IH].
  - rewrite semaphore_init in Hinit. destruct (value <? 0)%Z; [done|].
    simplify_eq. unfold tokens. simpl. by destruct (Z.to_nat value).
  - apply sem_step_tokens_flag; [by apply sem_reachable_inv|done].
Qed.

(** X23. The [unlocked] flag of a semaphore is set whenever the counter is
    not zero, and nothing ever clears it: once set it is set after every
    further history of calls and loop events, also when the counter is back
    to zero.  From then on [wait(cb, timeout)] never waits: it parks nothing
    and arms no timer, and [cb] runs on the next turn. *)
Theorem unlocked_flag_is_never_cleared (st : Semaphore.t * World)
    (actions : list sem_action) :
  sem_reachable st ->
  (sem_counter st.1 <> 0%Z -> Event._flag (Semaphore._unlocked st.1) = true) /\
  (Event._flag (Semaphore._unlocked st.1) = true ->
     let st' := sem_run actions st in
     Event._flag (Semaphore._unlocked st'.1) = true /\
     forall cb timeout, callable cb = true ->
       let st2 := after (Semaphore.wait cb timeout) st' in
       result (Semaphore.wait cb timeout) st' = Return tt /\
       st2.1 = st'.1 /\
       trace st2.2 = trace st'.2 /\
       loop_timeouts st2.2 = loop_timeouts st'.2 /\
       loop_callbacks st2.2 = loop_callbacks st'.2 ++ [Partial cb []] /\
       trace (run_turn st2.2) = trace (run_turn st'.2) ++ calls_of cb []).
Proof.
  intros Hreach. split.
  - intros Hc. apply sem_reachable_tokens_flag; [done|].
    unfold sem_counter, Queue.qsize_of, tokens in *. intros Hq.
    by rewrite Hq in Hc.
  - intros Hflag.
    assert (Event._flag (Semaphore._unlocked (sem_run actions st).1) = true)
      as Hflag'.
    { clear -Hreach Hflag. revert st Hreach Hflag.
      induction actions as [|a actions IH]; intros st Hreach Hflag; [done|].
      simpl. apply IH; [by apply sem_reach_step|].
      apply sem_step_flag; [by apply sem_reachable_inv|done]. }
    cbv zeta. split; [done|]. intros cb timeout Hc.
    destruct (sem_run actions st) as [s' w']. unfold result, after.
    cbn [fst snd] in *. rewrite semaphore_wait_spec by done. rewrite Hflag'.
    cbn [fst snd]. split_and!; [done..|].
    rewrite run_turn_scheduled. simpl. apply run_callback_trace.
Qed.

Lemma unlocked_flag_is_never_cleared_witness :
  sem_reachable two_tokens_state /\
  Event._flag (Semaphore._unlocked two_tokens_state.1) = true /\
  result Semaphore.locked
    (sem_run [SAcquire VNone None; SAcquire VNone None] two_tokens_state)
  = Return true /\
  Event._flag
    (Semaphore._unlocked
       (sem_run [SAcquire VNone None; SAcquire VNone None] two_tokens_state).1)
  = true.
Proof.
  split; [exact two_tokens_reachable|]. do 2 (split; [reflexivity|]).
  apply (unlocked_flag_is_never_cleared two_tokens_state
           [SAcquire VNone None; SAcquire VNone None] two_tokens_reachable).
  reflexivity.
Defined.

(** ** Lock *)

Lemma lock_step_block a l w :
  ((lock_step a (l, w)).1, (lock_step a (l, w)).2)
  = (Lock.mk (sem_step (block_action a) (Lock._block l, w)).1,
     (sem_step (block_action a) (Lock._block l, w)).2).
Proof.
  destruct l as [s]. destruct a as [cb t| |ev]; simpl; unfold after; simpl.
  - unfold Lock.acquire, Lock.on_block, on. simpl.
    by destruct (Semaphore.acquire cb t s w) as [[? ?] ?].
  - unfold Lock.release, Lock.on_block, on. simpl.
    by destruct (Semaphore.release s w) as [[? ?] ?].
  - done.
Qed.

Lemma lock_block_reachable st :
  lock_reachable st -> sem_reachable (Lock._block st.1, st.2).
Proof.
  induction 1 as [w l w' Hinit|a [l w] _ IH].
  - unfold Lock.__init__ in Hinit.
    destruct (Semaphore.__init__ 1 w) as [[s|e] w1] eqn:Hs; simplify_eq.
    by apply (sem_reach_init 1 w).
  - pose proof (lock_step_block a l w) as Hstep.
    destruct (lock_step a (l, w)) as [l' w'']. simpl in *.
    injection Hstep as -> ->. simpl.
    rewrite <- surjective_pairing. by apply sem_reach_step.
Qed.

Lemma held_lock_reachable : lock_reachable held_lock_state.
Proof.
  unfold held_lock_state. apply lock_reach_step.
  by apply (lock_reach_init new_world).
Qed.

Lemma lock_locked_spec l w :
  Lock.locked l w = (Return (sem_counter (Lock._block l) =? 0)%Z, l, w).
Proof.
  unfold Lock.locked, Lock.on_block, on. rewrite locked_spec. by destruct l.
Qed.

Lemma lock_acquire_spec callback timeout l w :
  Lock.acquire callback timeout l w
  = ((Semaphore.acquire callback timeout (Lock._block l) w).1.1,
     Lock.mk (Semaphore.acquire callback timeout (Lock._block l) w).1.2,
     (Semaphore.acquire callback timeout (Lock._block l) w).2).
Proof.
  unfold Lock.acquire, Lock.on_block, on.
  by destruct (Semaphore.acquire _ _ _ _) as [[? ?] ?].
Qed.

Lemma lock_release_spec l w :
  Lock.release l w
  = ((Semaphore.release (Lock._block l) w).1.1,
     Lock.mk (Semaphore.release (Lock._block l) w).1.2,
     (Semaphore.release (Lock._block l) w).2).
Proof.
  unfold Lock.release, Lock.on_block, on.
  by destruct (Semaphore.release _ _) as [[? ?] ?].
Qed.

(** X24. A [Lock] is a semaphore that starts with one token.  [locked()] is
    true exactly when the counter is zero; [acquire()] without callback
    returns [False] and changes nothing on a locked lock, and otherwise
    returns [True] and takes one token.  [release()] always returns and
    does not check that the lock is held: on a lock that is not locked it
    adds a token, after which an [acquire()] succeeds and leaves the lock
    unlocked. *)
Theorem lock_acquire_release (st : Lock.t * World) (callback : pyval)
    (timeout : option Z) :
  lock_reachable st ->
  truthy callback = false ->
  let n := sem_counter (Lock._block st.1) in
  let released := after Lock.release st in
  (0 <= n)%Z /\
  result Lock.locked st = Return (n =? 0)%Z /\
  (n = 0%Z ->
     result (Lock.acquire callback timeout) st = Return (VBool false) /\
     after (Lock.acquire callback timeout) st = st) /\
  (n <> 0%Z ->
     result (Lock.acquire callback timeout) st = Return (VBool true) /\
     sem_counter (Lock._block (after (Lock.acquire callback timeout) st).1)
     = (n - 1)%Z) /\
  result Lock.release st = Return tt /\
  (live_waiters st.2 (acquirers (Lock._block st.1)) = [] ->
     sem_counter (Lock._block released.1) = (n + 1)%Z /\
     result Lock.locked released = Return false) /\
  (n <> 0%Z ->
     result (Lock.acquire callback timeout) released = Return (VBool true) /\
     result Lock.locked (after (Lock.acquire callback timeout) released)
     = Return false).
Proof.
  intros Hreach Hc.
  pose proof (lock_block_reachable st Hreach) as Hsem.
  pose proof (sem_reachable_inv _ Hsem) as Hinv.
  pose proof (sem_reachable_inv _ (sem_reach_step SRelease _ Hsem)) as Hinv'.
  destruct st as [[s] w]. unfold result, after in *.
  cbn [fst snd Lock._block sem_step after] in *. unfold after in Hinv'.
  cbn [fst snd] in Hinv'.
  rewrite !lock_locked_spec, !lock_acquire_spec, !lock_release_spec.
  cbn [fst snd Lock._block].
  rewrite (acquire_spec callback timeout s w) by done.
  assert (0 <= sem_counter s)%Z as Hpos by (unfold sem_counter, Queue.qsize_of; lia).
  assert (forall s0, tokens s0 = [] <-> sem_counter s0 = 0%Z) as Hzero.
  { intros s0. unfold tokens, sem_counter, Queue.qsize_of.
    destruct (Queue.queue (Semaphore.q s0)); simpl; split; intros; try done; lia. }
  assert (sem_counter s <> 0%Z -> live_waiters w (acquirers s) = []) as Hnobody.
  { intros Hn. destruct Hinv as (_ & _ & _ & _ & Hempty & _).
    cbn [fst snd] in Hempty. destruct (acquirers s); [done|].
    exfalso. apply Hn, Hzero, Hempty. done. }
  split_and!.
  - done.
  - done.
  - intros Hn. apply Hzero in Hn. by rewrite Hn.
  - intros Hn. destruct (tokens s) as [|v rest] eqn:Hq; [by apply Hzero in Hq|].
    cbn [fst snd Lock._block]. split; [done|].
    unfold tokens, sem_counter, Queue.qsize_of in *. simpl. rewrite Hq. simpl. lia.
  - rewrite release_spec by done. by destruct (drop_expired _ _).
  - intros Hnone. rewrite release_no_getter by done. cbn [fst snd].
    unfold sem_counter, Queue.qsize_of in *. simpl. rewrite length_app. simpl.
    split; [lia|]. f_equal. apply Z.eqb_neq. lia.
  - intros Hn. rewrite release_no_getter in * by auto. cbn [fst snd] in *.
    rewrite acquire_spec by done. unfold tokens. simpl.
    destruct (Queue.queue (Semaphore.q s)) as [|v rest] eqn:Hq.
    { exfalso. apply Hn, Hzero. done. }
    simpl. split; [done|]. f_equal.
    apply Z.eqb_neq. unfold sem_counter, Queue.qsize_of. simpl.
    rewrite length_app. simpl. lia.
Qed.

Lemma lock_acquire_release_witness :
  lock_reachable held_lock_state /\
  truthy VNone = false /\
  result Lock.locked held_lock_state = Return true /\
  result (Lock.acquire VNone None) held_lock_state = Return (VBool false).
Proof.
  split; [exact held_lock_reachable|]. split; [reflexivity|].
  split; [reflexivity|].
  apply (lock_acquire_release held_lock_state VNone None held_lock_reachable);
    reflexivity.
Defined.

(** * Exceptions of callbacks *)




